(** * Smith-Waterman alignment of a reference and a hypothesis sequence

    A shallow embedding of [alignment.py]: the aligner
    [smith_waterman_alignment] (score matrix, backpointer matrix,
    traceback), the edit classifier [get_edit_type], the gap padder
    [padded_alignments] and the n-gram extractor
    [calc_aligned_ngram_tuples], followed by the properties proved of
    them.

    Conventions of the embedding.
    - Indices are [nat]: every index expression of the source is
      non-negative where it is evaluated (the loops start at 1 and the
      [x-1] reads are guarded by [x > 0]), so Python's negative indexing
      never comes into play.
    - Scores are [Z] (the consumers of the aligner pass integer scores);
      [max_score], which starts as [-float("inf")], is a [score].
    - A list read [l[i]] is the lookup [l !! i]; out of range it raises
      [IndexError], as in Python.  A list write is [<[i:=v]>] guarded by a
      bounds check for the same reason.
    - Exceptions are values of [exn]; a computation returns a [result].
      The [while] loop of the traceback runs on fuel and answers
      [OutOfFuel] when the fuel is used up; the aligner gives it more fuel
      than the loop can consume (lemmas [traceback_fuel] and
      [smith_waterman_alignment_terminates]).
    - Logging and the verbose matrix dump (guarded by the module
      constant [verbose_level = 0]) produce no value and are left out. *)

From stdpp Require Import base option list gmap strings sorting.
From Stdlib Require Import ZArith Lia.

Local Open Scope Z_scope.

(** ** Exceptions and results *)

Inductive exn : Set :=
  | IndexError
  | AssertionError
  | RuntimeError
  | UnboundLocalError.

Inductive result (A : Type) : Type :=
  | Ok (a : A)
  | Raise (e : exn)
  | OutOfFuel.

Global Arguments Ok {A} a.
Global Arguments Raise {A} e.
Global Arguments OutOfFuel {A}.

Global Instance result_ret : MRet result := fun A a => Ok a.

Global Instance result_bind : MBind result := fun A B f m =>
  match m with
  | Ok a => f a
  | Raise e => Raise e
  | OutOfFuel => OutOfFuel
  end.

(** [l[i]] and friends: a failed lookup is an [IndexError]. *)
Definition index {A} (o : option A) : result A :=
  match o with
  | Some a => Ok a
  | None => Raise IndexError
  end.

(** [for x in xs: s = body(x, s)], stopping at the first exception. *)
Fixpoint for_each {S X} (xs : list X) (body : X → S → result S) (s : S)
    : result S :=
  match xs with
  | [] => Ok s
  | x :: xs' => body x s ≫= for_each xs' body
  end.

(** [range(a, b)] *)
Definition range (a b : nat) : list nat := seq a (b - a).

(** ** Scores *)

(** The value of the variables [max_score] and [score]: minus infinity
    until a cell has been recorded, an integer afterwards. *)
Inductive score : Set :=
  | NegInf
  | Fin (z : Z).

(** [z >= s] *)
Definition score_le_int (s : score) (z : Z) : bool :=
  match s with
  | NegInf => true
  | Fin y => y <=? z
  end.

(** [s >= 0] *)
Definition score_nonneg (s : score) : bool :=
  match s with
  | NegInf => false
  | Fin y => 0 <=? y
  end.

(** [s == 0] *)
Definition score_is_zero (s : score) : bool :=
  match s with
  | NegInf => false
  | Fin y => y =? 0
  end.

(** ** Matrices: lists of rows *)

Abbreviation matrix A := (list (list A)) (only parsing).

(** [M[i][j]] *)
Definition mget {A} (M : matrix A) (i j : nat) : option A :=
  match M !! i with
  | Some row => row !! j
  | None => None
  end.

(** [M[i][j] = v] *)
Definition mset {A} (M : matrix A) (i j : nat) (v : A) : option (matrix A) :=
  match M !! i with
  | Some row =>
      if decide (j < length row)%nat then Some (<[i := <[j := v]> row]> M)
      else None
  | None => None
  end.

(** [M[i] = row] *)
Definition rowset {A} (M : matrix A) (i : nat) (row : list A)
    : option (matrix A) :=
  if decide (i < length M)%nat then Some (<[i := row]> M) else None.

(** ** The aligner *)

(** One element of the list the aligner returns:
    [(ref_word, hyp_word, ref_word_from_index, hyp_word_from_index,
      ref_word_to_index, hyp_word_to_index)]. *)
Record AlignedPair (T : Type) : Type := mkAlignedPair {
  ref_word : T;
  hyp_word : T;
  ref_word_from_index : nat;
  hyp_word_from_index : nat;
  ref_word_to_index : nat;
  hyp_word_to_index : nat
}.

Global Arguments mkAlignedPair {T} _ _ _ _ _ _.
Global Arguments ref_word {T} _.
Global Arguments hyp_word {T} _.
Global Arguments ref_word_from_index {T} _.
Global Arguments hyp_word_from_index {T} _.
Global Arguments ref_word_to_index {T} _.
Global Arguments hyp_word_to_index {T} _.

(** The variables the traceback loop updates.  [tb_prev] holds
    [prev_ref_index, prev_hyp_index], unbound before the first
    iteration. *)
Record tb_state (T : Type) : Type := mkTb {
  tb_ref_index : nat;
  tb_hyp_index : nat;
  tb_score : score;
  tb_output : list (AlignedPair T);
  tb_prev : option (nat * nat)
}.

Global Arguments mkTb {T} _ _ _ _ _.
Global Arguments tb_ref_index {T} _.
Global Arguments tb_hyp_index {T} _.
Global Arguments tb_score {T} _.
Global Arguments tb_output {T} _.
Global Arguments tb_prev {T} _.

(** The variables the matrix loops update. *)
Record fill_state : Type := mkFill {
  fs_H : matrix Z;
  fs_bp : matrix (nat * nat);
  fs_max_score : score;
  fs_max_score_element : nat * nat
}.

Section Aligner.

Context {T : Type}.
Variables (ref hyp : list T).
Variable similarity_score_function : T → T → Z.
Variables (del_score ins_score : Z).
Variable eps_symbol : T.
Variable align_full_hyp : bool.

Let ref_len : nat := length ref.
Let hyp_len : nat := length hyp.

(** Lines 46-71: allocation and boundary initialisation of [H] and [bp]. *)

(** The inner loop of line 65, run for [ref_index = 0] only. *)
Definition init_top_row (ref_index : nat) (Hbp : matrix Z * matrix (nat * nat))
    : result (matrix Z * matrix (nat * nat)) :=
  for_each (range 1 (hyp_len + 1)) (fun hyp_index '(H, bp) =>
    left ← index (mget H 0 (hyp_index - 1));
    H ← index (mset H 0 hyp_index (left + ins_score));
    bp ← index (mset bp ref_index hyp_index (ref_index, (hyp_index - 1)%nat));
    Ok (H, bp)) Hbp.

Definition init_row (ref_index : nat) (Hbp : matrix Z * matrix (nat * nat))
    : result (matrix Z * matrix (nat * nat)) :=
  let '(H, bp) := Hbp in
  H ← (if align_full_hyp then
         H ← index (rowset H ref_index
                      (replicate (hyp_len + 1) (- (Z.of_nat hyp_len + 2))));
         index (mset H ref_index 0 0)
       else
         index (rowset H ref_index (replicate (hyp_len + 1) 0)));
  bp ← index (rowset bp ref_index (replicate (hyp_len + 1) (0%nat, 0%nat)));
  if align_full_hyp && bool_decide (ref_index = 0%nat)
  then init_top_row ref_index (H, bp)
  else Ok (H, bp).

Definition init_matrices : result (matrix Z * matrix (nat * nat)) :=
  for_each (range 0 (ref_len + 1)) init_row
    (replicate (ref_len + 1) [], replicate (ref_len + 1) []).

(** Lines 78-113: the body of the double loop, for one cell. *)
Definition fill_cell (ref_index hyp_index : nat) (st : fill_state)
    : result fill_state :=
  let '(mkFill H bp max_score max_score_element) := st in
  diag ← index (mget H (ref_index - 1) (hyp_index - 1));
  r ← index (ref !! (ref_index - 1)%nat);
  h ← index (hyp !! (hyp_index - 1)%nat);
  let sub_or_ok := diag + similarity_score_function r h in
  accept ← (if align_full_hyp then
              cur ← index (mget H ref_index hyp_index);
              Ok (cur <=? sub_or_ok)
            else Ok (0 <? sub_or_ok));
  '(H, bp) ← (if accept : bool then
                H ← index (mset H ref_index hyp_index sub_or_ok);
                bp ← index (mset bp ref_index hyp_index
                              ((ref_index - 1)%nat, (hyp_index - 1)%nat));
                Ok (H, bp)
              else Ok (H, bp));
  up ← index (mget H (ref_index - 1) hyp_index);
  cur ← index (mget H ref_index hyp_index);
  '(H, bp) ← (if cur <? up + del_score then
                H ← index (mset H ref_index hyp_index (up + del_score));
                bp ← index (mset bp ref_index hyp_index
                              ((ref_index - 1)%nat, hyp_index));
                Ok (H, bp)
              else Ok (H, bp));
  left ← index (mget H ref_index (hyp_index - 1));
  cur ← index (mget H ref_index hyp_index);
  '(H, bp) ← (if cur <? left + ins_score then
                H ← index (mset H ref_index hyp_index (left + ins_score));
                bp ← index (mset bp ref_index hyp_index
                              (ref_index, (hyp_index - 1)%nat));
                Ok (H, bp)
              else Ok (H, bp));
  if negb align_full_hyp || bool_decide (hyp_index = hyp_len)
  then
    cur ← index (mget H ref_index hyp_index);
    if score_le_int max_score cur
    then Ok (mkFill H bp (Fin cur) (ref_index, hyp_index))
    else Ok (mkFill H bp max_score max_score_element)
  else Ok (mkFill H bp max_score max_score_element).

(** Lines 76-77: the double loop, rows outermost. *)
Definition fill_row (ref_index : nat) (st : fill_state) : result fill_state :=
  for_each (range 1 (hyp_len + 1)) (fill_cell ref_index) st.

Definition fill (st : fill_state) : result fill_state :=
  for_each (range 1 (ref_len + 1)) fill_row st.

(** Lines 120-168: the traceback. *)

(** [ref[ref_index-1] if ref_index > 0 else eps_symbol] *)
Definition word_at (l : list T) (i : nat) : option T :=
  if decide (0 < i)%nat then l !! (i - 1)%nat else Some eps_symbol.

(** The loop condition of line 120. *)
Definition tb_continue (st : tb_state T) : bool :=
  if align_full_hyp then bool_decide (0 < tb_hyp_index st)%nat
  else score_nonneg (tb_score st).

(** The [try] block once [prev_ref_index, prev_hyp_index] is bound;
    [None] stands for an exception raised inside the block.  The boolean
    tells whether the loop goes on ([true]) or was left by [break]. *)
Definition tb_try (H : matrix Z) (m n : nat) (out : list (AlignedPair T))
    (pm pn : nat) : option (bool * tb_state T) :=
  if bool_decide ((pm, pn) = (m, n)) || bool_decide ((pm, pn) = (0%nat, 0%nat))
  then
    s ← mget H m n;
    if bool_decide (s ≠ 0) then
      rw ← word_at ref m;
      hw ← word_at hyp n;
      s' ← mget H pm pn;
      Some (false,
            mkTb pm pn (Fin s') (out ++ [mkAlignedPair rw hw pm pn m n])
                 (Some (pm, pn)))
    else Some (false, mkTb m n (Fin s) out (Some (pm, pn)))
  else
    out' ←
      (if bool_decide (m = pm + 1)%nat && bool_decide (n = pn + 1)%nat then
         rw ← word_at ref m;
         hw ← word_at hyp n;
         Some (out ++ [mkAlignedPair rw hw pm pn m n])
       else if bool_decide (pn = n) then
         (* assert prev_ref_index == ref_index - 1 *)
         if bool_decide (pm + 1 = m)%nat then
           rw ← word_at ref m;
           Some (out ++ [mkAlignedPair rw eps_symbol pm pn m n])
         else None
       else if bool_decide (pm = m) then
         (* assert prev_hyp_index == hyp_index - 1 *)
         if bool_decide (pn + 1 = n)%nat then
           hw ← word_at hyp n;
           Some (out ++ [mkAlignedPair eps_symbol hw pm pn m n])
         else None
       else None);
    s' ← mget H pm pn;
    Some (true, mkTb pm pn (Fin s') out' (Some (pm, pn))).

(** The [except] clause: its log call reads [ref[prev_ref_index]] and
    [hyp[prev_hyp_index]] before the [RuntimeError] is raised. *)
Definition tb_except (prev : option (nat * nat)) : exn :=
  match prev with
  | None => UnboundLocalError
  | Some (pm, pn) =>
      match ref !! pm, hyp !! pn with
      | Some _, Some _ => RuntimeError
      | _, _ => IndexError
      end
  end.

Fixpoint traceback (fuel : nat) (H : matrix Z) (bp : matrix (nat * nat))
    (st : tb_state T) : result (tb_state T) :=
  match fuel with
  | O => OutOfFuel
  | S fuel' =>
      if tb_continue st then
        match mget bp (tb_ref_index st) (tb_hyp_index st) with
        | None => Raise (tb_except (tb_prev st))
        | Some (pm, pn) =>
            match tb_try H (tb_ref_index st) (tb_hyp_index st)
                    (tb_output st) pm pn with
            | None => Raise (tb_except (Some (pm, pn)))
            | Some (true, st') => traceback fuel' H bp st'
            | Some (false, st') => Ok st'
            end
        end
      else Ok st
  end.

Definition smith_waterman_alignment
    : result (list (AlignedPair T) * score) :=
  '(H, bp) ← init_matrices;
  st ← fill (mkFill H bp NegInf (0%nat, 0%nat));
  let '(ref_index, hyp_index) := fs_max_score_element st in
  tb ← traceback (S (ref_index + hyp_index)) (fs_H st) (fs_bp st)
         (mkTb ref_index hyp_index (fs_max_score st) [] None);
  if align_full_hyp || score_is_zero (tb_score tb)
  then Ok (rev (tb_output tb), fs_max_score st)
  else Raise AssertionError.

End Aligner.

(** ** The edit classifier *)

(** The four edit types are the strings the source returns. *)
Definition get_edit_type {T} `{EqDecision T} (ref hyp eps : T) : string :=
  if bool_decide (ref ≠ hyp)
     && negb (bool_decide (ref = eps) || bool_decide (hyp = eps))
  then "sub"
  else if bool_decide (ref ≠ hyp) && bool_decide (ref = eps) then "ins"
  else if bool_decide (ref ≠ hyp) && bool_decide (hyp = eps) then "del"
  else "cor".

(** [lambda x, y: 2 if (x == y) else -1], the similarity both consumers
    pass to the aligner. *)
Definition match_or_mismatch {T} `{EqDecision T} (x y : T) : Z :=
  if bool_decide (x = y) then 2 else -1.

Definition align_and_calc_edit_types (ref_tok hyp_tok : list string)
    : result (list string) :=
  let eps := "|"%string in
  '(output, score) ←
    smith_waterman_alignment ref_tok hyp_tok match_or_mismatch (-1) (-1)
      eps true;
  Ok (map (fun o => get_edit_type (ref_word o) (hyp_word o) eps) output).

(** ** The gap padder *)

(** The named tuple [Alignment]; the two [_to] fields of a padding
    record are [None]. *)
Record Alignment : Type := mkAlignment {
  ref : string;
  hyp : string;
  refi_from : nat;
  hypi_from : nat;
  refi_to : option nat;
  hypi_to : option nat
}.

(** The conversion of line 243: an aligner tuple unpacked into the
    fields of an [Alignment]. *)
Definition Alignment_of (o : AlignedPair string) : Alignment :=
  mkAlignment (ref_word o) (hyp_word o)
    (ref_word_from_index o) (hyp_word_from_index o)
    (Some (ref_word_to_index o)) (Some (hyp_word_to_index o)).

(** [[f(i) for i in xs]] where [f] may raise. *)
Fixpoint list_comp {X Y} (f : X → result Y) (xs : list X) : result (list Y) :=
  match xs with
  | [] => Ok []
  | x :: xs' => y ← f x; ys ← list_comp f xs'; Ok (y :: ys)
  end.

Definition padded_alignments (ref_tok hyp_tok : list string) (eps : string)
    : result (list Alignment) :=
  '(output, score) ←
    smith_waterman_alignment ref_tok hyp_tok match_or_mismatch (-1) (-1)
      eps true;
  let alignments := Alignment_of <$> output in
  first ← index (alignments !! 0%nat);
  let start := refi_from first in
  padding_left ←
    list_comp (fun i => r ← index (ref_tok !! i);
                        Ok (mkAlignment r eps i 0 None None))
      (range 0 start);
  final ← index (last alignments);
  let end_ := refi_from final in
  padding_right ←
    list_comp (fun i => r ← index (ref_tok !! i);
                        Ok (mkAlignment r eps i (length hyp_tok) None None))
      (range (end_ + 1) (length ref_tok));
  Ok (padding_left ++ alignments ++ padding_right).

(** ** The n-gram extractor *)

(** [l[a:b]] for non-negative [a] and [b]. *)
Definition slice {A} (l : list A) (a b : nat) : list A :=
  take (b - a) (drop a l).

(** The [defaultdict(list)] filled by the loop of lines 263-264.  A read
    of a missing key gives the empty list, which is [!!!] on a map of
    lists; that such a read also stores the empty list under the key
    changes no later read. *)
Definition group_by_refi_from (alignments : list Alignment)
    : gmap nat (list Alignment) :=
  foldl (fun d a => <[refi_from a := (d !!! refi_from a) ++ [a]]> d)
    ∅ alignments.

(** Lines 270-273: the pair yielded for order [o] and start [k]. *)
Definition ngram_tuple (ref_tok hyp_tok : list string)
    (ri_to_alignment : gmap nat (list Alignment)) (o k : nat)
    : result (list string * list string) :=
  let ngram := concat ((fun i => ri_to_alignment !!! i) <$> range k (k + o)) in
  first ← index (ngram !! 0%nat);
  final ← index (last ngram);
  let ref_ngram := slice ref_tok (refi_from first) (refi_from final + 1) in
  let hyp_ngram := slice hyp_tok (hypi_from first) (hypi_from final + 1) in
  Ok (hyp_ngram, ref_ngram).

(** The generator, run to exhaustion: the list of the pairs it yields,
    in the order it yields them. *)
Definition calc_aligned_ngram_tuples (ref_tok hyp_tok : list string)
    (order : nat) : result (list (list string * list string)) :=
  alignments ← padded_alignments ref_tok hyp_tok "|";
  let ri_to_alignment := group_by_refi_from alignments in
  if bool_decide (map_Forall (fun _ v => (0 < length v)%nat) ri_to_alignment)
  then
    for_each (range 1 (order + 1)) (fun o =>
      for_each (range 0 (length ref_tok - (o - 1))) (fun k yielded =>
        t ← ngram_tuple ref_tok hyp_tok ri_to_alignment o k;
        Ok (yielded ++ [t])))
      []
  else Raise AssertionError.

(** * Vocabulary of the proofs

    Nothing below is executed by the program: these are the predicates
    and closed forms in which its behaviour is stated. *)

(** ** Well-shaped matrices and total reads *)

(** [M] has [R + 1] rows of [N + 1] entries. *)
Definition shaped {A} (R N : nat) (M : matrix A) : Prop :=
  length M = S R ∧ Forall (fun row => length row = S N) M.

(** The matrix [mset] produces when the cell exists. *)
Definition mupd {A} (M : matrix A) (i j : nat) (v : A) : matrix A :=
  match M !! i with
  | Some row => <[i := <[j := v]> row]> M
  | None => M
  end.

(** Reads of cells known to exist. *)
Definition score_at (H : matrix Z) (i j : nat) : Z := default 0 (mget H i j).

Definition bp_at (bp : matrix (nat * nat)) (i j : nat) : nat * nat :=
  default (0%nat, 0%nat) (mget bp i j).

(** Row [i] of [M] exists, has [N + 1] entries and holds [f j] at [j]. *)
Definition row_is {A} (M : matrix A) (i : nat) (N : nat) (f : nat → A) : Prop :=
  ∃ row, M !! i = Some row ∧ length row = S N
         ∧ ∀ j, (j ≤ N)%nat → row !! j = Some (f j).

(** ** The matrices after initialisation *)

Definition H_init (full : bool) (N : nat) (ins : Z) (m n : nat) : Z :=
  if full then
    if decide (n = 0%nat) then 0
    else if decide (m = 0%nat) then Z.of_nat n * ins
    else - (Z.of_nat N + 2)
  else 0.

Definition bp_init (full : bool) (m n : nat) : nat * nat :=
  if full && bool_decide (m = 0%nat) && bool_decide (0 < n)%nat
  then (0%nat, (n - 1)%nat) else (0%nat, 0%nat).

(** ** The recurrence *)

(** The score and backpointer [fill_cell] leaves in cell [(m, n)], from
    the cell's initial content [h0], [b0], its three neighbours [d]
    (diagonal), [u] (up), [l] (left) and the similarity [s]. *)
Definition relax (full : bool) (del ins : Z) (m n : nat) (h0 : Z)
    (b0 : nat * nat) (d u l s : Z) : Z * (nat * nat) :=
  let c1 := if (if full then h0 <=? d + s else 0 <? d + s)
            then (d + s, ((m - 1)%nat, (n - 1)%nat)) else (h0, b0) in
  let c2 := if c1.1 <? u + del then (u + del, ((m - 1)%nat, n)) else c1 in
  if c2.1 <? l + ins then (l + ins, (m, (n - 1)%nat)) else c2.

(** [similarity_score_function(ref[m-1], hyp[n-1])] *)
Definition sim_at {T} (ref hyp : list T) (sim : T → T → Z) (m n : nat) : Z :=
  match ref !! (m - 1)%nat, hyp !! (n - 1)%nat with
  | Some r, Some h => sim r h
  | _, _ => 0
  end.

(** The cells the double loop visits, and the order it visits them in. *)
Definition interior (R N i j : nat) : Prop :=
  (1 ≤ i ≤ R)%nat ∧ (1 ≤ j ≤ N)%nat.

Definition before (i j m n : nat) : Prop :=
  (i < m)%nat ∨ (i = m ∧ j < n)%nat.

(** The cells that may become [max_score_element]. *)
Definition eligible (full : bool) (R N i j : nat) : Prop :=
  interior R N i j ∧ (full = true → j = N).

(** [mx] and [el] are the best eligible cell among those visited before
    [(m, n)], the last one in visiting order on ties. *)
Definition tracked (full : bool) (R N : nat) (H : matrix Z) (mx : score)
    (el : nat * nat) (m n : nat) : Prop :=
  match mx with
  | NegInf => el = (0%nat, 0%nat) ∧ ∀ i j, eligible full R N i j → ¬ before i j m n
  | Fin z =>
      eligible full R N el.1 el.2 ∧ before el.1 el.2 m n
      ∧ z = score_at H el.1 el.2
      ∧ ∀ i j, eligible full R N i j → before i j m n →
          score_at H i j ≤ z ∧ (before el.1 el.2 i j → score_at H i j < z)
  end.

(** Cell [(i, j)] of [H], [bp] obeys the recurrence over the initial
    matrices [H0], [bp0]. *)
Definition cell_ok {T} (ref hyp : list T) (sim : T → T → Z) (del ins : Z)
    (full : bool) (H0 : matrix Z) (bp0 : matrix (nat * nat))
    (H : matrix Z) (bp : matrix (nat * nat)) (i j : nat) : Prop :=
  (score_at H i j, bp_at bp i j) =
  relax full del ins i j (score_at H0 i j) (bp_at bp0 i j)
    (score_at H (i - 1) (j - 1)) (score_at H (i - 1) j) (score_at H i (j - 1))
    (sim_at ref hyp sim i j).

(** The invariant of the double loop when it is about to visit [(m, n)]. *)
Definition fill_inv {T} (ref hyp : list T) (sim : T → T → Z) (del ins : Z)
    (full : bool) (H0 : matrix Z) (bp0 : matrix (nat * nat))
    (st : fill_state) (m n : nat) : Prop :=
  shaped (length ref) (length hyp) (fs_H st)
  ∧ shaped (length ref) (length hyp) (fs_bp st)
  ∧ (∀ i j, (i ≤ length ref)%nat → (j ≤ length hyp)%nat →
       ¬ (interior (length ref) (length hyp) i j ∧ before i j m n) →
       score_at (fs_H st) i j = score_at H0 i j
       ∧ bp_at (fs_bp st) i j = bp_at bp0 i j)
  ∧ (∀ i j, interior (length ref) (length hyp) i j → before i j m n →
       cell_ok ref hyp sim del ins full H0 bp0 (fs_H st) (fs_bp st) i j)
  ∧ tracked full (length ref) (length hyp) (fs_H st) (fs_max_score st)
      (fs_max_score_element st) m n.

(** What the two matrix phases leave behind: the boundary as
    initialised, the recurrence inside, and the best eligible cell. *)
Definition filled {T} (ref hyp : list T) (sim : T → T → Z) (del ins : Z)
    (full : bool) (st : fill_state) : Prop :=
  let R := length ref in
  let N := length hyp in
  shaped R N (fs_H st) ∧ shaped R N (fs_bp st)
  ∧ (∀ m n, (m ≤ R)%nat → (n ≤ N)%nat → m = 0%nat ∨ n = 0%nat →
       score_at (fs_H st) m n = H_init full N ins m n
       ∧ bp_at (fs_bp st) m n = bp_init full m n)
  ∧ (∀ m n, interior R N m n →
       (score_at (fs_H st) m n, bp_at (fs_bp st) m n) =
       relax full del ins m n (H_init full N ins m n) (0%nat, 0%nat)
         (score_at (fs_H st) (m - 1) (n - 1)) (score_at (fs_H st) (m - 1) n)
         (score_at (fs_H st) m (n - 1)) (sim_at ref hyp sim m n))
  ∧ tracked full R N (fs_H st) (fs_max_score st) (fs_max_score_element st)
      (S R) 1.

(** ** Alignments as paths through the matrix *)

Definition cell_from {T} (r : AlignedPair T) : nat * nat :=
  (ref_word_from_index r, hyp_word_from_index r).

Definition cell_to {T} (r : AlignedPair T) : nat * nat :=
  (ref_word_to_index r, hyp_word_to_index r).

(** [chain P c l c']: the records of [l], each satisfying [P], lead from
    cell [c] to cell [c'], every record starting where the previous one
    ended. *)
Inductive chain {T} (P : AlignedPair T → Prop)
    : nat * nat → list (AlignedPair T) → nat * nat → Prop :=
  | chain_nil c : chain P c [] c
  | chain_cons r l c :
      P r → chain P (cell_to r) l c → chain P (cell_from r) (r :: l) c.

(** A record the traceback emits at a cell of a positive hypothesis
    index: it runs from the cell's backpointer to the cell, and on a
    diagonal step it carries the two tokens the step consumes. *)
Definition edge {T} (ref hyp : list T) (bp : matrix (nat * nat))
    (r : AlignedPair T) : Prop :=
  (0 < hyp_word_to_index r)%nat
  ∧ (ref_word_to_index r ≤ length ref)%nat
  ∧ (hyp_word_to_index r ≤ length hyp)%nat
  ∧ bp_at bp (ref_word_to_index r) (hyp_word_to_index r) = cell_from r
  ∧ (ref_word_from_index r ≤ ref_word_to_index r)%nat
  ∧ (hyp_word_from_index r ≤ hyp_word_to_index r)%nat
  ∧ ((ref_word_to_index r = ref_word_from_index r + 1)%nat →
     (hyp_word_to_index r = hyp_word_from_index r + 1)%nat →
     ref !! ref_word_from_index r = Some (ref_word r)
     ∧ hyp !! hyp_word_from_index r = Some (hyp_word r)).

(** A backpointer of cell [(m, n)]: the origin, or one of the three
    neighbours the recurrence reads. *)
Definition unit_or_origin (m n : nat) (p : nat * nat) : Prop :=
  p = (0%nat, 0%nat)
  ∨ (p.1 + 1 = m ∧ p.2 + 1 = n)%nat
  ∨ (p.1 + 1 = m ∧ p.2 = n)%nat
  ∨ (p.1 = m ∧ p.2 + 1 = n)%nat.

(** A record that advances by one diagonal, deletion or insertion step. *)
Definition unit_step {T} (r : AlignedPair T) : Prop :=
  (ref_word_to_index r = ref_word_from_index r + 1
   ∧ hyp_word_to_index r = hyp_word_from_index r + 1)%nat
  ∨ (ref_word_to_index r = ref_word_from_index r + 1
     ∧ hyp_word_to_index r = hyp_word_from_index r)%nat
  ∨ (ref_word_to_index r = ref_word_from_index r
     ∧ hyp_word_to_index r = hyp_word_from_index r + 1)%nat.

(** Record [r] covers hypothesis index [j]: it consumes the hypothesis
    token at [j] and no other, running from [j] to [j + 1] in the
    hypothesis. *)
Definition covers {T} (j : nat) (r : AlignedPair T) : Prop :=
  hyp_word_from_index r = j ∧ hyp_word_to_index r = S j.

Global Instance covers_dec {T} j (r : AlignedPair T) : Decision (covers j r) :=
  and_dec _ _.

Definition not_both_eps {T} (eps : T) (r : AlignedPair T) : Prop :=
  ¬ (ref_word r = eps ∧ hyp_word r = eps).

(** ** The consumers *)

(** The padding records for the reference positions [a .. b-1]. *)
Definition padding (ref_tok : list string) (eps : string) (h a b : nat)
    : list Alignment :=
  zip_with (fun i r => mkAlignment r eps i h None None)
    (range a b) (drop a ref_tok).

(** The records of [al] whose [refi_from] is [i], in order. *)
Definition bucket (al : list Alignment) (i : nat) : list Alignment :=
  filter (fun a => refi_from a = i) al.

(** The pair the extractor yields for order [o] and start [k]: the
    hypothesis slice between the hypothesis from-indices of the first
    record of bucket [k] and the last record of bucket [k + o - 1], and
    the reference window [ref_tok[k : k+o]]. *)
Definition aligned_window (ref_tok hyp_tok : list string) (al : list Alignment)
    (o k : nat) : list string * list string :=
  (match head (bucket al k), last (bucket al (k + o - 1)) with
   | Some first, Some final =>
       slice hyp_tok (hypi_from first) (hypi_from final + 1)
   | _, _ => []
   end,
   slice ref_tok k (k + o)).

(** The tokens the padded alignment holds at reference position [i]:
    the hypothesis tokens and the reference tokens of its records there,
    the sentinel left out. *)
Definition position_tokens (eps : string) (al : list Alignment) (i : nat)
    : list string * list string :=
  (filter (fun t => t ≠ eps) (hyp <$> bucket al i),
   filter (fun t => t ≠ eps) (ref <$> bucket al i)).

(** ** Records as steps of an alignment *)

(** The tokens the traceback puts in a record, read off its indices: a
    record written at a [break] or on a diagonal step carries the two
    tokens at its to-indices (the sentinel where the index is 0), a
    deletion the reference token and the sentinel, an insertion the
    sentinel and the hypothesis token. *)
Definition word_rule {T} (ref hyp : list T) (eps : T) (r : AlignedPair T) : Prop :=
  ((cell_from r = cell_to r ∨ cell_from r = (0%nat, 0%nat))
   ∧ word_at eps ref (ref_word_to_index r) = Some (ref_word r)
   ∧ word_at eps hyp (hyp_word_to_index r) = Some (hyp_word r))
  ∨ ((ref_word_to_index r = ref_word_from_index r + 1
      ∧ hyp_word_to_index r = hyp_word_from_index r + 1)%nat
     ∧ word_at eps ref (ref_word_to_index r) = Some (ref_word r)
     ∧ word_at eps hyp (hyp_word_to_index r) = Some (hyp_word r))
  ∨ ((ref_word_from_index r + 1 = ref_word_to_index r
      ∧ hyp_word_from_index r = hyp_word_to_index r)%nat
     ∧ word_at eps ref (ref_word_to_index r) = Some (ref_word r)
     ∧ hyp_word r = eps)
  ∨ ((ref_word_from_index r = ref_word_to_index r
      ∧ hyp_word_from_index r + 1 = hyp_word_to_index r)%nat
     ∧ ref_word r = eps
     ∧ word_at eps hyp (hyp_word_to_index r) = Some (hyp_word r)).

(** A record that consumes one reference token, one hypothesis token, or
    one of each, and carries the tokens it consumes: a match or
    substitution, a deletion, or an insertion. *)
Definition aligned_step {T} (ref hyp : list T) (eps : T) (r : AlignedPair T)
    : Prop :=
  ((ref_word_to_index r = ref_word_from_index r + 1
    ∧ hyp_word_to_index r = hyp_word_from_index r + 1)%nat
   ∧ ref !! ref_word_from_index r = Some (ref_word r)
   ∧ hyp !! hyp_word_from_index r = Some (hyp_word r))
  ∨ ((ref_word_to_index r = ref_word_from_index r + 1
      ∧ hyp_word_to_index r = hyp_word_from_index r)%nat
     ∧ ref !! ref_word_from_index r = Some (ref_word r)
     ∧ hyp_word r = eps)
  ∨ ((ref_word_to_index r = ref_word_from_index r
      ∧ hyp_word_to_index r = hyp_word_from_index r + 1)%nat
     ∧ ref_word r = eps
     ∧ hyp !! hyp_word_from_index r = Some (hyp_word r)).

(** The score a one-step record contributes: the similarity of its two
    tokens on a diagonal step, [del] on a deletion, [ins] on an
    insertion. *)
Definition step_score {T} (sim : T → T → Z) (del ins : Z) (r : AlignedPair T) : Z :=
  if bool_decide (ref_word_to_index r = ref_word_from_index r + 1)%nat then
    if bool_decide (hyp_word_to_index r = hyp_word_from_index r + 1)%nat
    then sim (ref_word r) (hyp_word r) else del
  else ins.

(** The score of a list of one-step records. *)
Definition path_score {T} (sim : T → T → Z) (del ins : Z)
    (l : list (AlignedPair T)) : Z :=
  foldr Z.add 0 (step_score sim del ins <$> l).

(** A one-step record that accounts for the score of the cell it ends
    in: the cell's score is the score of the cell it starts from plus
    the score of the step. *)
Definition scored_step {T} (ref hyp : list T) (sim : T → T → Z) (del ins : Z)
    (eps : T) (H : matrix Z) (r : AlignedPair T) : Prop :=
  aligned_step ref hyp eps r
  ∧ score_at H (ref_word_to_index r) (hyp_word_to_index r)
    = score_at H (ref_word_from_index r) (hyp_word_from_index r)
      + step_score sim del ins r.

(** Case analysis on the three comparisons of [relax], innermost first. *)
Ltac relax_cases :=
  unfold relax;
  repeat (match goal with
          | |- context [if ?b then _ else _] =>
              lazymatch b with
              | context [if _ then _ else _] => fail
              | _ => destruct b eqn:?
              end
          end; cbn [fst snd] in * );
  repeat (match goal with
          | E : (_ <=? _) = true |- _ => apply Z.leb_le in E
          | E : (_ <=? _) = false |- _ => apply Z.leb_gt in E
          | E : (_ <? _) = true |- _ => apply Z.ltb_lt in E
          | E : (_ <? _) = false |- _ => apply Z.ltb_ge in E
          end).

(** * Proofs

    ** Matrix reads and writes, and the loop rule *)

(** In a well-shaped matrix every row and every cell in range exists. *)
Lemma shaped_row {A} R N (M : matrix A) i :
  shaped R N M → (i ≤ R)%nat → ∃ row, M !! i = Some row ∧ length row = S N.
Proof.
  intros [Hlen Hrows] Hi.
  destruct (lookup_lt_is_Some_2 M i) as [row Hrow]; [lia|].
  exists row. split; [done|].
  by eapply (Forall_lookup_1 _ _ _ _ Hrows).
Qed.

Lemma mget_shaped {A} R N (M : matrix A) i j :
  shaped R N M → (i ≤ R)%nat → (j ≤ N)%nat → is_Some (mget M i j).
Proof.
  intros HM Hi Hj. destruct (shaped_row R N M i HM Hi) as (row & Hrow & Hlen).
  unfold mget. rewrite Hrow. apply lookup_lt_is_Some_2. lia.
Qed.

Lemma mget_score_at R N H i j :
  shaped R N H → (i ≤ R)%nat → (j ≤ N)%nat → mget H i j = Some (score_at H i j).
Proof.
  intros HM Hi Hj. unfold score_at.
  by destruct (mget_shaped R N H i j HM Hi Hj) as [v ->].
Qed.

Lemma mget_bp_at R N bp i j :
  shaped R N bp → (i ≤ R)%nat → (j ≤ N)%nat → mget bp i j = Some (bp_at bp i j).
Proof.
  intros HM Hi Hj. unfold bp_at.
  by destruct (mget_shaped R N bp i j HM Hi Hj) as [v ->].
Qed.

(** A write to a cell in range succeeds, keeps the shape, and changes
    that cell only. *)
Lemma mset_shaped {A} R N (M : matrix A) i j v :
  shaped R N M → (i ≤ R)%nat → (j ≤ N)%nat → mset M i j v = Some (mupd M i j v).
Proof.
  intros HM Hi Hj. destruct (shaped_row R N M i HM Hi) as (row & Hrow & Hlen).
  unfold mset, mupd. rewrite Hrow. case_decide; [done|lia].
Qed.

Lemma shaped_mupd {A} R N (M : matrix A) i j v :
  shaped R N M → shaped R N (mupd M i j v).
Proof.
  intros [Hlen Hrows]. unfold mupd.
  destruct (M !! i) as [row|] eqn:Hrow; [|done].
  split; [by rewrite length_insert|].
  apply Forall_insert; [done|].
  rewrite length_insert. by eapply (Forall_lookup_1 _ _ _ _ Hrows).
Qed.

Lemma mget_mupd_eq {A} R N (M : matrix A) i j v :
  shaped R N M → (i ≤ R)%nat → (j ≤ N)%nat → mget (mupd M i j v) i j = Some v.
Proof.
  intros HM Hi Hj. destruct (shaped_row R N M i HM Hi) as (row & Hrow & Hlen).
  unfold mget, mupd. rewrite Hrow.
  rewrite list_lookup_insert_eq; [|by eapply lookup_lt_Some].
  apply list_lookup_insert_eq. lia.
Qed.

Lemma mget_mupd_ne {A} (M : matrix A) i j v i' j' :
  (i', j') ≠ (i, j) → mget (mupd M i j v) i' j' = mget M i' j'.
Proof.
  intros Hne. unfold mget, mupd.
  destruct (M !! i) as [row|] eqn:Hrow; [|done].
  destruct (decide (i' = i)) as [->|Hi].
  - rewrite list_lookup_insert_eq; [|by eapply lookup_lt_Some].
    rewrite Hrow. apply list_lookup_insert_ne. congruence.
  - by rewrite list_lookup_insert_ne.
Qed.

Lemma score_at_mupd_eq R N H i j v :
  shaped R N H → (i ≤ R)%nat → (j ≤ N)%nat → score_at (mupd H i j v) i j = v.
Proof. intros. unfold score_at. by erewrite mget_mupd_eq. Qed.

Lemma score_at_mupd_ne H i j v i' j' :
  (i', j') ≠ (i, j) → score_at (mupd H i j v) i' j' = score_at H i' j'.
Proof. intros. unfold score_at. by rewrite mget_mupd_ne. Qed.

Lemma bp_at_mupd_eq R N bp i j v :
  shaped R N bp → (i ≤ R)%nat → (j ≤ N)%nat → bp_at (mupd bp i j v) i j = v.
Proof. intros. unfold bp_at. by erewrite mget_mupd_eq. Qed.

Lemma bp_at_mupd_ne bp i j v i' j' :
  (i', j') ≠ (i, j) → bp_at (mupd bp i j v) i' j' = bp_at bp i' j'.
Proof. intros. unfold bp_at. by rewrite mget_mupd_ne. Qed.

(** Loop rule. *)
Lemma for_each_inv {S X} (I : nat → S → Prop) (xs : list X)
    (body : X → S → result S) (s : S) :
  I 0%nat s →
  (∀ i x s, xs !! i = Some x → I i s →
     ∃ s', body x s = Ok s' ∧ I (Datatypes.S i) s') →
  ∃ s', for_each xs body s = Ok s' ∧ I (length xs) s'.
Proof.
  revert I s. induction xs as [|x xs IH]; intros I s H0 Hstep.
  - by exists s.
  - destruct (Hstep 0%nat x s eq_refl H0) as (s1 & Hb & H1).
    destruct (IH (fun i => I (Datatypes.S i)) s1 H1) as (s' & Hs' & HI).
    { intros i y t Hy Ht. by apply (Hstep (Datatypes.S i)). }
    exists s'. split; [|done]. simpl. by rewrite Hb.
Qed.

Lemma range_lookup a b i x :
  range a b !! i = Some x → x = (a + i)%nat ∧ (a + i < b)%nat.
Proof.
  unfold range. intros H. apply lookup_seq in H. lia.
Qed.

Lemma range_length a b : length (range a b) = (b - a)%nat.
Proof. apply length_seq. Qed.

(** ** Initialisation (lines 46-71) *)

Lemma row_is_ext {A} (M : matrix A) i N f g :
  (∀ j, (j ≤ N)%nat → f j = g j) → row_is M i N f → row_is M i N g.
Proof.
  intros Hfg (row & Hrow & Hlen & Hf). exists row. split_and!; [done..|].
  intros j Hj. rewrite <- Hfg by done. by apply Hf.
Qed.

Lemma row_is_mget {A} (M : matrix A) i N f j :
  row_is M i N f → (j ≤ N)%nat → mget M i j = Some (f j).
Proof. intros (row & Hrow & Hlen & Hf) Hj. unfold mget. rewrite Hrow. by apply Hf. Qed.

Lemma row_is_rowset {A} (M : matrix A) i N (v : A) :
  (i < length M)%nat →
  rowset M i (replicate (N + 1) v) = Some (<[i := replicate (N + 1) v]> M)
  ∧ row_is (<[i := replicate (N + 1) v]> M) i N (fun _ => v).
Proof.
  intros Hi. unfold rowset. case_decide; [|lia]. split; [done|].
  exists (replicate (N + 1) v). rewrite list_lookup_insert_eq by done.
  split_and!; [done|rewrite length_replicate; lia|].
  intros j Hj. apply lookup_replicate_2. lia.
Qed.

Lemma row_is_mset {A} (M : matrix A) i N f j (v : A) :
  row_is M i N f → (j ≤ N)%nat →
  ∃ M', mset M i j v = Some M' ∧ length M' = length M
        ∧ row_is M' i N (fun c => if decide (c = j) then v else f c)
        ∧ ∀ i', i' ≠ i → M' !! i' = M !! i'.
Proof.
  intros (row & Hrow & Hlen & Hf) Hj.
  exists (<[i := <[j := v]> row]> M). unfold mset. rewrite Hrow.
  case_decide; [|lia]. split_and!; [done|by rewrite length_insert| |].
  - exists (<[j := v]> row).
    rewrite list_lookup_insert_eq by (by eapply lookup_lt_Some).
    split_and!; [done|by rewrite length_insert|].
    intros c Hc. case_decide as Hcj.
    + subst c. apply list_lookup_insert_eq. lia.
    + rewrite list_lookup_insert_ne by done. by apply Hf.
  - intros i' Hi'. by rewrite list_lookup_insert_ne.
Qed.

Lemma row_is_other {A} (M M' : matrix A) i N f :
  M' !! i = M !! i → row_is M i N f → row_is M' i N f.
Proof. intros Heq (row & Hrow & H). exists row. by rewrite Heq. Qed.

Section Init.
Context {T : Type}.
Variables (ref hyp : list T) (ins_score : Z).

Let R := length ref.
Let N := length hyp.

(** The loop of line 65 turns the fresh top row into the insertion row. *)
Lemma init_top_row_spec H bp :
  row_is H 0 N (fun j => if decide (j = 0%nat) then 0 else - (Z.of_nat N + 2)) →
  row_is bp 0 N (fun _ => (0%nat, 0%nat)) →
  ∃ H' bp', init_top_row hyp ins_score 0 (H, bp) = Ok (H', bp')
    ∧ length H' = length H ∧ length bp' = length bp
    ∧ row_is H' 0 N (H_init true N ins_score 0)
    ∧ row_is bp' 0 N (bp_init true 0).
Proof.
  intros HH Hbp. unfold init_top_row.
  destruct (for_each_inv
    (fun k '(H', bp') =>
       length H' = length H ∧ length bp' = length bp
       ∧ row_is H' 0 N (fun j => if decide (j ≤ k)%nat then Z.of_nat j * ins_score
                                 else - (Z.of_nat N + 2))
       ∧ row_is bp' 0 N (fun j => if decide (j ≤ k)%nat then bp_init true 0 j
                                  else (0%nat, 0%nat)))
    (range 1 (length hyp + 1))
    (fun hyp_index '(H, bp) =>
       left ← index (mget H 0 (hyp_index - 1));
       H ← index (mset H 0 hyp_index (left + ins_score));
       bp ← index (mset bp 0 hyp_index (0%nat, (hyp_index - 1)%nat));
       Ok (H, bp))
    (H, bp)) as ([H' bp'] & Hrun & HlenH & Hlenbp & HH' & Hbp').
  - split_and!; [done..| |].
    + eapply row_is_ext; [|exact HH]. intros j Hj. simpl.
      repeat case_decide; first [lia | done | (subst; lia)].
    + eapply row_is_ext; [|exact Hbp]. intros j Hj. simpl.
      case_decide; [|done]. assert (j = 0%nat) as -> by lia. done.
  - intros k x [H1 bp1] Hx (HlenH & Hlenbp & HH1 & Hbp1).
    apply range_lookup in Hx as [-> Hk]. fold N in Hk.
    replace (1 + k - 1)%nat with k by lia.
    rewrite (row_is_mget _ _ _ _ k HH1) by lia.
    rewrite decide_True by lia.
    destruct (row_is_mset H1 0 N _ (1 + k) (Z.of_nat k * ins_score + ins_score) HH1)
      as (H2 & E1 & HlenH2 & HH2 & _); [lia|].
    destruct (row_is_mset bp1 0 N _ (1 + k) (0%nat, k) Hbp1)
      as (bp2 & E2 & Hlenbp2 & Hbp2 & _); [lia|].
    cbn [index mbind result_bind]. rewrite E1. cbn [index mbind result_bind].
    rewrite E2. cbn [index mbind result_bind].
    eexists (_, _). split; [done|]. split_and!; [congruence..| |].
    + eapply row_is_ext; [|exact HH2]. intros j Hj. simpl.
      repeat case_decide; first [lia | done | (subst; lia)].
    + eapply row_is_ext; [|exact Hbp2]. intros j Hj. simpl.
      repeat case_decide; try lia; try done. subst j. unfold bp_init. simpl.
      f_equal. lia.
  - exists H', bp'. rewrite range_length in HH', Hbp'.
    split_and!; [done..| |].
    + eapply row_is_ext; [|exact HH']. intros j Hj. simpl. unfold H_init.
      fold N. repeat case_decide; first [lia | done | (subst; lia)].
    + eapply row_is_ext; [|exact Hbp']. intros j Hj. simpl. fold N.
      case_decide; [done|lia].
Qed.

Variable full : bool.

(** One iteration of the loop of line 56 installs row [k] and leaves the
    other rows alone. *)
Lemma init_row_spec k H bp :
  length H = S R → length bp = S R → (k ≤ R)%nat →
  ∃ H' bp', init_row hyp ins_score full k (H, bp) = Ok (H', bp')
    ∧ length H' = S R ∧ length bp' = S R
    ∧ row_is H' k N (H_init full N ins_score k)
    ∧ row_is bp' k N (bp_init full k)
    ∧ ∀ i, i ≠ k → (k ≠ 0)%nat → H' !! i = H !! i ∧ bp' !! i = bp !! i.
Proof.
  intros HlenH Hlenbp Hk. unfold init_row.
  destruct (row_is_rowset bp k N (0%nat, 0%nat)) as [Hbset Hbrow]; [lia|].
  fold N. destruct full.
  - destruct (row_is_rowset H k N (- (Z.of_nat N + 2))) as [-> Hrow]; [lia|].
    simpl.
    destruct (row_is_mset _ k N _ 0 0 Hrow) as (H1 & -> & HlenH1 & HH1 & Hoth);
      [lia|]. simpl.
    rewrite Hbset. simpl.
    rewrite length_insert in HlenH1.
    case_bool_decide as Hk0.
    + subst k.
      destruct (init_top_row_spec H1 (<[0%nat:=replicate (N + 1) (0%nat, 0%nat)]> bp))
        as (H' & bp' & Hrun & HlenH' & Hlenbp' & HH' & Hbp'); [done..|].
      exists H', bp'.
      rewrite length_insert in Hlenbp'.
      split_and!; [done|congruence|congruence|done|done|]. intros; lia.
    + exists H1, (<[k:=replicate (N + 1) (0%nat, 0%nat)]> bp).
      split_and!; [done|congruence|by rewrite length_insert| | |].
      * eapply row_is_ext; [|exact HH1]. intros j Hj. simpl. unfold H_init.
        repeat case_decide; first [lia | done | (subst; lia)].
      * eapply row_is_ext; [|exact Hbrow]. intros j Hj. simpl. unfold bp_init.
        rewrite (bool_decide_false (k = 0%nat)) by done. done.
      * intros i Hi _. rewrite Hoth by done.
        by rewrite !list_lookup_insert_ne.
  - destruct (row_is_rowset H k N 0) as [-> Hrow]; [lia|].
    simpl. rewrite Hbset. simpl.
    exists (<[k:=replicate (N + 1) 0]> H), (<[k:=replicate (N + 1) (0%nat, 0%nat)]> bp).
    split_and!; [done|by rewrite length_insert..|done|done|].
    intros i Hi _. by rewrite !list_lookup_insert_ne.
Qed.

(** The initialisation raises nothing and produces well-shaped matrices
    whose cells are given by [H_init] and [bp_init]. *)
Lemma init_matrices_spec :
  ∃ H bp, init_matrices ref hyp ins_score full = Ok (H, bp)
    ∧ shaped R N H ∧ shaped R N bp
    ∧ ∀ m n, (m ≤ R)%nat → (n ≤ N)%nat →
        score_at H m n = H_init full N ins_score m n
        ∧ bp_at bp m n = bp_init full m n.
Proof.
  unfold init_matrices.
  destruct (for_each_inv
    (fun k '(H, bp) =>
       length H = S R ∧ length bp = S R
       ∧ ∀ i, (i < k)%nat →
           row_is H i N (H_init full N ins_score i) ∧ row_is bp i N (bp_init full i))
    (range 0 (length ref + 1)) (init_row hyp ins_score full)
    (replicate (length ref + 1) [], replicate (length ref + 1) []))
    as ([H bp] & Hrun & HlenH & Hlenbp & Hrows).
  - split_and!; [rewrite length_replicate; unfold R; lia..|]. intros; lia.
  - intros k x [H1 bp1] Hx (HlenH & Hlenbp & Hrows).
    apply range_lookup in Hx as [-> Hk]. fold R in Hk.
    change (0 + k)%nat with k.
    destruct (init_row_spec k H1 bp1) as (H' & bp' & -> & ? & ? & HH' & Hbp' & Hoth);
      [done|done|lia|].
    eexists (_, _). split; [done|]. split_and!; [done..|].
    intros i Hi. destruct (decide (i = k)) as [->|Hik]; [done|].
    destruct (Hoth i) as [E1 E2]; [done|lia|].
    destruct (Hrows i) as [? ?]; [lia|].
    split; eapply row_is_other; eauto.
  - rewrite range_length in Hrows. exists H, bp. split; [done|].
    assert (shaped R N H ∧ shaped R N bp) as [HsH Hsbp].
    { split; (split; [done|]); apply Forall_lookup_2; intros i row Hrow;
        pose proof (lookup_lt_Some _ _ _ Hrow) as Hlt;
        destruct (Hrows i) as [(r1 & E1 & L1 & _) (r2 & E2 & L2 & _)];
        try (fold R; lia); congruence. }
    split_and!; [done..|]. intros m n Hm Hn.
    destruct (Hrows m) as [H1 H2]; [fold R; lia|].
    unfold score_at, bp_at.
    by rewrite (row_is_mget _ _ _ _ n H1), (row_is_mget _ _ _ _ n H2).
Qed.

End Init.

(** ** The double loop (lines 76-113) *)

Section Fill.
Context {T : Type}.
Variables (ref hyp : list T) (sim : T → T → Z) (del ins : Z) (full : bool).
Variables (H0 : matrix Z) (bp0 : matrix (nat * nat)).

Let R := length ref.
Let N := length hyp.

(** One of the three conditional updates of a cell. *)
Lemma relax_step H bp m n (c : bool) v b :
  shaped R N H → shaped R N bp → (m ≤ R)%nat → (n ≤ N)%nat →
  ∃ H' bp',
    (if c then
       H ← index (mset H m n v); bp ← index (mset bp m n b); Ok (H, bp)
     else Ok (H, bp)) = Ok (H', bp')
    ∧ shaped R N H' ∧ shaped R N bp'
    ∧ score_at H' m n = (if c then v else score_at H m n)
    ∧ bp_at bp' m n = (if c then b else bp_at bp m n)
    ∧ ∀ i j, (i, j) ≠ (m, n) →
        score_at H' i j = score_at H i j ∧ bp_at bp' i j = bp_at bp i j.
Proof.
  intros HH Hbp Hm Hn. destruct c.
  - exists (mupd H m n v), (mupd bp m n b).
    rewrite (mset_shaped R N H) by done. cbn [index mbind result_bind].
    rewrite (mset_shaped R N bp) by done. cbn [index mbind result_bind].
    split_and!; [done|by apply shaped_mupd..| | |].
    + by eapply score_at_mupd_eq.
    + by eapply bp_at_mupd_eq.
    + intros i j Hij. by rewrite score_at_mupd_ne, bp_at_mupd_ne.
  - exists H, bp. done.
Qed.

(** The body of the double loop at an interior cell: it raises nothing,
    writes [relax] of the neighbours into the cell, touches no other
    cell, and records the cell as the best one when it is eligible and
    at least as good as the best so far. *)
Lemma fill_cell_spec H bp mx el m n :
  shaped R N H → shaped R N bp → interior R N m n →
  let c := relax full del ins m n (score_at H m n) (bp_at bp m n)
             (score_at H (m - 1) (n - 1)) (score_at H (m - 1) n)
             (score_at H m (n - 1)) (sim_at ref hyp sim m n) in
  ∃ H' bp',
    fill_cell ref hyp sim del ins full m n (mkFill H bp mx el)
    = Ok (if (negb full || bool_decide (n = N)) && score_le_int mx c.1
          then mkFill H' bp' (Fin c.1) (m, n) else mkFill H' bp' mx el)
    ∧ shaped R N H' ∧ shaped R N bp'
    ∧ score_at H' m n = c.1 ∧ bp_at bp' m n = c.2
    ∧ ∀ i j, (i, j) ≠ (m, n) →
        score_at H' i j = score_at H i j ∧ bp_at bp' i j = bp_at bp i j.
Proof.
  intros HH Hbp [Hm Hn] c. unfold fill_cell.
  rewrite (mget_score_at R N H (m - 1) (n - 1)) by (done || lia).
  cbn [index mbind result_bind].
  destruct (lookup_lt_is_Some_2 ref (m - 1)) as [r Hr]; [fold R; lia|].
  destruct (lookup_lt_is_Some_2 hyp (n - 1)) as [h Hh]; [fold N; lia|].
  rewrite Hr, Hh. cbn [index mbind result_bind].
  assert (sim_at ref hyp sim m n = sim r h) as Hsim
    by (unfold sim_at; by rewrite Hr, Hh).
  set (d := score_at H (m - 1) (n - 1)) in *.
  set (acc := if full then score_at H m n <=? d + sim r h else 0 <? d + sim r h).
  assert ((if full then
             cur ← index (mget H m n); Ok (cur <=? d + sim r h)
           else Ok (0 <? d + sim r h)) = Ok acc) as ->.
  { unfold acc. destruct full; [|done].
    by rewrite (mget_score_at R N H m n) by (done || lia). }
  cbn [index mbind result_bind].
  destruct (relax_step H bp m n acc (d + sim r h) ((m - 1)%nat, (n - 1)%nat))
    as (H1 & bp1 & -> & HH1 & Hbp1 & Hv1 & Hb1 & Ho1); [done|done|lia|lia|].
  cbn [index mbind result_bind].
  rewrite (mget_score_at R N H1 (m - 1) n) by (done || lia).
  rewrite (mget_score_at R N H1 m n) by (done || lia).
  cbn [index mbind result_bind].
  destruct (relax_step H1 bp1 m n (score_at H1 m n <? score_at H1 (m - 1) n + del)
              (score_at H1 (m - 1) n + del) ((m - 1)%nat, n))
    as (H2 & bp2 & -> & HH2 & Hbp2 & Hv2 & Hb2 & Ho2); [done|done|lia|lia|].
  cbn [index mbind result_bind].
  rewrite (mget_score_at R N H2 m (n - 1)) by (done || lia).
  rewrite (mget_score_at R N H2 m n) by (done || lia).
  cbn [index mbind result_bind].
  destruct (relax_step H2 bp2 m n (score_at H2 m n <? score_at H2 m (n - 1) + ins)
              (score_at H2 m (n - 1) + ins) (m, (n - 1)%nat))
    as (H3 & bp3 & -> & HH3 & Hbp3 & Hv3 & Hb3 & Ho3); [done|done|lia|lia|].
  cbn [index mbind result_bind].
  assert (score_at H1 (m - 1) n = score_at H (m - 1) n) as E1
    by (apply Ho1; intros [=]; lia).
  assert (score_at H2 m (n - 1) = score_at H m (n - 1)) as E2.
  { destruct (Ho2 m (n - 1)%nat) as [-> _]; [intros [=]; lia|].
    apply Ho1. intros [=]; lia. }
  assert (score_at H3 m n = c.1 ∧ bp_at bp3 m n = c.2) as [Hc1 Hc2].
  { rewrite Hv3, Hb3, Hv2, Hb2, Hv1, Hb1, E2, E1.
    unfold c, relax. rewrite Hsim. fold d. fold acc.
    destruct acc; simpl;
      repeat (match goal with |- context [if ?b then _ else _] =>
                destruct b eqn:? end; simpl in *); try done; try lia. }
  exists H3, bp3. split_and!; [|done..|].
  - rewrite (mget_score_at R N H3 m n) by (done || lia). rewrite Hc1.
    cbn [index mbind result_bind]. fold N.
    destruct (negb full || bool_decide (n = N)); simpl; [|done].
    by destruct (score_le_int mx c.1).
  - intros i j Hij. destruct (Ho3 i j Hij) as [-> ->].
    destruct (Ho2 i j Hij) as [-> ->]. by apply Ho1.
Qed.

Lemma before_S i j m n :
  before i j m (S n) ↔ before i j m n ∨ (i = m ∧ j = n).
Proof. unfold before. lia. Qed.

(** The body preserves the invariant, from one cell to the next. *)
Lemma fill_inv_step st m n :
  fill_inv ref hyp sim del ins full H0 bp0 st m n → interior R N m n →
  ∃ st', fill_cell ref hyp sim del ins full m n st = Ok st'
         ∧ fill_inv ref hyp sim del ins full H0 bp0 st' m (S n).
Proof.
  destruct st as [H bp mx el].
  intros (HH & Hbp & Hsame & Hdone & Htr) Hmn. simpl in *.
  destruct (fill_cell_spec H bp mx el m n HH Hbp Hmn)
    as (H' & bp' & Hrun & HH' & Hbp' & Hv & Hb & Hoth).
  destruct (Hsame m n) as [Ev Eb];
    [destruct Hmn; lia|destruct Hmn; lia|unfold before; lia|].
  rewrite Ev, Eb in Hv, Hb, Hrun.
  set (c := relax full del ins m n (score_at H0 m n) (bp_at bp0 m n)
              (score_at H (m - 1) (n - 1)) (score_at H (m - 1) n)
              (score_at H m (n - 1)) (sim_at ref hyp sim m n)) in *.
  assert (∀ i j, (i, j) ≠ (m, n) → score_at H' i j = score_at H i j) as Hov
    by (intros i j Hij; by apply Hoth).
  assert (∀ i j, (i, j) ≠ (m, n) → bp_at bp' i j = bp_at bp i j) as Hob
    by (intros i j Hij; by apply Hoth).
  eexists. split; [exact Hrun|].
  assert (shaped R N H' ∧ shaped R N bp'
    ∧ (∀ i j, (i ≤ R)%nat → (j ≤ N)%nat →
         ¬ (interior R N i j ∧ before i j m (S n)) →
         score_at H' i j = score_at H0 i j ∧ bp_at bp' i j = bp_at bp0 i j)
    ∧ (∀ i j, interior R N i j → before i j m (S n) →
         cell_ok ref hyp sim del ins full H0 bp0 H' bp' i j))
    as (? & ? & Hsame' & Hdone').
  { split_and!; [done..| |].
    - intros i j Hi Hj Hnot.
      assert ((i, j) ≠ (m, n)) as Hij.
      { intros [= -> ->]. apply Hnot. split; [done|]. unfold before. lia. }
      rewrite Hov, Hob by done. apply Hsame; [done..|].
      intros [? ?]. apply Hnot. split; [done|]. unfold before in *. lia.
    - intros i j Hij Hbef. apply before_S in Hbef as [Hbef|[-> ->]].
      + specialize (Hdone i j Hij Hbef). unfold cell_ok in *.
        destruct Hij as [? ?]. unfold before in Hbef.
        rewrite (Hov i j), (Hob i j) by (intros [=]; lia).
        rewrite (Hov (i - 1)%nat (j - 1)%nat) by (intros [=]; lia).
        rewrite (Hov (i - 1)%nat j) by (intros [=]; lia).
        rewrite (Hov i (j - 1)%nat) by (intros [=]; lia).
        exact Hdone.
      + unfold cell_ok. destruct Hij as [? ?].
        rewrite Hv, Hb.
        rewrite (Hov (m - 1)%nat (n - 1)%nat) by (intros [=]; lia).
        rewrite (Hov (m - 1)%nat n) by (intros [=]; lia).
        rewrite (Hov m (n - 1)%nat) by (intros [=]; lia).
        symmetry. apply surjective_pairing. }
  destruct ((negb full || bool_decide (n = N)) && score_le_int mx c.1) eqn:Hupd;
    (split_and!; [done..|]); simpl.
  - apply andb_true_iff in Hupd as [Hel Hle]. split_and!.
    + split; [done|]. intros ->. simpl in Hel. by apply bool_decide_eq_true in Hel.
    + unfold before. lia.
    + done.
    + intros i j Helig Hbef. apply before_S in Hbef as [Hbef|[-> ->]].
      * rewrite Hov by (intros [= -> ->]; unfold before in Hbef; lia).
        destruct mx as [|z]; simpl in Htr.
        -- destruct Htr as [_ Hno]. by destruct (Hno i j).
        -- destruct Htr as (_ & _ & _ & Hall). simpl in Hle.
           destruct (Hall i j Helig Hbef) as [Hlez _].
           split; [lia|]. unfold before in *. lia.
      * rewrite Hv. split; [lia|]. unfold before. lia.
  - apply andb_false_iff in Hupd.
    destruct mx as [|z]; simpl in Htr |- *.
    + destruct Htr as [-> Hno]. split; [done|].
      intros i j Helig Hbef. apply before_S in Hbef as [Hbef|[-> ->]].
      * by apply (Hno i j).
      * destruct Hupd as [Hupd|Hupd]; [|done].
        destruct Helig as [_ HN]. destruct full; [|done].
        simpl in Hupd. rewrite HN in Hupd by done.
        by rewrite bool_decide_true in Hupd.
    + destruct Htr as (Hel & Hbel & Hz & Hall).
      assert ((el.1, el.2) ≠ (m, n)) as Hne
        by (intros [= E1 E2]; unfold before in Hbel; lia).
      split_and!; [done|unfold before in *; lia|by rewrite Hov| ].
      intros i j Helig Hbef. apply before_S in Hbef as [Hbef|[-> ->]].
      * rewrite Hov by (intros [= -> ->]; unfold before in Hbef; lia).
        by apply Hall.
      * rewrite Hv. destruct Hupd as [Hupd|Hupd].
        -- destruct Helig as [_ HN]. destruct full; [|done].
           simpl in Hupd. rewrite HN in Hupd by done.
           by rewrite bool_decide_true in Hupd.
        -- simpl in Hupd. lia.
Qed.

Lemma fill_row_spec st m :
  fill_inv ref hyp sim del ins full H0 bp0 st m 1 → (1 ≤ m ≤ R)%nat →
  ∃ st', fill_row ref hyp sim del ins full m st = Ok st'
         ∧ fill_inv ref hyp sim del ins full H0 bp0 st' (S m) 1.
Proof.
  intros Hinv Hm. unfold fill_row.
  destruct (for_each_inv (fun k st => fill_inv ref hyp sim del ins full H0 bp0 st m (S k))
              (range 1 (length hyp + 1))
              (fill_cell ref hyp sim del ins full m) st Hinv)
    as (st' & Hrun & Hinv').
  - intros k x s Hx Hs. apply range_lookup in Hx as [-> Hk]. fold N in Hk.
    apply fill_inv_step; [done|]. unfold interior. lia.
  - exists st'. split; [done|]. rewrite range_length in Hinv'. fold N in Hinv'.
    replace (S (N + 1 - 1)) with (S N) in Hinv' by lia.
    destruct Hinv' as (? & ? & Hsame & Hdone & Htr).
    assert (∀ i j, interior R N i j → before i j m (S N) ↔ before i j (S m) 1)
      as Hbef by (intros i j [? ?]; unfold before; lia).
    split_and!; [done..| | |].
    + intros i j Hi Hj Hnot. apply Hsame; [done..|].
      intros [Hint ?]. apply Hnot. split; [done|]. by apply Hbef.
    + intros i j Hint ?. apply Hdone; [done|]. by apply Hbef.
    + unfold tracked in *. destruct (fs_max_score st') as [|z].
      * destruct Htr as [? Hno]. split; [done|].
        intros i j [Hint ?] ?. apply (Hno i j); [done|]. by apply Hbef.
      * destruct Htr as ([Hint ?] & ? & ? & Hall).
        split_and!; [done|by apply Hbef|done|].
        intros i j [Hint' ?] ?. apply Hall; [done|]. by apply Hbef.
Qed.

(** The double loop raises nothing and establishes the invariant for all
    the cells. *)
Lemma fill_spec :
  shaped R N H0 → shaped R N bp0 →
  ∃ st, fill ref hyp sim del ins full (mkFill H0 bp0 NegInf (0%nat, 0%nat)) = Ok st
        ∧ fill_inv ref hyp sim del ins full H0 bp0 st (S R) 1.
Proof.
  intros HH Hbp. unfold fill.
  destruct (for_each_inv (fun k st => fill_inv ref hyp sim del ins full H0 bp0 st (S k) 1)
              (range 1 (length ref + 1))
              (fill_row ref hyp sim del ins full)
              (mkFill H0 bp0 NegInf (0%nat, 0%nat)))
    as (st' & Hrun & Hinv').
  - split_and!; [done..| | |]; simpl.
    + done.
    + intros i j [? ?] Hb. unfold before in Hb. lia.
    + split; [done|]. intros i j [[? ?] _] Hb. unfold before in Hb. lia.
  - intros k x s Hx Hs. apply range_lookup in Hx as [-> Hk]. fold R in Hk.
    apply fill_row_spec; [done|lia].
  - exists st'. split; [done|]. rewrite range_length in Hinv'. fold R in Hinv'.
    by replace (S (R + 1 - 1)) with (S R) in Hinv' by lia.
Qed.

End Fill.

(** ** One pass of the traceback loop (lines 120-168) *)

Lemma chain_snoc {T} (P : AlignedPair T → Prop) c l r :
  chain P c l (cell_from r) → P r → chain P c (l ++ [r]) (cell_to r).
Proof.
  intros Hc Hr. remember (cell_from r) as c' eqn:E.
  induction Hc as [c|r' l c' HP Hc IH]; subst; simpl.
  - apply chain_cons; [done|constructor].
  - apply chain_cons; [done|]. by apply IH.
Qed.

(** The token read for a slot, at an index in range. *)
Lemma word_at_Some {T} (eps : T) (l : list T) i :
  (i ≤ length l)%nat → ∃ w, word_at eps l i = Some w
    ∧ ((0 < i)%nat → l !! (i - 1)%nat = Some w) ∧ (i = 0%nat → w = eps).
Proof.
  intros Hi. unfold word_at. case_decide.
  - destruct (lookup_lt_is_Some_2 l (i - 1)) as [w Hw]; [lia|].
    exists w. split_and!; [done|done|lia].
  - exists eps. split_and!; [done|lia|done].
Qed.

Section Traceback.
Context {T : Type}.
Variables (ref hyp : list T) (eps : T) (full : bool).
Variables (H : matrix Z) (bp : matrix (nat * nat)).

Let R := length ref.
Let N := length hyp.

(** What the [try] block does in each of its cases. *)
Lemma tb_try_origin m n out s rw hw s0 :
  mget H m n = Some s → s ≠ 0 →
  word_at eps ref m = Some rw → word_at eps hyp n = Some hw →
  mget H 0 0 = Some s0 →
  tb_try ref hyp eps H m n out 0 0
  = Some (false, mkTb 0 0 (Fin s0) (out ++ [mkAlignedPair rw hw 0 0 m n])
                   (Some (0%nat, 0%nat))).
Proof.
  intros Hs Hne Hrw Hhw Hs0. unfold tb_try.
  rewrite (bool_decide_true ((0%nat, 0%nat) = (0%nat, 0%nat))) by done.
  rewrite orb_true_r. rewrite Hs. cbn [mbind option_bind].
  rewrite bool_decide_true by done. rewrite Hrw, Hhw. cbn [mbind option_bind].
  by rewrite Hs0.
Qed.

Lemma tb_try_origin_zero m n out :
  mget H m n = Some 0 →
  tb_try ref hyp eps H m n out 0 0
  = Some (false, mkTb m n (Fin 0) out (Some (0%nat, 0%nat))).
Proof.
  intros Hs. unfold tb_try.
  rewrite (bool_decide_true ((0%nat, 0%nat) = (0%nat, 0%nat))) by done.
  rewrite orb_true_r. rewrite Hs. cbn [mbind option_bind].
  by rewrite bool_decide_false by lia.
Qed.

Lemma tb_try_not_base m n pm pn :
  (pm, pn) ≠ (0%nat, 0%nat) → (pm + pn < m + n)%nat →
  bool_decide ((pm, pn) = (m, n)) || bool_decide ((pm, pn) = (0%nat, 0%nat))
  = false.
Proof.
  intros Hne Hlt. rewrite (bool_decide_false _ Hne).
  rewrite bool_decide_false; [done|]. intros [=]. lia.
Qed.

Lemma tb_try_diag m n out pm pn rw hw s' :
  (pm, pn) ≠ (0%nat, 0%nat) → (m = pm + 1)%nat → (n = pn + 1)%nat →
  word_at eps ref m = Some rw → word_at eps hyp n = Some hw →
  mget H pm pn = Some s' →
  tb_try ref hyp eps H m n out pm pn
  = Some (true, mkTb pm pn (Fin s') (out ++ [mkAlignedPair rw hw pm pn m n])
                  (Some (pm, pn))).
Proof.
  intros Hne Hm Hn Hrw Hhw Hs'. unfold tb_try.
  rewrite tb_try_not_base by (done || lia).
  rewrite !bool_decide_true by done. simpl.
  rewrite Hrw, Hhw. simpl. by rewrite Hs'.
Qed.

Lemma tb_try_del m n out pm rw s' :
  (pm, n) ≠ (0%nat, 0%nat) → (pm + 1 = m)%nat →
  word_at eps ref m = Some rw → mget H pm n = Some s' →
  tb_try ref hyp eps H m n out pm n
  = Some (true, mkTb pm n (Fin s') (out ++ [mkAlignedPair rw eps pm n m n])
                  (Some (pm, n))).
Proof.
  intros Hne Hm Hrw Hs'. unfold tb_try.
  rewrite tb_try_not_base by (done || lia).
  rewrite (bool_decide_false (n = n + 1)%nat) by lia. rewrite andb_false_r.
  rewrite !bool_decide_true by done.
  rewrite Hrw. simpl. by rewrite Hs'.
Qed.

Lemma tb_try_ins m n out pn hw s' :
  (m, pn) ≠ (0%nat, 0%nat) → (pn + 1 = n)%nat →
  word_at eps hyp n = Some hw → mget H m pn = Some s' →
  tb_try ref hyp eps H m n out m pn
  = Some (true, mkTb m pn (Fin s') (out ++ [mkAlignedPair eps hw m pn m n])
                  (Some (m, pn))).
Proof.
  intros Hne Hn Hhw Hs'. unfold tb_try.
  rewrite tb_try_not_base by (done || lia).
  rewrite (bool_decide_false (m = m + 1)%nat) by lia. simpl.
  rewrite (bool_decide_false (pn = n)) by lia.
  rewrite !bool_decide_true by done.
  rewrite Hhw. simpl. by rewrite Hs'.
Qed.

(** What one pass through the [try] block can have done. *)
Lemma tb_try_inv m n out pm pn b st' :
  tb_try ref hyp eps H m n out pm pn = Some (b, st') →
  (b = false ∧ st' = mkTb m n (Fin 0) out (Some (pm, pn))
   ∧ mget H m n = Some 0)
  ∨ ∃ rw hw s',
      st' = mkTb pm pn (Fin s') (out ++ [mkAlignedPair rw hw pm pn m n])
              (Some (pm, pn))
      ∧ mget H pm pn = Some s'
      ∧ ((b = false ∧ ((pm, pn) = (m, n) ∨ (pm, pn) = (0%nat, 0%nat))
          ∧ (∃ s, mget H m n = Some s ∧ s ≠ 0)
          ∧ word_at eps ref m = Some rw ∧ word_at eps hyp n = Some hw)
         ∨ (b = true ∧ (pm + pn < m + n)%nat
            ∧ ((m = pm + 1 ∧ n = pn + 1)%nat
               ∧ word_at eps ref m = Some rw ∧ word_at eps hyp n = Some hw
               ∨ (pm + 1 = m ∧ pn = n)%nat
                 ∧ word_at eps ref m = Some rw ∧ hw = eps
               ∨ (pm = m ∧ pn + 1 = n)%nat
                 ∧ rw = eps ∧ word_at eps hyp n = Some hw))).
Proof.
  unfold tb_try. intros Htry.
  destruct (bool_decide ((pm, pn) = (m, n)) || bool_decide ((pm, pn) = (0%nat, 0%nat)))
    eqn:Hbase.
  - assert ((pm, pn) = (m, n) ∨ (pm, pn) = (0%nat, 0%nat)) as Hb.
    { apply orb_true_iff in Hbase as [E|E]; apply bool_decide_eq_true in E; auto. }
    destruct (mget H m n) as [s|] eqn:Hs; [|done]. simpl in Htry.
    case_bool_decide as Hne.
    + destruct (word_at eps ref m) as [rw|] eqn:Hrw; [|done].
      destruct (word_at eps hyp n) as [hw|] eqn:Hhw; [|done].
      simpl in Htry. destruct (mget H pm pn) as [s'|] eqn:Hs'; [|done].
      simpl in Htry. injection Htry as <- <-.
      right. exists rw, hw, s'. split_and!; [done..|]. left.
      split_and!; [done..|by exists s|done|done].
    + injection Htry as <- <-. left.
      assert (s = 0) as -> by (destruct (decide (s = 0)); [done|by destruct Hne]).
      done.
  - case_bool_decide as Hm; [case_bool_decide as Hn|]; simpl in Htry.
    + destruct (word_at eps ref m) as [rw|] eqn:Hrw; [|done].
      destruct (word_at eps hyp n) as [hw|] eqn:Hhw; [|done].
      simpl in Htry. destruct (mget H pm pn) as [s'|] eqn:Hs'; [|done].
      simpl in Htry. injection Htry as <- <-.
      right. exists rw, hw, s'. split_and!; [done..|]. right.
      split_and!; [done|lia|]. left. done.
    + case_bool_decide as Hpn; [case_bool_decide as Hpm|]; simpl in Htry.
      * destruct (word_at eps ref m) as [rw|] eqn:Hrw; [|done].
        simpl in Htry. destruct (mget H pm pn) as [s'|] eqn:Hs'; [|done].
        simpl in Htry. injection Htry as <- <-.
        right. exists rw, eps, s'. split_and!; [done..|]. right.
        split_and!; [done|lia|]. right. left. done.
      * done.
      * case_bool_decide; [|done]. lia.
    + case_bool_decide as Hpn; [case_bool_decide as Hpm|]; simpl in Htry.
      * destruct (word_at eps ref m) as [rw|] eqn:Hrw; [|done].
        simpl in Htry. destruct (mget H pm pn) as [s'|] eqn:Hs'; [|done].
        simpl in Htry. injection Htry as <- <-.
        right. exists rw, eps, s'. split_and!; [done..|]. right.
        split_and!; [done|lia|]. right. left. done.
      * done.
      * case_bool_decide as Hpm; [case_bool_decide as Hpn'|]; simpl in Htry.
        -- destruct (word_at eps hyp n) as [hw|] eqn:Hhw; [|done].
           simpl in Htry. destruct (mget H pm pn) as [s'|] eqn:Hs'; [|done].
           simpl in Htry. injection Htry as <- <-.
           right. exists eps, hw, s'. split_and!; [done..|]. right.
           split_and!; [done|lia|]. right. right. done.
        -- done.
        -- done.
Qed.

(** The loop cannot use up [ref_index + hyp_index + 1] units of fuel. *)
Lemma traceback_fuel fuel st :
  (tb_ref_index st + tb_hyp_index st < fuel)%nat →
  traceback ref hyp eps full fuel H bp st ≠ OutOfFuel.
Proof.
  revert st. induction fuel as [|fuel IH]; intros st Hlt; [lia|].
  simpl. destruct (tb_continue full st); [|done].
  destruct (mget bp (tb_ref_index st) (tb_hyp_index st)) as [[pm pn]|]; [|done].
  destruct (tb_try ref hyp eps H (tb_ref_index st) (tb_hyp_index st)
              (tb_output st) pm pn) as [[[] st']|] eqn:Htry; [|done..].
  apply IH. apply tb_try_inv in Htry as [(? & _)|(rw & hw & s' & -> & _ & Hk)];
    [done|]. simpl. destruct Hk as [(? & _)|(_ & ? & _)]; [done|lia].
Qed.

End Traceback.

(** ** The traceback in full-hypothesis mode *)

Section FullTrace.
Context {T : Type}.
Variables (ref hyp : list T) (eps : T).
Variables (H : matrix Z) (bp : matrix (nat * nat)).

Let R := length ref.
Let N := length hyp.

Hypothesis HsH : shaped R N H.
Hypothesis Hsb : shaped R N bp.
Hypothesis Hbp : ∀ m n, (m ≤ R)%nat → (1 ≤ n ≤ N)%nat →
  unit_or_origin m n (bp_at bp m n).
Hypothesis Hbase : ∀ m n, (m ≤ R)%nat → (1 ≤ n ≤ N)%nat →
  bp_at bp m n = (0%nat, 0%nat) → score_at H m n ≠ 0.

(** In full-hypothesis mode, from a cell in range, the loop raises
    nothing and appends to the output, last record first, a chain that
    leads from a cell of hypothesis index 0 to the cell it started at. *)
Lemma traceback_full_chain fuel m n s out prev :
  (m ≤ R)%nat → (n ≤ N)%nat → (m + n < fuel)%nat →
  ∃ st' l m0,
    traceback ref hyp eps true fuel H bp (mkTb m n s out prev) = Ok st'
    ∧ tb_output st' = out ++ l
    ∧ chain (edge ref hyp bp) (m0, 0%nat) (rev l) (m, n).
Proof.
  revert m n s out prev.
  induction fuel as [|fuel IH]; intros m n s out prev Hm Hn Hlt; [lia|].
  cbn [traceback tb_continue tb_ref_index tb_hyp_index tb_output tb_prev].
  case_bool_decide as Hn0.
  2:{ exists (mkTb m n s out prev), [], m. split_and!; [done|by rewrite app_nil_r|].
      assert (n = 0%nat) as -> by lia. constructor. }
  rewrite (mget_bp_at R N bp m n) by done.
  destruct (bp_at bp m n) as [pm pn] eqn:Ebp.
  destruct (word_at_Some eps ref m) as (rw & Hrw & Hrw1 & _); [done|].
  destruct (word_at_Some eps hyp n) as (hw & Hhw & Hhw1 & _); [done|].
  assert (∀ r : AlignedPair T,
            cell_to r = (m, n) → cell_from r = (pm, pn) →
            (pm ≤ m)%nat → (pn ≤ n)%nat →
            ((m = pm + 1)%nat → (n = pn + 1)%nat →
             ref_word r = rw ∧ hyp_word r = hw) →
            edge ref hyp bp r) as Hedge.
  { intros [rw' hw' a b c d] [= -> ->] [= -> ->] ? ? Hw. unfold edge; simpl in *.
    split_and!; try done.
    intros E1 E2. destruct Hw as [-> ->]; [done..|].
    rewrite <- Hrw1, <- Hhw1 by lia. split; f_equal; lia. }
  destruct (decide ((pm, pn) = (0%nat, 0%nat))) as [[= -> ->]|Hne].
  - rewrite (tb_try_origin ref hyp eps H m n out (score_at H m n) rw hw
               (score_at H 0 0)); [|by eapply mget_score_at|by apply Hbase
               |done|done|eapply mget_score_at; [done|lia|lia]].
    eexists _, [_], 0%nat. split_and!; [done|done|].
    simpl. apply (chain_cons _ (mkAlignedPair rw hw 0 0 m n)); [|constructor].
    apply Hedge; [done|done|lia|lia|done].
  - pose proof (Hbp m n Hm ltac:(lia)) as Hk. rewrite Ebp in Hk.
    destruct Hk as [?|[[? ?]|[[? ?]|[? ?]]]]; simpl in *; [done| | |].
    + rewrite (tb_try_diag ref hyp eps H m n out pm pn rw hw (score_at H pm pn));
        [|done|lia|lia|done|done|eapply mget_score_at; [done|lia|lia]].
      destruct (IH pm pn (Fin (score_at H pm pn))
                  (out ++ [mkAlignedPair rw hw pm pn m n]) (Some (pm, pn)))
        as (st' & l & m0 & Hrun & Hout & Hchain); [lia..|].
      exists st', (mkAlignedPair rw hw pm pn m n :: l), m0.
      split_and!; [done|by rewrite Hout, <- app_assoc|].
      simpl. apply (chain_snoc _ _ _ (mkAlignedPair rw hw pm pn m n)); [done|].
      apply Hedge; [done|done|lia|lia|done].
    + subst pn.
      rewrite (tb_try_del ref hyp eps H m n out pm rw (score_at H pm n));
        [|done|lia|done|eapply mget_score_at; [done|lia|lia]].
      destruct (IH pm n (Fin (score_at H pm n))
                  (out ++ [mkAlignedPair rw eps pm n m n]) (Some (pm, n)))
        as (st' & l & m0 & Hrun & Hout & Hchain); [lia..|].
      exists st', (mkAlignedPair rw eps pm n m n :: l), m0.
      split_and!; [done|by rewrite Hout, <- app_assoc|].
      simpl. apply (chain_snoc _ _ _ (mkAlignedPair rw eps pm n m n)); [done|].
      apply Hedge; [done|done|lia|lia|]. simpl. lia.
    + subst pm.
      rewrite (tb_try_ins ref hyp eps H m n out pn hw (score_at H m pn));
        [|done|lia|done|eapply mget_score_at; [done|lia|lia]].
      destruct (IH m pn (Fin (score_at H m pn))
                  (out ++ [mkAlignedPair eps hw m pn m n]) (Some (m, pn)))
        as (st' & l & m0 & Hrun & Hout & Hchain); [lia..|].
      exists st', (mkAlignedPair eps hw m pn m n :: l), m0.
      split_and!; [done|by rewrite Hout, <- app_assoc|].
      simpl. apply (chain_snoc _ _ _ (mkAlignedPair eps hw m pn m n)); [done|].
      apply Hedge; [done|done|lia|lia|]. simpl. lia.
Qed.

End FullTrace.

(** ** The matrices and the output of a full-hypothesis run *)

Lemma relax_bp full del ins m n h0 d u l s :
  (1 ≤ m)%nat → (1 ≤ n)%nat →
  unit_or_origin m n (relax full del ins m n h0 (0%nat, 0%nat) d u l s).2.
Proof.
  intros Hm Hn. unfold relax, unit_or_origin.
  repeat (match goal with |- context [if ?b then _ else _] =>
            destruct b eqn:? end; simpl in *); lia || auto.
Qed.

Section Assemble.
Context {T : Type}.
Variables (ref hyp : list T) (sim : T → T → Z) (del ins : Z) (eps : T).

Let R := length ref.
Let N := length hyp.

(** The two matrix phases raise nothing and leave [filled] matrices. *)
Lemma matrices_spec full :
  ∃ H0 bp0 st,
    init_matrices ref hyp ins full = Ok (H0, bp0)
    ∧ fill ref hyp sim del ins full (mkFill H0 bp0 NegInf (0%nat, 0%nat)) = Ok st
    ∧ filled ref hyp sim del ins full st.
Proof.
  destruct (init_matrices_spec ref hyp ins full)
    as (H0 & bp0 & Hinit & HsH & Hsb & Hcells).
  destruct (fill_spec ref hyp sim del ins full H0 bp0 HsH Hsb)
    as (st & Hfill & HH & Hbp & Hsame & Hdone & Htr).
  exists H0, bp0, st. split; [done|]. split; [done|].
  unfold filled. split_and!; [done..| | |done].
  - intros m n Hm Hn H0mn. destruct (Hsame m n Hm Hn) as [-> ->].
    + unfold interior. lia.
    + by apply Hcells.
  - intros m n Hint. rewrite (Hdone m n Hint).
    + destruct Hint as [? ?].
      destruct (Hcells m n) as [-> ->]; [lia..|].
      unfold bp_init. rewrite (bool_decide_false (m = 0%nat)) by lia.
      by rewrite andb_false_r.
    + destruct Hint as [? ?]. unfold before. lia.
Qed.

Section Full.
Variable st : fill_state.
Hypothesis Hfilled : filled ref hyp sim del ins true st.

Lemma full_top_row n :
  (n ≤ N)%nat → score_at (fs_H st) 0 n = Z.of_nat n * ins.
Proof.
  intros Hn. destruct Hfilled as (_ & _ & Hb & _).
  destruct (Hb 0%nat n) as [-> _]; [lia|done|by left|].
  unfold H_init. repeat case_decide; subst; lia.
Qed.

Lemma full_top_row_bp n :
  (1 ≤ n ≤ N)%nat → bp_at (fs_bp st) 0 n = (0%nat, (n - 1)%nat).
Proof.
  intros Hn. destruct Hfilled as (_ & _ & Hb & _).
  destruct (Hb 0%nat n) as [_ ->]; [lia|lia|by left|].
  unfold bp_init. simpl. by rewrite bool_decide_true by lia.
Qed.

Lemma full_left_col m :
  (m ≤ R)%nat → score_at (fs_H st) m 0 = 0.
Proof.
  intros Hm. destruct Hfilled as (_ & _ & Hb & _).
  by destruct (Hb m 0%nat) as [-> _]; [done|lia|by right|].
Qed.

Lemma full_interior m n :
  interior R N m n →
  (score_at (fs_H st) m n, bp_at (fs_bp st) m n) =
  relax true del ins m n (- (Z.of_nat N + 2)) (0%nat, 0%nat)
    (score_at (fs_H st) (m - 1) (n - 1)) (score_at (fs_H st) (m - 1) n)
    (score_at (fs_H st) m (n - 1)) (sim_at ref hyp sim m n).
Proof.
  intros Hint. destruct Hfilled as (_ & _ & _ & Hi & _).
  rewrite (Hi m n Hint). destruct Hint as [? ?]. unfold H_init.
  by rewrite !decide_False by lia.
Qed.

Lemma full_bp_ok m n :
  (m ≤ R)%nat → (1 ≤ n ≤ N)%nat → unit_or_origin m n (bp_at (fs_bp st) m n).
Proof.
  intros Hm Hn. destruct (decide (m = 0%nat)) as [->|Hm0].
  - rewrite full_top_row_bp by done. unfold unit_or_origin. simpl. lia.
  - pose proof (full_interior m n) as Hi.
    eapply (f_equal snd) in Hi; [|unfold interior; lia].
    simpl in Hi. rewrite Hi. apply relax_bp; lia.
Qed.

Lemma full_origin_nonzero m n :
  ins ≠ 0 → sim_at ref hyp sim 1 1 ≠ 0 →
  (m ≤ R)%nat → (1 ≤ n ≤ N)%nat →
  bp_at (fs_bp st) m n = (0%nat, 0%nat) → score_at (fs_H st) m n ≠ 0.
Proof.
  intros Hins Hsim Hm Hn. destruct (decide (m = 0%nat)) as [->|Hm0].
  - rewrite full_top_row_bp, full_top_row by (done || lia).
    intros [= ?]. assert (n = 1%nat) as -> by lia. lia.
  - pose proof (full_interior m n) as Hi.
    assert (interior R N m n) as Hint by (unfold interior; lia).
    specialize (Hi Hint).
    pose proof (f_equal fst Hi) as Hv. pose proof (f_equal snd Hi) as Hb.
    simpl in Hv, Hb. rewrite Hv, Hb. clear Hi Hv Hb.
    unfold relax.
    repeat (match goal with |- context [if ?b then _ else _] =>
              destruct b eqn:? end; simpl in *);
      intros E; try (injection E as ? ?); try lia.
    assert (m = 1%nat) as -> by lia. assert (n = 1%nat) as -> by lia.
    change (1 - 1)%nat with 0%nat. rewrite (full_left_col 0) by lia. lia.
Qed.

(** The traceback starts in the last column, at the last row of best
    score there. *)
Lemma full_terminal :
  (1 ≤ R)%nat → (1 ≤ N)%nat →
  ∃ mstar, (1 ≤ mstar ≤ R)%nat
    ∧ fs_max_score_element st = (mstar, N)
    ∧ fs_max_score st = Fin (score_at (fs_H st) mstar N)
    ∧ (∀ i, (1 ≤ i ≤ R)%nat →
         score_at (fs_H st) i N ≤ score_at (fs_H st) mstar N
         ∧ ((mstar < i)%nat → score_at (fs_H st) i N < score_at (fs_H st) mstar N)).
Proof.
  intros HR HN. destruct Hfilled as (_ & _ & _ & _ & Htr).
  fold R N in Htr. unfold tracked in Htr.
  destruct (fs_max_score st) as [|z].
  - destruct Htr as [_ Hno]. destruct (Hno 1%nat N).
    + split; [unfold interior; lia|done].
    + unfold before. lia.
  - destruct Htr as ([[? ?] HelN] & _ & -> & Hall).
    destruct (fs_max_score_element st) as [a b]. simpl in *.
    assert (b = N) as -> by auto. exists a.
    split; [lia|]. split; [done|]. split; [done|].
    intros i Hi. destruct (Hall i N) as [Hle Hlt].
    + split; [unfold interior; lia|done].
    + unfold before. lia.
    + split; [done|]. intros ?. apply Hlt. unfold before. lia.
Qed.

End Full.

(** A full-hypothesis run on non-empty sequences, with scores that keep
    the base case from dropping its record: the output is a chain from
    hypothesis index 0 to the terminal cell, and the score is that
    cell's. *)
Lemma swa_full_chain :
  ref ≠ [] → hyp ≠ [] → ins ≠ 0 → sim_at ref hyp sim 1 1 ≠ 0 →
  ∃ st out m0 mstar,
    filled ref hyp sim del ins true st
    ∧ smith_waterman_alignment ref hyp sim del ins eps true
      = Ok (out, Fin (score_at (fs_H st) mstar N))
    ∧ (1 ≤ mstar ≤ R)%nat
    ∧ (∀ i, (1 ≤ i ≤ R)%nat →
         score_at (fs_H st) i N ≤ score_at (fs_H st) mstar N
         ∧ ((mstar < i)%nat → score_at (fs_H st) i N < score_at (fs_H st) mstar N))
    ∧ chain (edge ref hyp (fs_bp st)) (m0, 0%nat) out (mstar, N).
Proof.
  intros Href Hhyp Hins Hsim.
  assert (1 ≤ R)%nat as HR by (unfold R; destruct ref; [done|simpl; lia]).
  assert (1 ≤ N)%nat as HN by (unfold N; destruct hyp; [done|simpl; lia]).
  destruct (matrices_spec true) as (H0 & bp0 & st & Hinit & Hfill & Hfilled).
  destruct (full_terminal st Hfilled HR HN) as (mstar & Hms & Hel & Hmx & Hbest).
  pose proof Hfilled as (HsH & Hsb & _).
  destruct (traceback_full_chain ref hyp eps (fs_H st) (fs_bp st) HsH Hsb
              (full_bp_ok st Hfilled)
              (fun m n => full_origin_nonzero st Hfilled m n Hins Hsim)
              (S (mstar + N)) mstar N (fs_max_score st) [] None)
    as (tb & l & m0 & Hrun & Hout & Hchain); [fold R; lia|done|lia|].
  exists st, (rev l), m0, mstar.
  split; [done|]. split; [|done].
  unfold smith_waterman_alignment. rewrite Hinit. cbn [mbind result_bind].
  rewrite Hfill. cbn [mbind result_bind]. rewrite Hel, Hrun.
  cbn [mbind result_bind orb]. by rewrite Hout, Hmx.
Qed.

End Assemble.

(** Consequences of being a chain. *)
Section Chain.
Context {T : Type}.
Variable P : AlignedPair T → Prop.
Hypothesis Pmono : ∀ r, P r →
  (ref_word_from_index r ≤ ref_word_to_index r)%nat
  ∧ (hyp_word_from_index r ≤ hyp_word_to_index r)%nat.

(** Along a chain of records that never go backwards the reference
    from-indices never decrease. *)
Lemma chain_mono c1 l c2 :
  chain P c1 l c2 → (c1.1 ≤ c2.1)%nat ∧ (c1.2 ≤ c2.2)%nat.
Proof.
  induction 1 as [c|r l c HP Hc IH]; [lia|].
  destruct (Pmono r HP). unfold cell_from, cell_to in *. simpl in *. lia.
Qed.

Lemma chain_from_ge c1 l c2 :
  chain P c1 l c2 → Forall (fun r => (c1.1 ≤ ref_word_from_index r)%nat) l.
Proof.
  induction 1 as [c|r l c HP Hc IH]; [constructor|].
  destruct (Pmono r HP) as [Hr _]. constructor; [done|].
  eapply Forall_impl; [exact IH|]. unfold cell_to. simpl. intros; lia.
Qed.

Lemma chain_sorted c1 l c2 i j a b :
  chain P c1 l c2 → (i ≤ j)%nat → l !! i = Some a → l !! j = Some b →
  (ref_word_from_index a ≤ ref_word_from_index b)%nat.
Proof.
  intros Hc. revert i j. induction Hc as [c|r l c HP Hc IH]; intros i j Hij Ha Hb.
  - done.
  - destruct i as [|i].
    + simpl in Ha. injection Ha as ->.
      destruct j as [|j]; [simpl in Hb; by injection Hb as ->|].
      simpl in Hb. apply chain_from_ge in Hc.
      pose proof (Forall_lookup_1 _ _ _ _ Hc Hb) as Hge. simpl in Hge.
      destruct (Pmono a HP). unfold cell_to in Hge. simpl in Hge. lia.
    + destruct j as [|j]; [lia|]. simpl in Ha, Hb. apply (IH i j); [lia|done..].
Qed.

End Chain.

(** The aligner never runs out of fuel, whatever its arguments. *)
Lemma smith_waterman_alignment_terminates {T} (ref hyp : list T)
    (sim : T → T → Z) (del ins : Z) (eps : T) (full : bool) :
  smith_waterman_alignment ref hyp sim del ins eps full ≠ OutOfFuel.
Proof.
  destruct (matrices_spec ref hyp sim del ins full)
    as (H0 & bp0 & st & Hinit & Hfill & _).
  unfold smith_waterman_alignment. rewrite Hinit. cbn [mbind result_bind].
  rewrite Hfill. cbn [mbind result_bind].
  destruct (fs_max_score_element st) as [m n].
  pose proof (traceback_fuel ref hyp eps full (fs_H st) (fs_bp st) (S (m + n))
                (mkTb m n (fs_max_score st) [] None)) as Hfuel.
  destruct (traceback ref hyp eps full (S (m + n)) (fs_H st) (fs_bp st)
              (mkTb m n (fs_max_score st) [] None)) as [tb|e|];
    [|done|destruct Hfuel; [simpl; lia|done]].
  cbn [mbind result_bind]. by destruct (full || score_is_zero (tb_score tb)).
Qed.

(** ** The fixed scores of the consumers: match 2, everything else -1 *)

Lemma chain_impl {T} (P Q : AlignedPair T → Prop) c1 l c2 :
  (∀ r, P r → Q r) → chain P c1 l c2 → chain Q c1 l c2.
Proof. intros HPQ. induction 1; constructor; auto. Qed.

(** A property of cells propagated from the end of a chain backwards. *)
Lemma chain_back {T} (P G : AlignedPair T → Prop) (Q : nat * nat → Prop) c1 l c2 :
  (∀ r, P r → Q (cell_to r) → Q (cell_from r) ∧ G r) →
  chain P c1 l c2 → Q c2 → Q c1 ∧ Forall G l.
Proof.
  intros Hstep. induction 1 as [c|r l c HP Hc IH]; intros HQ; [by split|].
  destruct (IH HQ) as [HQr HG]. destruct (Hstep r HP HQr). by split; [|constructor].
Qed.

Lemma chain_Forall {T} (P : AlignedPair T → Prop) c1 l c2 :
  chain P c1 l c2 → Forall P l.
Proof. induction 1; constructor; auto. Qed.

Lemma edge_mono {T} (ref hyp : list T) bp r :
  edge ref hyp bp r →
  (ref_word_from_index r ≤ ref_word_to_index r)%nat
  ∧ (hyp_word_from_index r ≤ hyp_word_to_index r)%nat.
Proof. intros (_ & _ & _ & _ & ? & ? & _). done. Qed.

Section Fixed.
Context {T : Type} `{EqDecision T}.
Variables (ref hyp : list T).
Variable st : fill_state.
Hypothesis Hfilled : filled ref hyp match_or_mismatch (-1) (-1) true st.

Let R := length ref.
Let N := length hyp.

Lemma sim_at_bounds m n :
  -1 ≤ sim_at ref hyp match_or_mismatch m n ≤ 2.
Proof.
  unfold sim_at, match_or_mismatch.
  destruct (ref !! (m - 1)%nat), (hyp !! (n - 1)%nat); try lia.
  case_bool_decide; lia.
Qed.

(** Under the fixed scores no cell scores below minus its column, so the
    diagonal candidate is always accepted and every visited cell points
    to a neighbour. *)
Lemma fixed_lower m n :
  (m ≤ R)%nat → (n ≤ N)%nat → - Z.of_nat n ≤ score_at (fs_H st) m n.
Proof.
  revert n. induction m as [|m IH]; intros n Hm Hn.
  - rewrite (full_top_row ref hyp _ _ _ st Hfilled) by done. lia.
  - destruct n as [|n].
    + rewrite (full_left_col ref hyp _ _ _ st Hfilled) by done. lia.
    + pose proof (full_interior ref hyp _ _ _ st Hfilled (S m) (S n)) as Hi.
      eapply (f_equal fst) in Hi; [|unfold interior; fold R N; lia].
      simpl in Hi. rewrite Hi. clear Hi.
      replace (m - 0)%nat with m by lia. replace (n - 0)%nat with n by lia.
      pose proof (IH n ltac:(lia) ltac:(lia)).
      pose proof (sim_at_bounds (S m) (S n)).
      relax_cases; lia.
Qed.

Lemma fixed_bp_unit m n :
  interior R N m n →
  bp_at (fs_bp st) m n = ((m - 1)%nat, (n - 1)%nat)
  ∨ bp_at (fs_bp st) m n = ((m - 1)%nat, n)
  ∨ bp_at (fs_bp st) m n = (m, (n - 1)%nat).
Proof.
  intros Hint. pose proof (full_interior ref hyp _ _ _ st Hfilled m n Hint) as Hi.
  apply (f_equal snd) in Hi. simpl in Hi. rewrite Hi. clear Hi.
  destruct Hint as [? ?].
  pose proof (fixed_lower (m - 1) (n - 1) ltac:(lia) ltac:(lia)).
  pose proof (sim_at_bounds m n). fold N.
  relax_cases; auto; lia.
Qed.

Lemma fixed_edge_unit r :
  edge ref hyp (fs_bp st) r → unit_step r.
Proof.
  intros (Hn & Hm & HnN & Hbp & _ & _ & _). unfold unit_step, cell_from in *.
  destruct (decide (ref_word_to_index r = 0%nat)) as [E|E].
  - rewrite E in Hbp.
    rewrite (full_top_row_bp ref hyp _ _ _ st Hfilled) in Hbp by (fold N; lia).
    injection Hbp as ? ?. lia.
  - destruct (fixed_bp_unit (ref_word_to_index r) (hyp_word_to_index r))
      as [E'|[E'|E']]; [unfold interior; fold R N; lia|..];
      rewrite E' in Hbp; injection Hbp as ? ?; lia.
Qed.

End Fixed.

Section Identical.
Context {T : Type} `{EqDecision T}.
Variable ref : list T.
Variable st : fill_state.
Hypothesis Hfilled : filled ref ref match_or_mismatch (-1) (-1) true st.

Let L := length ref.

(** A sequence aligned with itself: no cell scores above twice its row
    or twice its column, and the diagonal reaches that bound through
    diagonal backpointers. *)
Lemma identical_upper m n :
  (m ≤ L)%nat → (n ≤ L)%nat →
  score_at (fs_H st) m n ≤ 2 * Z.of_nat m
  ∧ score_at (fs_H st) m n ≤ 2 * Z.of_nat n.
Proof.
  revert n. induction m as [|m IHm]; intros n Hm Hn.
  { rewrite (full_top_row ref ref _ _ _ st Hfilled) by done. lia. }
  induction n as [|n IHn].
  { rewrite (full_left_col ref ref _ _ _ st Hfilled) by done. lia. }
  pose proof (full_interior ref ref _ _ _ st Hfilled (S m) (S n)) as Hi.
  eapply (f_equal fst) in Hi; [|unfold interior; fold L; lia].
  simpl in Hi. rewrite Hi. clear Hi.
  replace (m - 0)%nat with m by lia. replace (n - 0)%nat with n by lia.
  pose proof (IHm n ltac:(lia) ltac:(lia)).
  pose proof (IHm (S n) ltac:(lia) ltac:(lia)).
  pose proof (IHn ltac:(lia)).
  pose proof (sim_at_bounds ref ref (S m) (S n)).
  relax_cases; lia.
Qed.

Lemma identical_sim k :
  (1 ≤ k ≤ L)%nat → sim_at ref ref match_or_mismatch k k = 2.
Proof.
  intros Hk. unfold sim_at, match_or_mismatch.
  destruct (lookup_lt_is_Some_2 ref (k - 1)) as [r ->]; [fold L; lia|].
  by rewrite bool_decide_true.
Qed.

Lemma identical_diag k :
  (1 ≤ k ≤ L)%nat →
  score_at (fs_H st) k k = 2 * Z.of_nat k
  ∧ bp_at (fs_bp st) k k = ((k - 1)%nat, (k - 1)%nat).
Proof.
  induction k as [|k IH]; intros Hk; [lia|].
  pose proof (full_interior ref ref _ _ _ st Hfilled (S k) (S k)) as Hi.
  specialize (Hi ltac:(unfold interior; fold L; lia)).
  assert (score_at (fs_H st) k k = 2 * Z.of_nat k) as Hd.
  { destruct k; [|apply IH; lia].
    rewrite (full_left_col ref ref _ _ _ st Hfilled) by lia. lia. }
  pose proof (identical_upper k (S k) ltac:(lia) ltac:(lia)) as Hu.
  pose proof (identical_upper (S k) k ltac:(lia) ltac:(lia)) as Hl.
  rewrite identical_sim in Hi by done.
  replace (S k - 1)%nat with k in * by lia. rewrite Hd in Hi.
  assert (relax true (-1) (-1) (S k) (S k) (- (Z.of_nat (length ref) + 2))
            (0%nat, 0%nat) (2 * Z.of_nat k) (score_at (fs_H st) k (S k))
            (score_at (fs_H st) (S k) k) 2
          = (2 * Z.of_nat (S k), (k, k))) as Hr.
  { replace (k, k) with ((S k - 1)%nat, (S k - 1)%nat) by (f_equal; lia).
    relax_cases; try lia; f_equal; lia. }
  rewrite Hr in Hi. by injection Hi as -> ->.
Qed.

End Identical.

(** ** Coverage of the hypothesis, and identical sequences *)

Lemma sim_at_head {T} (ref hyp : list T) sim r h :
  head ref = Some r → head hyp = Some h → sim_at ref hyp sim 1 1 = sim r h.
Proof. destruct ref, hyp; intros [= ->] [= ->]. done. Qed.

Lemma chain_diag_length {T} (P : AlignedPair T → Prop) c1 l c2 :
  chain P c1 l c2 →
  Forall (fun r => (ref_word_to_index r = ref_word_from_index r + 1)%nat) l →
  c2.1 = (c1.1 + length l)%nat.
Proof.
  induction 1 as [c|r l c HP Hc IH]; intros HF; [simpl; lia|].
  apply Forall_cons in HF as [Hr HF]. specialize (IH HF).
  unfold cell_to, cell_from in *. simpl in *. lia.
Qed.

(** C4.  For a non-empty token sequence aligned with itself under the
    fixed scores (match 2, mismatch, deletion and insertion -1) in
    full-hypothesis mode, every record is classified ["cor"] (there is
    one per token), and the returned score is [2 * len(ref)]. *)
Theorem identical_sequences_all_correct (ref : list string) :
  ref ≠ [] →
  align_and_calc_edit_types ref ref
  = Ok (replicate (length ref) "cor"%string)
  ∧ ∃ out,
      smith_waterman_alignment ref ref match_or_mismatch (-1) (-1)
        "|"%string true
      = Ok (out, Fin (2 * Z.of_nat (length ref))).
Proof.
  intros Href.
  assert (1 ≤ length ref)%nat as HL by (destruct ref; [done|simpl; lia]).
  destruct (swa_full_chain ref ref match_or_mismatch (-1) (-1) "|"%string
              Href Href)
    as (st & out & m0 & mstar & Hfilled & Hrun & Hms & Hbest & Hchain).
  { done. }
  { rewrite (identical_sim ref) by lia. done. }
  destruct (identical_diag ref st Hfilled (length ref)) as [HLL _]; [lia|].
  assert (mstar = length ref) as ->.
  { destruct (decide (mstar = length ref)) as [|Hne]; [done|].
    destruct (Hbest (length ref)) as [_ Hlt]; [lia|].
    specialize (Hlt ltac:(lia)).
    destruct (identical_upper ref st Hfilled mstar (length ref)); [lia..|]. lia. }
  rewrite HLL in Hrun.
  assert (∀ r, edge ref ref (fs_bp st) r →
            (cell_to r).1 = (cell_to r).2 ∧ ((cell_to r).1 ≤ length ref)%nat →
            ((cell_from r).1 = (cell_from r).2
             ∧ ((cell_from r).1 ≤ length ref)%nat)
            ∧ ((ref_word_to_index r = ref_word_from_index r + 1)%nat
               ∧ ref_word r = hyp_word r)) as Hstep.
  { intros r (Hn & Hm & _ & Hbp & _ & _ & Hw) [Hd Hle].
    unfold cell_to, cell_from in *. simpl in *.
    rewrite <- Hd in *.
    destruct (identical_diag ref st Hfilled (ref_word_to_index r)) as [_ Eb];
      [lia|].
    rewrite Eb in Hbp. injection Hbp as E1 E2.
    split_and!; [lia|lia|lia|].
    destruct Hw as [Hr Hh]; [lia|lia|]. rewrite <- E1, E2 in Hr. congruence. }
  destruct (chain_back (edge ref ref (fs_bp st))
              (fun r => (ref_word_to_index r = ref_word_from_index r + 1)%nat
                        ∧ ref_word r = hyp_word r)
              (fun c => c.1 = c.2 ∧ (c.1 ≤ length ref)%nat)
              _ _ _ Hstep Hchain) as [[Hm0 _] HG]; [done|].
  simpl in Hm0. subst m0.
  pose proof (chain_diag_length _ _ _ _ Hchain) as Hlen.
  simpl in Hlen. rewrite Hlen; [|by eapply Forall_impl; [exact HG|intros ? []]].
  split; [|by exists out; rewrite <- Hlen
                      by (by eapply Forall_impl; [exact HG|intros ? []])].
  unfold align_and_calc_edit_types. rewrite Hrun. cbn [mbind result_bind].
  f_equal. clear -HG. induction HG as [|r l [_ Hr] _ IH]; [done|].
  simpl. rewrite IH. f_equal. unfold get_edit_type.
  by rewrite (bool_decide_false (ref_word r ≠ hyp_word r)) by (by intros []).
Qed.

Lemma identical_sequences_all_correct_witness :
  align_and_calc_edit_types ["a"; "b"]%string ["a"; "b"]%string
  = Ok ["cor"; "cor"]%string
  ∧ ∃ out,
      smith_waterman_alignment ["a"; "b"]%string ["a"; "b"]%string
        match_or_mismatch (-1) (-1) "|"%string true
      = Ok (out, Fin 4).
Proof.
  apply (identical_sequences_all_correct ["a"; "b"]%string). discriminate.
Defined.

(** ** Empty inputs, initial values, edit types *)

Lemma filled_empty {T} (ref hyp : list T) sim del ins full st :
  ref = [] ∨ hyp = [] → filled ref hyp sim del ins full st →
  fs_max_score st = NegInf ∧ fs_max_score_element st = (0%nat, 0%nat).
Proof.
  intros Hempty (_ & _ & _ & _ & Htr). unfold tracked in Htr.
  destruct (fs_max_score st) as [|z]; [by destruct Htr|].
  destruct Htr as ([[? ?] _] & _). destruct Hempty as [-> | ->]; simpl in *; lia.
Qed.

(** In full-hypothesis mode an empty sequence leaves [max_score] and
    [max_score_element] untouched and the traceback loop is skipped. *)
Lemma full_hyp_empty {T} (ref hyp : list T) (sim : T → T → Z)
    (del ins : Z) (eps : T) :
  ref = [] ∨ hyp = [] →
  smith_waterman_alignment ref hyp sim del ins eps true = Ok ([], NegInf).
Proof.
  intros Hempty.
  destruct (matrices_spec ref hyp sim del ins true)
    as (H0 & bp0 & st & Hinit & Hfill & Hfilled).
  destruct (filled_empty _ _ _ _ _ _ _ Hempty Hfilled) as [Hmx Hel].
  unfold smith_waterman_alignment. rewrite Hinit. cbn [mbind result_bind].
  rewrite Hfill. cbn [mbind result_bind]. rewrite Hel, Hmx. done.
Qed.

(** C2 (amended).  In full-hypothesis mode an empty hypothesis, against
    any reference, yields the empty alignment and the score minus
    infinity (so for [ref = ["a","b"]], [hyp = []]); and neither an empty
    hypothesis nor an empty reference makes the aligner raise. *)
Theorem full_hyp_empty_input {T} (ref hyp : list T) (sim : T → T → Z)
    (del ins : Z) (eps : T) :
  (hyp = [] →
   smith_waterman_alignment ref hyp sim del ins eps true = Ok ([], NegInf))
  ∧ (ref = [] →
     ∃ res, smith_waterman_alignment ref hyp sim del ins eps true = Ok res).
Proof.
  split.
  - intros Hhyp. apply full_hyp_empty. by right.
  - intros Href. eexists. apply full_hyp_empty. by left.
Qed.

Lemma full_hyp_empty_input_witness :
  smith_waterman_alignment ["a"; "b"]%string [] match_or_mismatch (-1) (-1)
    "|"%string true = Ok ([], NegInf)
  ∧ ∃ res, smith_waterman_alignment [] ["a"; "b"]%string match_or_mismatch
             (-1) (-1) "|"%string true = Ok res.
Proof.
  split.
  - apply (full_hyp_empty_input ["a"; "b"]%string [] match_or_mismatch (-1) (-1)
             "|"%string). reflexivity.
  - apply (full_hyp_empty_input [] ["a"; "b"]%string match_or_mismatch (-1) (-1)
             "|"%string). reflexivity.
Defined.

(** C2 as stated fails: for [ref = ["a","b"]], [hyp = []] the aligner
    returns no record and the score minus infinity, not two deletion
    records and [2 * del_score]. *)
Lemma empty_hyp_yields_no_deletions :
  smith_waterman_alignment ["a"; "b"]%string [] match_or_mismatch (-1) (-1)
    "|"%string true = Ok ([], NegInf)
  ∧ smith_waterman_alignment ["a"; "b"]%string [] match_or_mismatch (-1) (-1)
      "|"%string true
    ≠ Ok ([mkAlignedPair "a" "|" 0 0 1 0; mkAlignedPair "b" "|" 1 0 2 0]%string,
          Fin (2 * -1)).
Proof. split; [vm_compute; reflexivity|vm_compute; discriminate]. Qed.

(** C3 (amended).  In full-hypothesis mode the matrices are initialised
    with [H[m][0] = 0] for every row [m] (so [H[0][0] = 0]), with
    [-(len(hyp)+2)] in every cell [H[m][n]] of positive [m] and [n], and
    with [H[0][n] = H[0][n-1] + ins_score] and backpointer [(0, n-1)] for
    every [n > 0]. *)
Theorem full_hyp_initialisation {T} (ref hyp : list T) (ins : Z) :
  ∃ H bp,
    init_matrices ref hyp ins true = Ok (H, bp)
    ∧ (∀ m, (m ≤ length ref)%nat → mget H m 0 = Some 0)
    ∧ (∀ m n, (1 ≤ m ≤ length ref)%nat → (1 ≤ n ≤ length hyp)%nat →
         mget H m n = Some (- (Z.of_nat (length hyp) + 2)))
    ∧ (∀ n, (1 ≤ n ≤ length hyp)%nat →
         ∃ h, mget H 0 (n - 1) = Some h ∧ mget H 0 n = Some (h + ins)
              ∧ mget bp 0 n = Some (0%nat, (n - 1)%nat)).
Proof.
  destruct (init_matrices_spec ref hyp ins true)
    as (H & bp & Hinit & HsH & Hsb & Hcells).
  exists H, bp. split; [done|]. split_and!.
  - intros m Hm. rewrite (mget_score_at _ _ _ _ _ HsH) by (done || lia).
    destruct (Hcells m 0%nat) as [-> _]; [done|lia|]. done.
  - intros m n Hm Hn. rewrite (mget_score_at _ _ _ _ _ HsH) by lia.
    destruct (Hcells m n) as [-> _]; [lia..|].
    unfold H_init. by rewrite !decide_False by lia.
  - intros n Hn. exists (score_at H 0 (n - 1)).
    rewrite !(mget_score_at _ _ _ _ _ HsH) by lia.
    rewrite (mget_bp_at _ _ _ _ _ Hsb) by lia.
    destruct (Hcells 0%nat n) as [-> ->]; [lia..|].
    destruct (Hcells 0%nat (n - 1)%nat) as [-> _]; [lia..|].
    split_and!; [done| |].
    + f_equal. unfold H_init. rewrite (decide_False (P := n = 0%nat)) by lia.
      rewrite !(decide_True (P := 0%nat = 0%nat)) by done.
      replace (Z.of_nat n) with (Z.of_nat (n - 1) + 1) by lia.
      case_decide as E; [rewrite E|]; simpl; lia.
    + unfold bp_init. simpl. by rewrite bool_decide_true by lia.
Qed.

Lemma full_hyp_initialisation_witness :
  ∃ H bp,
    init_matrices ["a"]%string ["x"; "y"]%string (-1) true = Ok (H, bp)
    ∧ mget H 1 0 = Some 0
    ∧ mget H 1 2 = Some (-4)
    ∧ (∃ h, mget H 0 1 = Some h ∧ mget H 0 2 = Some (h + -1)
            ∧ mget bp 0 2 = Some (0%nat, 1%nat)).
Proof.
  destruct (full_hyp_initialisation ["a"]%string ["x"; "y"]%string (-1))
    as (H & bp & Hinit & Hcol & Hint & Hrow).
  exists H, bp. split; [exact Hinit|]. split; [apply Hcol; simpl; lia|].
  split; [apply (Hint 1%nat 2%nat); simpl; lia|].
  apply (Hrow 2%nat). simpl; lia.
Defined.

(** C3 as stated fails: for one reference and one hypothesis token,
    [H[1][0]] is 0 after initialisation, not [-(len(hyp)+2) = -3]. *)
Lemma left_column_is_zero_not_unreachable :
  ∃ H bp,
    init_matrices ["a"]%string ["b"]%string (-1) true = Ok (H, bp)
    ∧ mget H 1 0 = Some 0
    ∧ mget H 1 0 ≠ Some (- (Z.of_nat (length ["b"]%string) + 2)).
Proof.
  eexists _, _. split; [vm_compute; reflexivity|].
  split; [reflexivity|discriminate].
Qed.

(** C7 (the code at the failing input).  In local mode, when the
    reference or the hypothesis is empty, the double loop never runs,
    [score] is still minus infinity when the traceback loop is skipped,
    and the assertion [align_full_hyp or score == 0] fails. *)
Theorem local_mode_empty_input_assertion_fails {T} (l : list T)
    (sim : T → T → Z) (del ins : Z) (eps : T) :
  smith_waterman_alignment [] l sim del ins eps false = Raise AssertionError
  ∧ smith_waterman_alignment l [] sim del ins eps false = Raise AssertionError.
Proof.
  split.
  - destruct (matrices_spec [] l sim del ins false)
      as (H0 & bp0 & st & Hinit & Hfill & Hfilled).
    destruct (filled_empty _ _ _ _ _ _ _ (or_introl eq_refl) Hfilled) as [Hmx Hel].
    unfold smith_waterman_alignment. rewrite Hinit. cbn [mbind result_bind].
    rewrite Hfill. cbn [mbind result_bind]. rewrite Hel, Hmx. done.
  - destruct (matrices_spec l [] sim del ins false)
      as (H0 & bp0 & st & Hinit & Hfill & Hfilled).
    destruct (filled_empty _ _ _ _ _ _ _ (or_intror eq_refl) Hfilled) as [Hmx Hel].
    unfold smith_waterman_alignment. rewrite Hinit. cbn [mbind result_bind].
    rewrite Hfill. cbn [mbind result_bind]. rewrite Hel, Hmx. done.
Qed.

(** C9.  [get_edit_type] answers ["cor"] when the two tokens are equal;
    otherwise ["ins"] when the reference token is the sentinel, ["del"]
    when the hypothesis token is, and ["sub"] when neither is.  For
    [ref = ["a","b","c"]] and [hyp = ["a","x","c"]] the edit types are
    [cor, sub, cor]. *)
Theorem edit_types {T} `{EqDecision T} (r h eps : T) :
  get_edit_type r h eps
  = (if bool_decide (r = h) then "cor"
     else if bool_decide (r = eps) then "ins"
     else if bool_decide (h = eps) then "del"
     else "sub")%string
  ∧ align_and_calc_edit_types ["a"; "b"; "c"]%string ["a"; "x"; "c"]%string
    = Ok ["cor"; "sub"; "cor"]%string.
Proof.
  split; [|vm_compute; reflexivity].
  unfold get_edit_type. repeat case_bool_decide; simpl; congruence.
Qed.

(** C10.  Whenever the aligner returns the empty list,
    [padded_alignments] raises [IndexError] at [alignments[0]]. *)
Theorem padded_alignments_needs_nonempty_output (ref_tok hyp_tok : list string)
    (eps : string) (sc : score) :
  smith_waterman_alignment ref_tok hyp_tok match_or_mismatch (-1) (-1) eps true
  = Ok ([], sc) →
  padded_alignments ref_tok hyp_tok eps = Raise IndexError.
Proof. intros Hrun. unfold padded_alignments. by rewrite Hrun. Qed.

Lemma padded_alignments_needs_nonempty_output_witness :
  padded_alignments ["a"; "b"]%string [] "|"%string = Raise IndexError.
Proof.
  apply (padded_alignments_needs_nonempty_output ["a"; "b"]%string []
           "|"%string NegInf).
  vm_compute. reflexivity.
Defined.

(** ** The sentinel never fills both slots *)

Lemma word_at_eps {T} (eps : T) (l : list T) i :
  eps ∉ l → word_at eps l i = Some eps → i = 0%nat.
Proof.
  intros Hnot. unfold word_at. case_decide; [|intros; lia].
  intros Hl. destruct Hnot. by eapply list_elem_of_lookup_2.
Qed.

Section Sentinel.
Context {T : Type}.
Variables (ref hyp : list T) (eps : T) (full : bool).
Variables (H : matrix Z) (bp : matrix (nat * nat)).
Hypothesis Href : eps ∉ ref.
Hypothesis Hhyp : eps ∉ hyp.
Hypothesis Horigin : mget H 0 0 = Some 0.

(** The loop keeps the output free of records with two sentinels. *)
Lemma traceback_not_both_eps fuel st st' :
  traceback ref hyp eps full fuel H bp st = Ok st' →
  Forall (not_both_eps eps) (tb_output st) →
  Forall (not_both_eps eps) (tb_output st').
Proof.
  revert st. induction fuel as [|fuel IH]; intros st Hrun Hout; [done|].
  simpl in Hrun. destruct (tb_continue full st) eqn:Hcont;
    [|by injection Hrun as <-].
  destruct (mget bp (tb_ref_index st) (tb_hyp_index st)) as [[pm pn]|]; [|done].
  destruct (tb_try ref hyp eps H (tb_ref_index st) (tb_hyp_index st)
              (tb_output st) pm pn) as [[b st1]|] eqn:Htry; [|done].
  assert (Forall (not_both_eps eps) (tb_output st1)) as Hout1.
  { apply tb_try_inv in Htry as [(_ & -> & _)|(rw & hw & s' & -> & _ & Hk)];
      [done|].
    simpl. apply Forall_app. split; [done|]. apply Forall_singleton.
    unfold not_both_eps. simpl. intros [-> ->].
    destruct Hk as [(_ & _ & (s & Hs & Hne) & Hrw & Hhw)
                   |(_ & _ & [([? ?] & Hrw & _)|[([? ?] & Hrw & _)|([? ?] & _ & Hhw)]])].
    - apply word_at_eps in Hrw, Hhw; [|done..].
      rewrite Hrw, Hhw in Hs. congruence.
    - apply word_at_eps in Hrw; [lia|done].
    - apply word_at_eps in Hrw; [lia|done].
    - apply word_at_eps in Hhw; [lia|done]. }
  destruct b; [by eapply IH|by injection Hrun as <-].
Qed.

End Sentinel.

(** C8.  With a sentinel that is not a token of the reference or of the
    hypothesis, no record the aligner returns, in either mode and for
    any scores, has the sentinel in both token slots. *)
Theorem emitted_pairs_never_both_eps {T} (ref hyp : list T) (sim : T → T → Z)
    (del ins : Z) (eps : T) (full : bool) (out : list (AlignedPair T))
    (sc : score) :
  eps ∉ ref → eps ∉ hyp →
  smith_waterman_alignment ref hyp sim del ins eps full = Ok (out, sc) →
  Forall (fun r => ¬ (ref_word r = eps ∧ hyp_word r = eps)) out.
Proof.
  intros Href Hhyp.
  destruct (matrices_spec ref hyp sim del ins full)
    as (H0 & bp0 & st & Hinit & Hfill & Hfilled).
  unfold smith_waterman_alignment. rewrite Hinit. cbn [mbind result_bind].
  rewrite Hfill. cbn [mbind result_bind].
  destruct (fs_max_score_element st) as [m n].
  destruct (traceback ref hyp eps full (S (m + n)) (fs_H st) (fs_bp st)
              (mkTb m n (fs_max_score st) [] None)) as [tb| |] eqn:Hrun; [|done..].
  cbn [mbind result_bind].
  destruct (full || score_is_zero (tb_score tb)); [|done].
  intros [= <- _]. apply Forall_rev.
  eapply (traceback_not_both_eps ref hyp eps full (fs_H st) (fs_bp st));
    [done|done| |exact Hrun|constructor].
  destruct Hfilled as (HsH & _ & Hb & _).
  rewrite (mget_score_at _ _ _ _ _ HsH) by lia.
  destruct (Hb 0%nat 0%nat) as [-> _]; [lia|lia|by left|].
  unfold H_init. by destruct full.
Qed.

Lemma emitted_pairs_never_both_eps_witness :
  Forall (fun r => ¬ (ref_word r = "|" ∧ hyp_word r = "|")%string)
    [mkAlignedPair "a" "a" 0 0 1 1; mkAlignedPair "|" "b" 1 1 1 2]%string.
Proof.
  apply (emitted_pairs_never_both_eps ["a"]%string ["a"; "b"]%string
           match_or_mismatch (-1) (-1) "|"%string true _ (Fin 1)).
  - apply (bool_decide_unpack _). vm_compute. exact I.
  - apply (bool_decide_unpack _). vm_compute. exact I.
  - vm_compute. reflexivity.
Defined.

(** ** The traceback in local mode *)

Section Local.
Context {T : Type}.
Variables (ref hyp : list T) (sim : T → T → Z) (del ins : Z) (eps : T).
Variable st : fill_state.
Hypothesis Hfilled : filled ref hyp sim del ins false st.

Let R := length ref.
Let N := length hyp.

(** In local mode the boundary stays 0 with backpointer [(0, 0)], and no
    score is negative. *)
Lemma local_boundary m n :
  (m ≤ R)%nat → (n ≤ N)%nat → m = 0%nat ∨ n = 0%nat →
  score_at (fs_H st) m n = 0 ∧ bp_at (fs_bp st) m n = (0%nat, 0%nat).
Proof.
  intros Hm Hn H0. destruct Hfilled as (_ & _ & Hb & _).
  by destruct (Hb m n Hm Hn H0) as [-> ->].
Qed.

Lemma local_interior m n :
  interior R N m n →
  (score_at (fs_H st) m n, bp_at (fs_bp st) m n) =
  relax false del ins m n 0 (0%nat, 0%nat)
    (score_at (fs_H st) (m - 1) (n - 1)) (score_at (fs_H st) (m - 1) n)
    (score_at (fs_H st) m (n - 1)) (sim_at ref hyp sim m n).
Proof.
  intros Hint. destruct Hfilled as (_ & _ & _ & Hi & _). by rewrite (Hi m n Hint).
Qed.

Lemma local_nonneg m n :
  (m ≤ R)%nat → (n ≤ N)%nat → 0 ≤ score_at (fs_H st) m n.
Proof.
  intros Hm Hn.
  destruct (decide (m = 0%nat ∨ n = 0%nat)) as [H0|H0].
  - by destruct (local_boundary m n Hm Hn H0) as [-> _].
  - pose proof (local_interior m n ltac:(unfold interior; lia)) as Hi.
    apply (f_equal fst) in Hi. simpl in Hi. rewrite Hi.
    relax_cases; lia.
Qed.

Lemma local_bp_ok m n :
  (m ≤ R)%nat → (n ≤ N)%nat → unit_or_origin m n (bp_at (fs_bp st) m n).
Proof.
  intros Hm Hn.
  destruct (decide (m = 0%nat ∨ n = 0%nat)) as [H0|H0].
  - destruct (local_boundary m n Hm Hn H0) as [_ ->]. by left.
  - pose proof (local_interior m n ltac:(unfold interior; lia)) as Hi.
    apply (f_equal snd) in Hi. simpl in Hi. rewrite Hi.
    apply relax_bp; lia.
Qed.

(** In local mode the loop, started at a cell with that cell's score,
    raises nothing and ends, through [break], with the score 0. *)
Lemma traceback_local fuel m n out prev :
  (m ≤ R)%nat → (n ≤ N)%nat → (m + n < fuel)%nat →
  ∃ st', traceback ref hyp eps false fuel (fs_H st) (fs_bp st)
           (mkTb m n (Fin (score_at (fs_H st) m n)) out prev) = Ok st'
         ∧ tb_score st' = Fin 0.
Proof.
  pose proof Hfilled as (HsH & Hsb & _).
  revert m n out prev.
  induction fuel as [|fuel IH]; intros m n out prev Hm Hn Hlt; [lia|].
  cbn [traceback tb_continue tb_ref_index tb_hyp_index tb_output tb_prev
       tb_score score_nonneg].
  pose proof (local_nonneg m n Hm Hn) as Hge.
  destruct (0 <=? score_at (fs_H st) m n) eqn:E; [|lia]. clear E.
  rewrite (mget_bp_at R N _ m n) by done.
  destruct (bp_at (fs_bp st) m n) as [pm pn] eqn:Ebp.
  destruct (word_at_Some eps ref m) as (rw & Hrw & _); [done|].
  destruct (word_at_Some eps hyp n) as (hw & Hhw & _); [done|].
  destruct (decide ((pm, pn) = (0%nat, 0%nat))) as [[= -> ->]|Hne].
  - destruct (decide (score_at (fs_H st) m n = 0)) as [Hz|Hz].
    + rewrite (tb_try_origin_zero ref hyp eps (fs_H st) m n out);
        [|by rewrite (mget_score_at R N), Hz].
      by eexists.
    + rewrite (tb_try_origin ref hyp eps (fs_H st) m n out
                 (score_at (fs_H st) m n) rw hw (score_at (fs_H st) 0 0));
        [|by eapply mget_score_at|done|done|done
         |eapply mget_score_at; [done|lia|lia]].
      eexists. split; [done|]. simpl.
      by destruct (local_boundary 0 0) as [-> _]; [lia|lia|left|].
  - pose proof (local_bp_ok m n Hm Hn) as Hk. rewrite Ebp in Hk.
    destruct Hk as [?|[[? ?]|[[? ?]|[? ?]]]]; simpl in *; [done| | |].
    + rewrite (tb_try_diag ref hyp eps (fs_H st) m n out pm pn rw hw
                 (score_at (fs_H st) pm pn));
        [|done|lia|lia|done|done|eapply mget_score_at; [done|lia|lia]].
      apply IH; lia.
    + subst pn.
      rewrite (tb_try_del ref hyp eps (fs_H st) m n out pm rw
                 (score_at (fs_H st) pm n));
        [|done|lia|done|eapply mget_score_at; [done|lia|lia]].
      apply IH; lia.
    + subst pm.
      rewrite (tb_try_ins ref hyp eps (fs_H st) m n out pn hw
                 (score_at (fs_H st) m pn));
        [|done|lia|done|eapply mget_score_at; [done|lia|lia]].
      apply IH; lia.
Qed.

End Local.

(** In local mode the assertion of line 170 holds whenever both
    sequences are non-empty. *)
Lemma local_mode_final_score_zero {T} (ref hyp : list T) (sim : T → T → Z)
    (del ins : Z) (eps : T) :
  ref ≠ [] → hyp ≠ [] →
  ∃ out sc, smith_waterman_alignment ref hyp sim del ins eps false = Ok (out, sc).
Proof.
  intros Href Hhyp.
  assert (1 ≤ length ref)%nat as HR by (destruct ref; [done|simpl; lia]).
  assert (1 ≤ length hyp)%nat as HN by (destruct hyp; [done|simpl; lia]).
  destruct (matrices_spec ref hyp sim del ins false)
    as (H0 & bp0 & st & Hinit & Hfill & Hfilled).
  pose proof Hfilled as (_ & _ & _ & _ & Htr). unfold tracked in Htr.
  destruct (fs_max_score_element st) as [m n] eqn:Hel.
  destruct (fs_max_score st) as [|z] eqn:Hmx.
  { destruct Htr as [_ Hno]. destruct (Hno 1%nat 1%nat).
    - split; [|done]. unfold interior. lia.
    - unfold before. lia. }
  destruct Htr as ([[? ?] _] & _ & -> & _). simpl in *.
  destruct (traceback_local ref hyp sim del ins eps st Hfilled
              (S (m + n)) m n [] None) as (tb & Hrun & Hsc); [lia..|].
  exists (rev (tb_output tb)), (Fin (score_at (fs_H st) m n)).
  unfold smith_waterman_alignment. rewrite Hinit. cbn [mbind result_bind].
  rewrite Hfill. cbn [mbind result_bind]. rewrite Hel, Hmx, Hrun.
  cbn [mbind result_bind]. by rewrite Hsc.
Qed.

(** ** The gap padder *)

Lemma list_comp_seq_padding (ref_tok : list string) eps h k a :
  (k = 0 ∨ a + k ≤ length ref_tok)%nat →
  list_comp (fun i => r ← index (ref_tok !! i);
                      Ok (mkAlignment r eps i h None None)) (seq a k)
  = Ok (zip_with (fun i r => mkAlignment r eps i h None None)
          (seq a k) (drop a ref_tok)).
Proof.
  revert a. induction k as [|k IH]; intros a Hk; [done|].
  destruct (lookup_lt_is_Some_2 ref_tok a) as [r Hr]; [lia|].
  cbn [seq list_comp]. rewrite Hr. cbn [index mbind result_bind].
  rewrite IH by lia. cbn [mbind result_bind].
  by rewrite (drop_S _ _ _ Hr).
Qed.

Lemma list_comp_padding (ref_tok : list string) eps h a b :
  (b ≤ length ref_tok)%nat →
  list_comp (fun i => r ← index (ref_tok !! i);
                      Ok (mkAlignment r eps i h None None)) (range a b)
  = Ok (padding ref_tok eps h a b).
Proof. intros Hb. unfold padding, range. apply list_comp_seq_padding. lia. Qed.

Lemma padding_refi_from (ref_tok : list string) eps h a b :
  (b ≤ length ref_tok)%nat →
  refi_from <$> padding ref_tok eps h a b = range a b.
Proof.
  intros Hb. unfold padding, range.
  assert (b - a = 0 ∨ a + (b - a) ≤ length ref_tok)%nat as Hk by lia.
  revert Hk. generalize (b - a)%nat as k. intros k. revert a.
  induction k as [|k IH]; intros a Hk; [done|].
  destruct (lookup_lt_is_Some_2 ref_tok a) as [r Hr]; [lia|].
  rewrite (drop_S _ _ _ Hr). cbn [seq zip_with fmap list_fmap].
  f_equal. apply IH. lia.
Qed.

Lemma chain_head {T} (P : AlignedPair T → Prop) c1 r l c2 :
  chain P c1 (r :: l) c2 → cell_from r = c1 ∧ P r ∧ chain P (cell_to r) l c2.
Proof. inversion 1; subst. done. Qed.

(** A chain of unit steps visits every reference row between its first
    and its last from-index. *)
Lemma chain_hits {T} (P : AlignedPair T → Prop) c1 l c2 final i :
  (∀ r, P r → unit_step r) →
  chain P c1 l c2 → last l = Some final →
  (c1.1 ≤ i ≤ ref_word_from_index final)%nat →
  ∃ r, r ∈ l ∧ ref_word_from_index r = i.
Proof.
  intros Hunit Hc. revert i. induction Hc as [c|r l c HP Hc IH]; intros i Hlast Hi.
  - done.
  - destruct (decide (i = ref_word_from_index r)) as [->|Hne].
    { exists r. split; [left|done]. }
    destruct l as [|r' l'].
    { injection Hlast as <-. unfold cell_from in Hi. simpl in Hi. lia. }
    rewrite last_cons_cons in Hlast.
    destruct (IH i Hlast) as (r0 & Hr0 & Hfrom).
    { pose proof (Hunit r HP) as Hu. unfold unit_step in Hu.
      unfold cell_from, cell_to in *. simpl in *. lia. }
    exists r0. split; [by right|done].
Qed.

(** The aligner output under the fixed scores of the consumers. *)
Lemma fixed_alignment_shape (ref_tok hyp_tok : list string) (eps : string) :
  ref_tok ≠ [] → hyp_tok ≠ [] →
  ∃ out sc first final,
    smith_waterman_alignment ref_tok hyp_tok match_or_mismatch (-1) (-1)
      eps true = Ok (out, sc)
    ∧ head out = Some first ∧ last out = Some final
    ∧ (ref_word_from_index final ≤ length ref_tok)%nat
    ∧ (ref_word_from_index first ≤ ref_word_from_index final)%nat
    ∧ (∀ r, r ∈ out → (ref_word_from_index first ≤ ref_word_from_index r
                        ≤ ref_word_from_index final)%nat)
    ∧ (∀ i, (ref_word_from_index first ≤ i ≤ ref_word_from_index final)%nat →
         ∃ r, r ∈ out ∧ ref_word_from_index r = i).
Proof.
  intros Href Hhyp.
  destruct (swa_full_chain ref_tok hyp_tok match_or_mismatch (-1) (-1) eps
              Href Hhyp)
    as (st & out & m0 & mstar & Hfilled & Hrun & Hms & _ & Hchain).
  { done. }
  { pose proof (sim_at_bounds ref_tok hyp_tok 1 1) as Hb.
    unfold sim_at, match_or_mismatch in *.
    destruct ref_tok, hyp_tok; try done. simpl. case_bool_decide; lia. }
  assert (1 ≤ length hyp_tok)%nat as HN by (destruct hyp_tok; [done|simpl; lia]).
  destruct out as [|first out'] eqn:Eout.
  { inversion Hchain; subst. lia. }
  rewrite <- Eout in *.
  destruct (last out) as [final|] eqn:Hlast;
    [|apply last_None in Hlast; congruence].
  pose proof (chain_Forall _ _ _ _ Hchain) as Hedges.
  assert (final ∈ out) as Hfin by (by eapply last_Some_elem_of).
  pose proof (proj1 (Forall_forall _ _) Hedges) as Hedge.
  assert (cell_from first = (m0, 0%nat)) as Hfirst.
  { rewrite Eout in Hchain. by apply chain_head in Hchain as [? _]. }
  assert (ref_word_from_index first = m0) as Hm0
    by (by injection Hfirst as -> _).
  assert (∀ r, r ∈ out →
            (m0 ≤ ref_word_from_index r ≤ ref_word_from_index final)%nat) as Hrange.
  { intros r Hr. split.
    - pose proof (chain_from_ge _ (edge_mono ref_tok hyp_tok (fs_bp st)) _ _ _ Hchain)
        as Hge.
      by apply (proj1 (Forall_forall _ _) Hge r Hr).
    - apply list_elem_of_lookup_1 in Hr as [i Hi].
      rewrite last_lookup in Hlast.
      apply (chain_sorted _ (edge_mono ref_tok hyp_tok (fs_bp st)) _ _ _
               i (pred (length out)) _ _ Hchain); [|done|done].
      apply lookup_lt_Some in Hi. lia. }
  exists out, (Fin (score_at (fs_H st) mstar (length hyp_tok))), first, final.
  split; [done|]. split; [by rewrite Eout|]. split; [done|].
  rewrite Hm0. split_and!.
  - destruct (Hedge final Hfin) as (_ & ? & _ & _ & ? & _). lia.
  - by apply Hrange.
  - done.
  - intros i Hi.
    eapply (chain_hits (edge ref_tok hyp_tok (fs_bp st))); [|exact Hchain|done|done].
    apply (fixed_edge_unit ref_tok hyp_tok st Hfilled).
Qed.

(** [padded_alignments] on non-empty sequences: the aligner output
    between the two paddings. *)
Lemma padded_alignments_spec (ref_tok hyp_tok : list string) (eps : string) :
  ref_tok ≠ [] → hyp_tok ≠ [] →
  ∃ out sc first final,
    smith_waterman_alignment ref_tok hyp_tok match_or_mismatch (-1) (-1)
      eps true = Ok (out, sc)
    ∧ head out = Some first ∧ last out = Some final
    ∧ (ref_word_from_index final ≤ length ref_tok)%nat
    ∧ (ref_word_from_index first ≤ ref_word_from_index final)%nat
    ∧ (∀ r, r ∈ out → (ref_word_from_index first ≤ ref_word_from_index r
                        ≤ ref_word_from_index final)%nat)
    ∧ (∀ i, (ref_word_from_index first ≤ i ≤ ref_word_from_index final)%nat →
         ∃ r, r ∈ out ∧ ref_word_from_index r = i)
    ∧ padded_alignments ref_tok hyp_tok eps
      = Ok (padding ref_tok eps 0 0 (ref_word_from_index first)
            ++ (Alignment_of <$> out)
            ++ padding ref_tok eps (length hyp_tok)
                 (ref_word_from_index final + 1) (length ref_tok)).
Proof.
  intros Href Hhyp.
  destruct (fixed_alignment_shape ref_tok hyp_tok eps Href Hhyp)
    as (out & sc & first & final & Hrun & Hhead & Hlast & Hfin & Hle & Hrange & Hhits).
  exists out, sc, first, final. split_and!; [done..|].
  unfold padded_alignments. rewrite Hrun. cbn [mbind result_bind].
  rewrite list_lookup_fmap, <- head_lookup, Hhead.
  cbn [fmap option_fmap option_map index mbind result_bind].
  cbn [Alignment_of refi_from].
  rewrite list_comp_padding by lia. cbn [mbind result_bind].
  rewrite fmap_last, Hlast. cbn [fmap option_fmap option_map index mbind result_bind].
  cbn [Alignment_of refi_from].
  by rewrite list_comp_padding by lia.
Qed.

(** ** The n-gram extractor *)

Lemma group_fold (al : list Alignment) (d : gmap nat (list Alignment)) i :
  foldl (fun d a => <[refi_from a := (d !!! refi_from a) ++ [a]]> d) d al !!! i
  = d !!! i ++ bucket al i.
Proof.
  revert d. induction al as [|a al IH]; intros d.
  - by rewrite app_nil_r.
  - cbn [foldl]. rewrite IH. unfold bucket. rewrite filter_cons.
    destruct (decide (refi_from a = i)) as [->|Hne].
    + rewrite lookup_total_insert_eq. by rewrite <- app_assoc.
    + by rewrite lookup_total_insert_ne.
Qed.

Lemma group_lookup (al : list Alignment) i :
  group_by_refi_from al !!! i = bucket al i.
Proof. unfold group_by_refi_from. rewrite group_fold. by rewrite lookup_total_empty. Qed.

Lemma group_nonempty (al : list Alignment) :
  map_Forall (fun _ v => (0 < length (v : list Alignment))%nat)
    (group_by_refi_from al).
Proof.
  unfold group_by_refi_from.
  assert (map_Forall (fun _ v => (0 < length (v : list Alignment))%nat)
            (∅ : gmap nat (list Alignment))) as Hd by apply map_Forall_empty.
  revert Hd. generalize (∅ : gmap nat (list Alignment)) as d.
  induction al as [|a al IH]; intros d Hd; [done|].
  cbn [foldl]. apply IH. apply map_Forall_insert_2; [|done].
  rewrite length_app. simpl. lia.
Qed.

(** The two loops of the generator, when no pair raises. *)
Lemma for_each_yield {X Y} (f : X → result Y) (g : X → Y) xs acc :
  (∀ x, x ∈ xs → f x = Ok (g x)) →
  for_each xs (fun x yielded => t ← f x; Ok (yielded ++ [t])) acc
  = Ok (acc ++ (g <$> xs)).
Proof.
  revert acc. induction xs as [|x xs IH]; intros acc Hf.
  - by rewrite app_nil_r.
  - cbn [for_each]. rewrite Hf by left. cbn [mbind result_bind].
    rewrite IH by (intros; apply Hf; by right).
    by rewrite <- app_assoc.
Qed.

Lemma for_each_nested {X Y Z'} (body : X → Y → list Z' → result (list Z'))
    (ks : X → list Y) (g : X → Y → Z') os acc :
  (∀ o acc, o ∈ os →
     for_each (ks o) (body o) acc = Ok (acc ++ (g o <$> ks o))) →
  for_each os (fun o => for_each (ks o) (body o)) acc
  = Ok (acc ++ concat ((fun o => g o <$> ks o) <$> os)).
Proof.
  revert acc. induction os as [|o os IH]; intros acc Hf.
  - by rewrite app_nil_r.
  - cbn [for_each]. rewrite Hf by left. cbn [mbind result_bind].
    rewrite IH by (intros; apply Hf; by right).
    by rewrite <- app_assoc.
Qed.

Lemma slice_one {A} (l : list A) k x :
  l !! k = Some x → slice l k (k + 1) = [x].
Proof.
  intros Hk. unfold slice. replace (k + 1 - k)%nat with 1%nat by lia.
  rewrite (drop_S _ _ _ Hk). done.
Qed.

(** The pair for order [o] and start [k], when the first and the last
    bucket of the window are non-empty. *)
Lemma ngram_tuple_window (ref_tok hyp_tok : list string) (al : list Alignment) o k :
  (1 ≤ o)%nat → bucket al k ≠ [] → bucket al (k + o - 1) ≠ [] →
  ngram_tuple ref_tok hyp_tok (group_by_refi_from al) o k
  = Ok (aligned_window ref_tok hyp_tok al o k).
Proof.
  intros Ho Hk Hko. unfold ngram_tuple, aligned_window.
  assert ((fun i => group_by_refi_from al !!! i) <$> range k (k + o)
          = bucket al <$> range k (k + o)) as ->.
  { apply list_fmap_ext. intros ? i _. apply group_lookup. }
  unfold range. replace (k + o - k)%nat with o by lia.
  destruct (bucket al k) as [|first bk] eqn:Ek; [done|].
  destruct (last (bucket al (k + o - 1))) as [final|] eqn:Elast;
    [|apply last_None in Elast; congruence].
  assert (concat (bucket al <$> seq k o) !! 0%nat = Some first) as ->.
  { destruct o as [|o]; [lia|]. cbn [seq fmap list_fmap concat]. by rewrite Ek. }
  assert (last (concat (bucket al <$> seq k o)) = Some final) as ->.
  { destruct o as [|o]; [lia|]. rewrite seq_S, fmap_app, concat_app.
    cbn [fmap list_fmap concat]. rewrite app_nil_r.
    replace (k + S o - 1)%nat with (k + o)%nat in Elast by lia.
    rewrite last_app, Elast. done. }
  cbn [index mbind result_bind head].
  assert (refi_from first = k) as ->.
  { assert (first ∈ bucket al k) as Hin by (rewrite Ek; left).
    by apply list_elem_of_filter in Hin as [? _]. }
  assert (refi_from final = (k + o - 1)%nat) as ->.
  { apply last_Some_elem_of in Elast.
    by apply list_elem_of_filter in Elast as [? _]. }
  by replace (k + o - 1 + 1)%nat with (k + o)%nat by lia.
Qed.

(** The reference positions of the padded alignment: every position of
    the reference, and nothing beyond [len(ref)]. *)
Lemma padded_alignments_positions (ref_tok hyp_tok : list string) (eps : string) :
  ref_tok ≠ [] → hyp_tok ≠ [] →
  ∃ al,
    padded_alignments ref_tok hyp_tok eps = Ok al
    ∧ (∀ i, (i < length ref_tok)%nat → i ∈ refi_from <$> al)
    ∧ (∀ i, i ∈ refi_from <$> al → (i ≤ length ref_tok)%nat).
Proof.
  intros Href Hhyp.
  destruct (padded_alignments_spec ref_tok hyp_tok eps Href Hhyp)
    as (out & sc & first & final & _ & _ & _ & Hfin & Hle & Hrange & Hhits & ->).
  eexists. split; [done|].
  set (al := padding ref_tok eps 0 0 (ref_word_from_index first)
             ++ (Alignment_of <$> out)
             ++ padding ref_tok eps (length hyp_tok)
                  (ref_word_from_index final + 1) (length ref_tok)).
  assert (∀ i, i ∈ refi_from <$> al ↔
            (i < ref_word_from_index first)%nat
            ∨ (∃ r, r ∈ out ∧ ref_word_from_index r = i)
            ∨ (ref_word_from_index final < i < length ref_tok)%nat) as Hmem.
  { intros i. unfold al. rewrite !fmap_app, !padding_refi_from by lia.
    rewrite !elem_of_app. unfold range. rewrite !elem_of_seq.
    rewrite <- list_fmap_compose.
    rewrite list_elem_of_fmap. split.
    - intros [?|[(r & -> & ?)|?]];
        [left; lia|right; left; by exists r|right; right; lia].
    - intros [?|[(r & ? & <-)|?]];
        [left; lia|right; left; by exists r|right; right; lia]. }
  split.
  - intros i Hi. apply Hmem.
    destruct (decide (i < ref_word_from_index first)%nat); [by left|].
    destruct (decide (i ≤ ref_word_from_index final)%nat); [|right; right; lia].
    right. left. apply Hhits. lia.
  - intros i Hi. apply Hmem in Hi as [?|[(r & Hr & <-)|?]]; [lia| |lia].
    specialize (Hrange r Hr). lia.
Qed.

Lemma bucket_nonempty (al : list Alignment) i :
  i ∈ refi_from <$> al → bucket al i ≠ [].
Proof.
  intros Hi. apply list_elem_of_fmap in Hi as (a & -> & Ha).
  intros Hnil. assert (a ∈ bucket al (refi_from a)) as Hin
    by (by apply list_elem_of_filter).
  rewrite Hnil in Hin. by apply elem_of_nil in Hin.
Qed.

(** C5 (amended).  For a non-empty reference and a non-empty hypothesis,
    [padded_alignments] returns a list whose set of [refi_from] values
    contains every reference position [0 .. len(ref)-1] and no value
    above [len(ref)], so that the bucket of every reference position is
    non-empty.  (The value [len(ref)] itself occurs when the alignment
    ends with insertions after the last reference token.) *)
Theorem padded_alignments_reference_coverage (ref_tok hyp_tok : list string)
    (eps : string) :
  ref_tok ≠ [] → hyp_tok ≠ [] →
  ∃ al,
    padded_alignments ref_tok hyp_tok eps = Ok al
    ∧ set_seq 0 (length ref_tok) ⊆ (list_to_set (refi_from <$> al) : gset nat)
    ∧ (list_to_set (refi_from <$> al) : gset nat)
        ⊆ set_seq 0 (S (length ref_tok))
    ∧ ∀ i, (i < length ref_tok)%nat → group_by_refi_from al !!! i ≠ [].
Proof.
  intros Href Hhyp.
  destruct (padded_alignments_positions ref_tok hyp_tok eps Href Hhyp)
    as (al & Hpad & Hcov & Hbound).
  exists al. split; [done|]. split_and!.
  - intros i Hi. apply elem_of_set_seq in Hi. apply elem_of_list_to_set.
    apply Hcov. lia.
  - intros i Hi. apply elem_of_list_to_set in Hi. apply elem_of_set_seq.
    specialize (Hbound i Hi). lia.
  - intros i Hi. rewrite group_lookup. by apply bucket_nonempty, Hcov.
Qed.

Lemma padded_alignments_reference_coverage_witness :
  ∃ al,
    padded_alignments ["a"; "b"]%string ["b"]%string "|"%string = Ok al
    ∧ set_seq 0 2 ⊆ (list_to_set (refi_from <$> al) : gset nat)
    ∧ (list_to_set (refi_from <$> al) : gset nat) ⊆ set_seq 0 3
    ∧ ∀ i, (i < 2)%nat → group_by_refi_from al !!! i ≠ [].
Proof.
  apply (padded_alignments_reference_coverage ["a"; "b"]%string ["b"]%string
           "|"%string).
  - discriminate.
  - discriminate.
Defined.

(** C5 as stated fails: for [ref = ["a"]], [hyp = ["a","b"]] the
    trailing insertion record has [refi_from = 1 = len(ref)], so the set
    of positions is [{0, 1}], not [{0}]; and for an empty hypothesis
    [padded_alignments] raises instead of returning. *)
Lemma padded_alignments_position_past_the_reference :
  (∃ al,
     padded_alignments ["a"]%string ["a"; "b"]%string "|"%string = Ok al
     ∧ refi_from <$> al = [0; 1]%nat
     ∧ (list_to_set (refi_from <$> al) : gset nat)
       ≠ set_seq 0 (length ["a"]%string))
  ∧ padded_alignments ["a"]%string [] "|"%string = Raise IndexError.
Proof.
  split; [|vm_compute; reflexivity].
  eexists. split; [vm_compute; reflexivity|]. split; [reflexivity|].
  intros Heq. assert (1%nat ∈ (set_seq 0 1 : gset nat)) as Hin.
  { cbn [length] in Heq. rewrite <- Heq. apply elem_of_list_to_set.
    cbn. right. left. }
  apply elem_of_set_seq in Hin. lia.
Qed.

(** C6 (amended).  For a non-empty reference and a non-empty hypothesis,
    [calc_aligned_ngram_tuples] raises nothing and yields its pairs by
    increasing order [o], then by increasing start [k]; the pair for
    [(o, k)] is the hypothesis slice between the hypothesis from-indices
    of the first padded record at position [k] and the last one at
    position [k+o-1], with the reference window [ref[k : k+o]].  For
    order 1 that is one pair per reference position, in increasing
    position, whose reference n-gram is the single token [ref[k]]. *)
Theorem aligned_ngram_tuples_order (ref_tok hyp_tok : list string) (order : nat) :
  ref_tok ≠ [] → hyp_tok ≠ [] →
  ∃ al,
    padded_alignments ref_tok hyp_tok "|" = Ok al
    ∧ calc_aligned_ngram_tuples ref_tok hyp_tok order
      = Ok (concat ((fun o => aligned_window ref_tok hyp_tok al o
                                <$> range 0 (length ref_tok - (o - 1)))
                    <$> range 1 (order + 1)))
    ∧ calc_aligned_ngram_tuples ref_tok hyp_tok 1
      = Ok (aligned_window ref_tok hyp_tok al 1 <$> range 0 (length ref_tok))
    ∧ ∀ k r, ref_tok !! k = Some r →
        (aligned_window ref_tok hyp_tok al 1 k).2 = [r].
Proof.
  intros Href Hhyp.
  destruct (padded_alignments_positions ref_tok hyp_tok "|" Href Hhyp)
    as (al & Hpad & Hcov & _).
  exists al. split; [done|].
  assert (∀ K, calc_aligned_ngram_tuples ref_tok hyp_tok K
               = Ok (concat ((fun o => aligned_window ref_tok hyp_tok al o
                                         <$> range 0 (length ref_tok - (o - 1)))
                             <$> range 1 (K + 1)))) as Hcalc.
  { intros K. unfold calc_aligned_ngram_tuples. rewrite Hpad.
    cbn [mbind result_bind].
    rewrite bool_decide_true by apply group_nonempty.
    rewrite (for_each_nested _ _ (aligned_window ref_tok hyp_tok al)); [done|].
    intros o acc Ho. apply elem_of_seq in Ho.
    apply for_each_yield. intros k Hk. apply elem_of_seq in Hk.
    apply ngram_tuple_window; [lia|..]; apply bucket_nonempty, Hcov; lia. }
  split; [apply Hcalc|]. split.
  - rewrite Hcalc. change (range 1 (1 + 1)) with [1%nat].
    cbn [fmap list_fmap concat]. rewrite app_nil_r.
    by replace (length ref_tok - (1 - 1))%nat with (length ref_tok) by lia.
  - intros k r Hk. unfold aligned_window. cbn [snd]. by apply slice_one.
Qed.

Lemma aligned_ngram_tuples_order_witness :
  ∃ al,
    padded_alignments ["a"; "b"]%string ["b"]%string "|" = Ok al
    ∧ calc_aligned_ngram_tuples ["a"; "b"]%string ["b"]%string 2
      = Ok (concat ((fun o => aligned_window ["a"; "b"]%string ["b"]%string al o
                                <$> range 0 (2 - (o - 1)))
                    <$> range 1 3))
    ∧ calc_aligned_ngram_tuples ["a"; "b"]%string ["b"]%string 1
      = Ok (aligned_window ["a"; "b"]%string ["b"]%string al 1 <$> range 0 2)
    ∧ ∀ k r, ["a"; "b"]%string !! k = Some r →
        (aligned_window ["a"; "b"]%string ["b"]%string al 1 k).2 = [r].
Proof.
  apply (aligned_ngram_tuples_order ["a"; "b"]%string ["b"]%string 2).
  - discriminate.
  - discriminate.
Defined.

(** C6 as stated fails: for [ref = ["a","b"]], [hyp = ["b"]] the padded
    alignment pairs "a" with the sentinel only, yet the pair yielded for
    position 0 has the hypothesis n-gram ["b"]; and for an empty
    hypothesis the generator raises instead of yielding. *)
Lemma unigram_of_a_deleted_token_borrows_a_hypothesis_token :
  (∃ al,
     padded_alignments ["a"; "b"]%string ["b"]%string "|" = Ok al
     ∧ calc_aligned_ngram_tuples ["a"; "b"]%string ["b"]%string 1
       = Ok [(["b"], ["a"]); (["b"], ["b"])]%string
     ∧ position_tokens "|" al <$> range 0 2
       = [([], ["a"]); (["b"], ["b"])]%string)
  ∧ calc_aligned_ngram_tuples ["a"]%string [] 1 = Raise IndexError.
Proof.
  split; [|vm_compute; reflexivity].
  eexists. split; [vm_compute; reflexivity|].
  split; vm_compute; reflexivity.
Qed.

(** * Further properties of the program

    ** Outcomes, the recurrence and the best cell *)

(** The score [relax] returns is the largest of its candidates, and its
    backpointer names the candidate taken. *)
Lemma relax_max_full del ins m n h0 b0 d u l s :
  (relax true del ins m n h0 b0 d u l s).1
  = Z.max (Z.max (Z.max h0 (d + s)) (u + del)) (l + ins).
Proof. relax_cases; lia. Qed.

Lemma relax_max_local del ins m n b0 d u l s :
  (relax false del ins m n 0 b0 d u l s).1
  = Z.max (Z.max (Z.max 0 (d + s)) (u + del)) (l + ins).
Proof. relax_cases; lia. Qed.

Lemma relax_backpointer full del ins m n h0 d u l s :
  let c := relax full del ins m n h0 (0%nat, 0%nat) d u l s in
  (c = (h0, (0%nat, 0%nat)))
  ∨ (c = (d + s, ((m - 1)%nat, (n - 1)%nat)))
  ∨ (c = (u + del, ((m - 1)%nat, n)))
  ∨ (c = (l + ins, (m, (n - 1)%nat))).
Proof. simpl. relax_cases; auto. Qed.

Section FullOk.
Context {T : Type}.
Variables (ref hyp : list T) (eps : T).
Variables (H : matrix Z) (bp : matrix (nat * nat)).
Hypothesis HsH : shaped (length ref) (length hyp) H.
Hypothesis Hsb : shaped (length ref) (length hyp) bp.
Hypothesis Hbp : ∀ m n, (m ≤ length ref)%nat → (1 ≤ n ≤ length hyp)%nat →
  unit_or_origin m n (bp_at bp m n).

Lemma traceback_full_ok fuel m n s out prev :
  (m ≤ length ref)%nat → (n ≤ length hyp)%nat → (m + n < fuel)%nat →
  ∃ st', traceback ref hyp eps true fuel H bp (mkTb m n s out prev) = Ok st'.
Proof.
  revert m n s out prev.
  induction fuel as [|fuel IH]; intros m n s out prev Hm Hn Hlt; [lia|].
  cbn [traceback tb_continue tb_ref_index tb_hyp_index tb_output tb_prev].
  case_bool_decide as Hn0; [|by eexists].
  rewrite (mget_bp_at _ _ bp m n Hsb) by done.
  destruct (bp_at bp m n) as [pm pn] eqn:Ebp.
  destruct (word_at_Some eps ref m) as (rw & Hrw & _); [done|].
  destruct (word_at_Some eps hyp n) as (hw & Hhw & _); [done|].
  destruct (decide ((pm, pn) = (0%nat, 0%nat))) as [[= -> ->]|Hne].
  - destruct (decide (score_at H m n = 0)) as [Hz|Hz].
    + rewrite (tb_try_origin_zero ref hyp eps H m n out);
        [|by rewrite (mget_score_at _ _ _ _ _ HsH), Hz].
      by eexists.
    + rewrite (tb_try_origin ref hyp eps H m n out (score_at H m n) rw hw
                 (score_at H 0 0));
        [|by eapply mget_score_at|done|done|done
         |eapply mget_score_at; [done|lia|lia]].
      by eexists.
  - pose proof (Hbp m n Hm ltac:(lia)) as Hk. rewrite Ebp in Hk.
    destruct Hk as [?|[[? ?]|[[? ?]|[? ?]]]]; simpl in *; [done| | |].
    + rewrite (tb_try_diag ref hyp eps H m n out pm pn rw hw (score_at H pm pn));
        [|done|lia|lia|done|done|eapply mget_score_at; [done|lia|lia]].
      apply IH; lia.
    + subst pn.
      rewrite (tb_try_del ref hyp eps H m n out pm rw (score_at H pm n));
        [|done|lia|done|eapply mget_score_at; [done|lia|lia]].
      apply IH; lia.
    + subst pm.
      rewrite (tb_try_ins ref hyp eps H m n out pn hw (score_at H m pn));
        [|done|lia|done|eapply mget_score_at; [done|lia|lia]].
      apply IH; lia.
Qed.

End FullOk.

(** X1.  The aligner has two outcomes only: it returns an alignment and
    a score, or, in local mode with an empty reference or an empty
    hypothesis, its final assertion fails.  In particular the traceback
    never reaches its [except] clause and never runs on for ever, in
    either mode and whatever the scores. *)
Theorem aligner_outcomes {T} (ref hyp : list T) (sim : T → T → Z)
    (del ins : Z) (eps : T) (full : bool) :
  (∃ out sc, smith_waterman_alignment ref hyp sim del ins eps full = Ok (out, sc))
  ∨ (full = false ∧ (ref = [] ∨ hyp = [])
     ∧ smith_waterman_alignment ref hyp sim del ins eps full
       = Raise AssertionError).
Proof.
  destruct full.
  - left.
    destruct (matrices_spec ref hyp sim del ins true)
      as (H0 & bp0 & st & Hinit & Hfill & Hfilled).
    pose proof Hfilled as (HsH & Hsb & _ & _ & Htr).
    destruct (fs_max_score_element st) as [m n] eqn:Hel.
    assert ((m ≤ length ref)%nat ∧ (n ≤ length hyp)%nat) as [Hm Hn].
    { unfold tracked in Htr. destruct (fs_max_score st).
      - destruct Htr as [[= -> ->] _]. lia.
      - destruct Htr as ([[? ?] _] & _). simpl in *. lia. }
    destruct (traceback_full_ok ref hyp eps (fs_H st) (fs_bp st) HsH Hsb
                (full_bp_ok ref hyp sim del ins st Hfilled)
                (S (m + n)) m n (fs_max_score st) [] None) as [tb Hrun];
      [done|done|lia|].
    exists (rev (tb_output tb)), (fs_max_score st).
    unfold smith_waterman_alignment. rewrite Hinit. cbn [mbind result_bind].
    rewrite Hfill. cbn [mbind result_bind]. rewrite Hel, Hrun. done.
  - destruct (decide (ref = [] ∨ hyp = [])) as [Hempty|Hne].
    + right. split; [done|]. split; [done|].
      destruct (matrices_spec ref hyp sim del ins false)
        as (H0 & bp0 & st & Hinit & Hfill & Hfilled).
      destruct (filled_empty _ _ _ _ _ _ _ Hempty Hfilled) as [Hmx Hel].
      unfold smith_waterman_alignment. rewrite Hinit. cbn [mbind result_bind].
      rewrite Hfill. cbn [mbind result_bind]. rewrite Hel, Hmx. done.
    + left. apply local_mode_final_score_zero; intros ->; apply Hne; auto.
Qed.

(** X2.  The two matrix phases raise nothing.  The fill leaves row 0 and
    column 0 of both matrices as they were initialised, and every
    interior score is the largest of four candidates: the cell's initial
    score ([-(len(hyp)+2)] in full-hypothesis mode, 0 in local mode),
    the diagonal neighbour plus the similarity of the two tokens, the
    upper neighbour plus [del_score], and the left neighbour plus
    [ins_score]. *)
Theorem score_matrix_recurrence {T} (ref hyp : list T) (sim : T → T → Z)
    (del ins : Z) (full : bool) :
  ∃ H0 bp0 st,
    init_matrices ref hyp ins full = Ok (H0, bp0)
    ∧ fill ref hyp sim del ins full (mkFill H0 bp0 NegInf (0%nat, 0%nat)) = Ok st
    ∧ (∀ m n, (m ≤ length ref)%nat → (n ≤ length hyp)%nat →
         m = 0%nat ∨ n = 0%nat →
         mget (fs_H st) m n = mget H0 m n ∧ mget (fs_bp st) m n = mget bp0 m n)
    ∧ (∀ m n, (1 ≤ m ≤ length ref)%nat → (1 ≤ n ≤ length hyp)%nat →
         score_at (fs_H st) m n
         = Z.max (Z.max (Z.max (if full then - (Z.of_nat (length hyp) + 2) else 0)
                               (score_at (fs_H st) (m - 1) (n - 1)
                                + sim_at ref hyp sim m n))
                        (score_at (fs_H st) (m - 1) n + del))
                 (score_at (fs_H st) m (n - 1) + ins)).
Proof.
  destruct (init_matrices_spec ref hyp ins full)
    as (H0 & bp0 & Hinit & HsH0 & Hsb0 & Hcells).
  destruct (fill_spec ref hyp sim del ins full H0 bp0 HsH0 Hsb0)
    as (st & Hfill & HsH & Hsb & Hsame & Hdone & _).
  exists H0, bp0, st. split; [done|]. split; [done|]. split.
  - intros m n Hm Hn H0mn.
    rewrite (mget_score_at _ _ _ _ _ HsH), (mget_score_at _ _ _ _ _ HsH0),
      (mget_bp_at _ _ _ _ _ Hsb), (mget_bp_at _ _ _ _ _ Hsb0) by done.
    destruct (Hsame m n Hm Hn) as [-> ->]; [|done].
    unfold interior. lia.
  - intros m n Hm Hn.
    pose proof (Hdone m n ltac:(unfold interior; lia)
                  ltac:(unfold before; lia)) as Hc.
    apply (f_equal fst) in Hc. simpl in Hc. rewrite Hc.
    destruct (Hcells m n) as [-> _]; [lia..|]. unfold H_init.
    destruct full.
    + rewrite !decide_False by lia. apply relax_max_full.
    + apply relax_max_local.
Qed.

(** X3.  After the fill, in either mode, every interior cell holds one
    of four candidates and its backpointer names it, with the ties
    broken as the three tests of the loop body break them.  With [f] the
    cell's initial score ([-(len(hyp)+2)] in full-hypothesis mode, 0 in
    local mode): the cell keeps [f] and the backpointer [(0, 0)] when no
    candidate is taken; it takes the diagonal candidate when that one is
    at least [f] (full mode) or above 0 (local mode) and neither other
    candidate is strictly better; the deletion candidate when it is
    strictly above both [f] and the diagonal candidate and the insertion
    candidate is not strictly better; the insertion candidate when it is
    strictly above all the others. *)
Theorem backpointers_name_the_winning_candidate {T} (ref hyp : list T)
    (sim : T → T → Z) (del ins : Z) (full : bool) :
  ∃ H0 bp0 st,
    init_matrices ref hyp ins full = Ok (H0, bp0)
    ∧ fill ref hyp sim del ins full (mkFill H0 bp0 NegInf (0%nat, 0%nat)) = Ok st
    ∧ ∀ m n, (1 ≤ m ≤ length ref)%nat → (1 ≤ n ≤ length hyp)%nat →
        let f := if full then - (Z.of_nat (length hyp) + 2) else 0 in
        let d := score_at (fs_H st) (m - 1) (n - 1) + sim_at ref hyp sim m n in
        let u := score_at (fs_H st) (m - 1) n + del in
        let l := score_at (fs_H st) m (n - 1) + ins in
        (bp_at (fs_bp st) m n = (0%nat, 0%nat) ∧ score_at (fs_H st) m n = f
         ∧ (if full then d < f else d ≤ f) ∧ u ≤ f ∧ l ≤ f)
        ∨ (bp_at (fs_bp st) m n = ((m - 1)%nat, (n - 1)%nat)
           ∧ score_at (fs_H st) m n = d
           ∧ (if full then f ≤ d else f < d) ∧ u ≤ d ∧ l ≤ d)
        ∨ (bp_at (fs_bp st) m n = ((m - 1)%nat, n)
           ∧ score_at (fs_H st) m n = u
           ∧ f < u ∧ d < u ∧ l ≤ u)
        ∨ (bp_at (fs_bp st) m n = (m, (n - 1)%nat)
           ∧ score_at (fs_H st) m n = l
           ∧ f < l ∧ d < l ∧ u < l).
Proof.
  destruct (matrices_spec ref hyp sim del ins full)
    as (H0 & bp0 & st & Hinit & Hfill & Hfilled).
  exists H0, bp0, st. split; [done|]. split; [done|].
  intros m n Hm Hn. destruct Hfilled as (_ & _ & _ & Hi & _).
  specialize (Hi m n ltac:(unfold interior; lia)).
  assert (H_init full (length hyp) ins m n
          = if full then - (Z.of_nat (length hyp) + 2) else 0) as Hh0.
  { unfold H_init. destruct full; [|done]. by rewrite !decide_False by lia. }
  rewrite Hh0 in Hi. cbn zeta. revert Hi.
  destruct full; relax_cases; intros [= -> ->];
    first [left; split_and!; (done || lia)
          |right; left; split_and!; (done || lia)
          |right; right; left; split_and!; (done || lia)
          |right; right; right; split_and!; (done || lia)].
Qed.

(** X4.  The cell the traceback starts from.  With an empty reference or
    an empty hypothesis no cell is selected: [max_score] stays minus
    infinity and [max_score_element] stays [(0, 0)].  Otherwise the
    selected cell is an interior cell, of the last column in
    full-hypothesis mode, [max_score] is its score, no candidate cell
    scores more, and every candidate cell after it in row-major order
    scores strictly less: of several best cells the last one visited is
    selected. *)
Theorem best_cell_selection {T} (ref hyp : list T) (sim : T → T → Z)
    (del ins : Z) (full : bool) :
  ∃ H0 bp0 st,
    init_matrices ref hyp ins full = Ok (H0, bp0)
    ∧ fill ref hyp sim del ins full (mkFill H0 bp0 NegInf (0%nat, 0%nat)) = Ok st
    ∧ (ref = [] ∨ hyp = [] →
       fs_max_score st = NegInf ∧ fs_max_score_element st = (0%nat, 0%nat))
    ∧ (ref ≠ [] → hyp ≠ [] →
       ∃ m n,
         fs_max_score_element st = (m, n)
         ∧ fs_max_score st = Fin (score_at (fs_H st) m n)
         ∧ (1 ≤ m ≤ length ref)%nat ∧ (1 ≤ n ≤ length hyp)%nat
         ∧ (full = true → n = length hyp)
         ∧ ∀ i j, (1 ≤ i ≤ length ref)%nat → (1 ≤ j ≤ length hyp)%nat →
             (full = true → j = length hyp) →
             score_at (fs_H st) i j ≤ score_at (fs_H st) m n
             ∧ ((m < i ∨ m = i ∧ n < j)%nat →
                score_at (fs_H st) i j < score_at (fs_H st) m n)).
Proof.
  destruct (matrices_spec ref hyp sim del ins full)
    as (H0 & bp0 & st & Hinit & Hfill & Hfilled).
  exists H0, bp0, st. split; [done|]. split; [done|]. split.
  - intros Hempty. by eapply filled_empty.
  - intros Href Hhyp.
    assert (1 ≤ length ref)%nat as HR by (destruct ref; [done|simpl; lia]).
    assert (1 ≤ length hyp)%nat as HN by (destruct hyp; [done|simpl; lia]).
    destruct Hfilled as (_ & _ & _ & _ & Htr). unfold tracked in Htr.
    destruct (fs_max_score_element st) as [m n].
    destruct (fs_max_score st) as [|z].
    { destruct Htr as [_ Hno]. destruct (Hno 1%nat (length hyp)).
      - split; [unfold interior; lia|done].
      - unfold before. lia. }
    destruct Htr as ([[? ?] HelN] & _ & -> & Hall). simpl in *.
    exists m, n. split; [done|]. split; [done|]. split; [lia|]. split; [lia|].
    split; [done|].
    intros i j Hi Hj HjN. destruct (Hall i j) as [Hle Hlt].
    + split; [unfold interior; lia|done].
    + unfold before. lia.
    + split; [done|]. intros ?. apply Hlt. unfold before. lia.
Qed.

(** X19.  The matrices before the fill, in either mode: both have
    [len(ref)+1] rows of [len(hyp)+1] cells; every backpointer is
    [(0, 0)] except, in full-hypothesis mode, those of row 0 from column
    1 on, which point one column to the left; and in local mode every
    score is 0. *)
Theorem initial_matrices {T} (ref hyp : list T) (ins : Z) (full : bool) :
  ∃ H0 bp0,
    init_matrices ref hyp ins full = Ok (H0, bp0)
    ∧ length H0 = S (length ref) ∧ length bp0 = S (length ref)
    ∧ Forall (fun row => length row = S (length hyp)) H0
    ∧ Forall (fun row => length row = S (length hyp)) bp0
    ∧ (∀ m n, (m ≤ length ref)%nat → (n ≤ length hyp)%nat →
         mget bp0 m n
         = Some (if full && bool_decide (m = 0%nat) && bool_decide (0 < n)%nat
                 then (0%nat, (n - 1)%nat) else (0%nat, 0%nat)))
    ∧ (∀ m n, (m ≤ length ref)%nat → (n ≤ length hyp)%nat →
         mget H0 m n
         = Some (if full
                 then (if decide (n = 0%nat) then 0
                       else if decide (m = 0%nat) then Z.of_nat n * ins
                       else - (Z.of_nat (length hyp) + 2))
                 else 0)).
Proof.
  destruct (init_matrices_spec ref hyp ins full)
    as (H0 & bp0 & Hinit & [HlH HrH] & [Hlb Hrb] & Hcells).
  exists H0, bp0. split; [done|]. split; [done|]. split; [done|].
  split; [done|]. split; [done|]. split.
  - intros m n Hm Hn.
    rewrite (mget_bp_at (length ref) (length hyp)) by done.
    by destruct (Hcells m n Hm Hn) as [_ ->].
  - intros m n Hm Hn.
    rewrite (mget_score_at (length ref) (length hyp)) by done.
    by destruct (Hcells m n Hm Hn) as [-> _].
Qed.

(** ** The tokens of the records *)
Section Words.
Context {T : Type}.
Variables (ref hyp : list T) (eps : T) (full : bool).
Variables (H : matrix Z) (bp : matrix (nat * nat)).

Lemma traceback_word_rule fuel st st' :
  traceback ref hyp eps full fuel H bp st = Ok st' →
  Forall (word_rule ref hyp eps) (tb_output st) →
  Forall (word_rule ref hyp eps) (tb_output st').
Proof.
  revert st. induction fuel as [|fuel IH]; intros st Hrun Hout; [done|].
  simpl in Hrun. destruct (tb_continue full st) eqn:Hcont;
    [|by injection Hrun as <-].
  destruct (mget bp (tb_ref_index st) (tb_hyp_index st)) as [[pm pn]|]; [|done].
  destruct (tb_try ref hyp eps H (tb_ref_index st) (tb_hyp_index st)
              (tb_output st) pm pn) as [[b st1]|] eqn:Htry; [|done].
  assert (Forall (word_rule ref hyp eps) (tb_output st1)) as Hout1.
  { apply tb_try_inv in Htry as [(_ & -> & _)|(rw & hw & s' & -> & _ & Hk)];
      [done|].
    simpl. apply Forall_app. split; [done|]. apply Forall_singleton.
    unfold word_rule, cell_from, cell_to. simpl.
    destruct Hk as [(_ & Hb & _ & Hrw & Hhw)
                   |(_ & _ & [(? & Hrw & Hhw)|[(? & Hrw & ->)|(? & -> & Hhw)]])].
    - left. done.
    - right. left. done.
    - right. right. left. done.
    - right. right. right. done. }
  destruct b; [by eapply IH|by injection Hrun as <-].
Qed.

End Words.

Lemma swa_word_rule {T} (ref hyp : list T) (sim : T → T → Z) (del ins : Z)
    (eps : T) (full : bool) out sc :
  smith_waterman_alignment ref hyp sim del ins eps full = Ok (out, sc) →
  Forall (word_rule ref hyp eps) out.
Proof.
  unfold smith_waterman_alignment.
  destruct (init_matrices ref hyp ins full) as [[H0 bp0]| |]; [|done..].
  cbn [mbind result_bind].
  destruct (fill ref hyp sim del ins full _) as [st| |]; [|done..].
  cbn [mbind result_bind].
  destruct (fs_max_score_element st) as [m n].
  destruct (traceback ref hyp eps full (S (m + n)) (fs_H st) (fs_bp st)
              (mkTb m n (fs_max_score st) [] None)) as [tb| |] eqn:Hrun; [|done..].
  cbn [mbind result_bind].
  destruct (full || score_is_zero (tb_score tb)); [|done].
  intros [= <- _]. apply Forall_rev.
  by eapply traceback_word_rule; [exact Hrun|constructor].
Qed.

Lemma word_rule_unit {T} (ref hyp : list T) (eps : T) (r : AlignedPair T) :
  word_rule ref hyp eps r → unit_step r → (0 < hyp_word_to_index r)%nat →
  aligned_step ref hyp eps r.
Proof.
  destruct r as [rw hw pm pn m n]. unfold word_rule, unit_step, aligned_step,
    cell_from, cell_to, word_at. simpl.
  intros Hw Hu Hn.
  destruct Hu as [[-> ->]|[[-> ->]|[-> ->]]].
  - left. split; [done|].
    destruct Hw as [(_ & Hr & Hh)|[(_ & Hr & Hh)|[([? ?] & _)|([? ?] & _)]]];
      try lia.
    + rewrite decide_True in Hr by lia. rewrite decide_True in Hh by lia.
      replace (pm + 1 - 1)%nat with pm in Hr by lia.
      by replace (pn + 1 - 1)%nat with pn in Hh by lia.
    + rewrite decide_True in Hr by lia. rewrite decide_True in Hh by lia.
      replace (pm + 1 - 1)%nat with pm in Hr by lia.
      by replace (pn + 1 - 1)%nat with pn in Hh by lia.
  - right. left. split; [done|].
    destruct Hw as [([[=]|[=]] & _)|[([? ?] & _)|[(_ & Hr & ->)|([? ?] & _)]]];
      try lia.
    rewrite decide_True in Hr by lia.
    by replace (pm + 1 - 1)%nat with pm in Hr by lia.
  - right. right. split; [done|].
    destruct Hw as [([[=]|[= -> ->]] & Hr & Hh)|[([? ?] & _)|[([? ?] & _)|(_ & -> & Hh)]]];
      try lia.
    + rewrite decide_False in Hr by lia. injection Hr as <-.
      rewrite decide_True in Hh by lia. done.
    + rewrite decide_True in Hh by lia.
      by replace (pn + 1 - 1)%nat with pn in Hh by lia.
Qed.

Lemma chain_and {T} (P Q : AlignedPair T → Prop) c1 l c2 :
  chain P c1 l c2 → Forall Q l → chain (fun r => P r ∧ Q r) c1 l c2.
Proof.
  induction 1 as [c|r l c HP Hc IH]; intros HQ; [constructor|].
  apply Forall_cons in HQ as [? ?]. constructor; auto.
Qed.

(** X5.  Whatever the scores and the mode, the tokens of every returned
    record come from the inputs: each token is the sentinel or the input
    token just before the record's to-index, and a record that advances
    by one in a sequence carries the token of that sequence at its
    from-index. *)
Theorem emitted_tokens_come_from_the_inputs {T} (ref hyp : list T)
    (sim : T → T → Z) (del ins : Z) (eps : T) (full : bool)
    (out : list (AlignedPair T)) (sc : score) :
  smith_waterman_alignment ref hyp sim del ins eps full = Ok (out, sc) →
  Forall (fun r =>
    (ref_word r = eps ∨ ref !! (ref_word_to_index r - 1)%nat = Some (ref_word r))
    ∧ (hyp_word r = eps
       ∨ hyp !! (hyp_word_to_index r - 1)%nat = Some (hyp_word r))
    ∧ (ref_word_to_index r = (ref_word_from_index r + 1)%nat →
       ref !! ref_word_from_index r = Some (ref_word r))
    ∧ (hyp_word_to_index r = (hyp_word_from_index r + 1)%nat →
       hyp !! hyp_word_from_index r = Some (hyp_word r))) out.
Proof.
  intros Hrun. apply swa_word_rule in Hrun.
  eapply Forall_impl; [exact Hrun|].
  intros [rw hw pm pn m n]. unfold word_rule, cell_from, cell_to, word_at.
  cbn [ref_word hyp_word ref_word_from_index hyp_word_from_index
       ref_word_to_index hyp_word_to_index].
  assert (∀ (l : list T) i j w,
            (if decide (0 < i)%nat then l !! (i - 1)%nat else Some eps) = Some w →
            (w = eps ∨ l !! (i - 1)%nat = Some w)
            ∧ (i = (j + 1)%nat → l !! j = Some w)) as Hword.
  { intros l i j w Hw. case_decide.
    - split; [by right|]. intros ->.
      by replace (j + 1 - 1)%nat with j in Hw by lia.
    - injection Hw as <-. split; [by left|lia]. }
  intros [(_ & Hr & Hh)|[(_ & Hr & Hh)|[([? ?] & Hr & ->)|([? ?] & -> & Hh)]]].
  - destruct (Hword _ _ pm _ Hr) as [? ?], (Hword _ _ pn _ Hh) as [? ?]. done.
  - destruct (Hword _ _ pm _ Hr) as [? ?], (Hword _ _ pn _ Hh) as [? ?]. done.
  - destruct (Hword _ _ pm _ Hr) as [? ?].
    split; [done|]. split; [by left|]. split; [done|lia].
  - destruct (Hword _ _ pn _ Hh) as [? ?].
    split; [by left|]. split; [done|]. split; [lia|done].
Qed.

Lemma emitted_tokens_come_from_the_inputs_witness :
  Forall (fun r =>
    (ref_word r = "|"%string
     ∨ ["a"; "b"]%string !! (ref_word_to_index r - 1)%nat = Some (ref_word r))
    ∧ (hyp_word r = "|"%string
       ∨ ["b"]%string !! (hyp_word_to_index r - 1)%nat = Some (hyp_word r))
    ∧ (ref_word_to_index r = (ref_word_from_index r + 1)%nat →
       ["a"; "b"]%string !! ref_word_from_index r = Some (ref_word r))
    ∧ (hyp_word_to_index r = (hyp_word_from_index r + 1)%nat →
       ["b"]%string !! hyp_word_from_index r = Some (hyp_word r)))
    [mkAlignedPair "b"%string "b"%string 1 0 2 1].
Proof.
  apply (emitted_tokens_come_from_the_inputs ["a"; "b"]%string ["b"]%string
           match_or_mismatch (-1) (-1) "|"%string true
           [mkAlignedPair "b"%string "b"%string 1 0 2 1] (Fin 2)).
  vm_compute. reflexivity.
Defined.

(** ** The alignment under the fixed scores as a scored path *)
Lemma chain_last_to {T} (P : AlignedPair T → Prop) c1 l c2 r :
  chain P c1 l c2 → last l = Some r → cell_to r = c2.
Proof.
  induction 1 as [c|r' l c HP Hc IH]; intros Hlast; [done|].
  destruct l as [|r'' l'].
  - injection Hlast as ->. by inversion Hc.
  - rewrite last_cons_cons in Hlast. by apply IH.
Qed.

Section FixedPath.
Context {T : Type} `{EqDecision T}.
Variables (ref hyp : list T) (eps : T).
Variable st : fill_state.
Hypothesis Hfilled : filled ref hyp match_or_mismatch (-1) (-1) true st.

Lemma fixed_diag_lower m n :
  interior (length ref) (length hyp) m n →
  score_at (fs_H st) (m - 1) (n - 1) + sim_at ref hyp match_or_mismatch m n
  ≤ score_at (fs_H st) m n.
Proof.
  intros Hint.
  pose proof (full_interior ref hyp _ _ _ st Hfilled m n Hint) as Hi.
  apply (f_equal fst) in Hi. simpl in Hi. rewrite Hi. clear Hi.
  destruct Hint as [? ?].
  pose proof (fixed_lower ref hyp st Hfilled (m - 1) (n - 1) ltac:(lia) ltac:(lia)).
  pose proof (sim_at_bounds ref hyp m n).
  relax_cases; lia.
Qed.

Lemma fixed_edge_score r :
  edge ref hyp (fs_bp st) r → aligned_step ref hyp eps r →
  score_at (fs_H st) (ref_word_to_index r) (hyp_word_to_index r)
  = score_at (fs_H st) (ref_word_from_index r) (hyp_word_from_index r)
    + step_score match_or_mismatch (-1) (-1) r.
Proof.
  destruct r as [rw hw pm pn m n].
  intros (Hn & Hm & HnN & Hbp & _ & _ & _) Hstep.
  unfold cell_from, aligned_step, step_score in *.
  cbn [ref_word hyp_word ref_word_from_index hyp_word_from_index
       ref_word_to_index hyp_word_to_index] in *.
  destruct (decide (m = 0%nat)) as [->|Hm0].
  - destruct Hstep as [([? ?] & _)|[([? ?] & _)|([E1 E2] & _)]]; try lia.
    subst pm n. rewrite bool_decide_false by lia.
    replace pn with (pn + 1 - 1)%nat at 2 by lia.
    rewrite !(full_top_row ref hyp _ _ _ st Hfilled) by lia. lia.
  - assert (interior (length ref) (length hyp) m n) as Hint
      by (unfold interior; lia).
    pose proof (full_interior ref hyp _ _ _ st Hfilled m n Hint) as Hi.
    rewrite Hbp in Hi.
    pose proof (fixed_lower ref hyp st Hfilled (m - 1) (n - 1)
                  ltac:(lia) ltac:(lia)) as Hlow.
    pose proof (sim_at_bounds ref hyp m n) as Hsim.
    destruct Hstep as [([E1 E2] & Hr & Hh)|[([E1 E2] & Hr & ->)|([E1 E2] & -> & Hh)]];
      subst m n.
    + rewrite !bool_decide_true by done.
      assert (sim_at ref hyp match_or_mismatch (pm + 1) (pn + 1)
              = match_or_mismatch rw hw) as Es.
      { unfold sim_at. replace (pm + 1 - 1)%nat with pm by lia.
        replace (pn + 1 - 1)%nat with pn by lia. by rewrite Hr, Hh. }
      rewrite Es in *.
      replace (pm + 1 - 1)%nat with pm in * by lia.
      replace (pn + 1 - 1)%nat with pn in * by lia.
      revert Hi. relax_cases; intros [= ? ?]; lia.
    + rewrite bool_decide_true by done. rewrite bool_decide_false by lia.
      replace (pm + 1 - 1)%nat with pm in * by lia.
      revert Hi. relax_cases; intros [= ? ?]; lia.
    + rewrite bool_decide_false by lia.
      replace (pn + 1 - 1)%nat with pn in * by lia.
      revert Hi. relax_cases; intros [= ? ?]; lia.
Qed.

End FixedPath.

(** The full-hypothesis alignment under the fixed scores, as a path of
    one-step records that carry their tokens and account for the score. *)
Lemma fixed_alignment_path {T} `{EqDecision T} (ref hyp : list T) (eps : T) :
  ref ≠ [] → hyp ≠ [] →
  ∃ st out m0 mstar,
    smith_waterman_alignment ref hyp match_or_mismatch (-1) (-1) eps true
    = Ok (out, Fin (score_at (fs_H st) mstar (length hyp)))
    ∧ (m0 ≤ mstar ≤ length ref)%nat
    ∧ score_at (fs_H st) m0 0 = 0
    ∧ chain (scored_step ref hyp match_or_mismatch (-1) (-1) eps (fs_H st))
        (m0, 0%nat) out (mstar, length hyp)
    ∧ (∀ final, last out = Some final →
         ref_word_to_index final = ref_word_from_index final →
         mstar = length ref)
    ∧ (1 ≤ mstar)%nat.
Proof.
  intros Href Hhyp.
  destruct (swa_full_chain ref hyp match_or_mismatch (-1) (-1) eps Href Hhyp)
    as (st & out & m0 & mstar & Hfilled & Hrun & Hms & Hbest & Hchain).
  { done. }
  { pose proof (sim_at_bounds ref hyp 1 1) as Hb.
    unfold sim_at, match_or_mismatch in *.
    destruct ref, hyp; try done. simpl. case_bool_decide; lia. }
  pose proof (swa_word_rule _ _ _ _ _ _ _ _ _ Hrun) as Hwords.
  pose proof (chain_Forall _ _ _ _ Hchain) as Hedges.
  assert (chain (fun r => edge ref hyp (fs_bp st) r
                          ∧ aligned_step ref hyp eps r)
            (m0, 0%nat) out (mstar, length hyp)) as Hchain2.
  { apply chain_and; [done|].
    apply Forall_forall. intros r Hr.
    pose proof (proj1 (Forall_forall _ _) Hedges r Hr) as He.
    apply word_rule_unit.
    - by apply (proj1 (Forall_forall _ _) Hwords).
    - by apply (fixed_edge_unit ref hyp st Hfilled).
    - by destruct He. }
  assert (chain (scored_step ref hyp match_or_mismatch (-1) (-1) eps (fs_H st))
            (m0, 0%nat) out (mstar, length hyp)) as Hchain3.
  { eapply chain_impl; [|exact Hchain2]. intros r [He Hs]. split; [done|].
    by apply (fixed_edge_score ref hyp eps st Hfilled). }
  pose proof (chain_mono _ (edge_mono ref hyp (fs_bp st)) _ _ _ Hchain) as [Hm0 _].
  simpl in Hm0.
  exists st, out, m0, mstar. split; [done|]. split; [lia|]. split.
  { apply (full_left_col ref hyp _ _ _ st Hfilled). lia. }
  split; [done|]. split; [|lia].
  intros final Hlast Hins.
  pose proof (chain_last_to _ _ _ _ _ Hchain3 Hlast) as Hto.
  assert (final ∈ out) as Hin by (by eapply last_Some_elem_of).
  pose proof (chain_Forall _ _ _ _ Hchain3) as Hall.
  destruct (proj1 (Forall_forall _ _) Hall final Hin) as [Hstep Hsc].
  unfold cell_to in Hto. injection Hto as Hto1 Hto2.
  destruct (decide (mstar = length ref)) as [|Hne]; [done|exfalso].
  destruct (Hbest (S mstar)) as [_ Hlt]; [lia|]. specialize (Hlt ltac:(lia)).
  pose proof (fixed_diag_lower ref hyp st Hfilled (S mstar) (length hyp)
                ltac:(unfold interior; destruct hyp; [done|simpl; lia])) as Hd.
  pose proof (sim_at_bounds ref hyp (S mstar) (length hyp)) as Hsim.
  unfold aligned_step, step_score in *.
  destruct Hstep as [([? ?] & _)|[([? ?] & _)|([? ?] & _)]]; try lia.
  rewrite bool_decide_false in Hsc by lia.
  rewrite Hto1, Hto2 in Hsc. rewrite <- Hins, Hto1 in Hsc.
  replace (hyp_word_from_index final) with (length hyp - 1)%nat in Hsc by lia.
  replace (S mstar - 1)%nat with mstar in Hd by lia. lia.
Qed.

(** ** Tokens, edit types and scores along a path *)
Lemma slice_nil {A} (l : list A) a : slice l a a = [].
Proof. unfold slice. by rewrite Nat.sub_diag. Qed.

Lemma slice_cons {A} (l : list A) a b x :
  l !! a = Some x → (a < b)%nat → slice l a b = x :: slice l (a + 1) b.
Proof.
  intros Hx Hab. unfold slice. rewrite (drop_S _ _ _ Hx).
  replace (b - a)%nat with (S (b - (a + 1))) by lia.
  by replace (a + 1)%nat with (S a) by lia.
Qed.

Lemma slice_app {A} (l : list A) a b c :
  (a ≤ b ≤ c)%nat → slice l a b ++ slice l b c = slice l a c.
Proof.
  intros Habc. unfold slice.
  replace (c - a)%nat with ((b - a) + (c - b))%nat by lia.
  rewrite <- (take_drop (b - a) (take (b - a + (c - b)) (drop a l))).
  rewrite take_take, Nat.min_l by lia. f_equal.
  rewrite <- take_drop_commute, drop_drop.
  destruct (decide (a ≤ length l)%nat).
  - by replace (a + (b - a))%nat with b by lia.
  - rewrite !drop_ge by lia. done.
Qed.

Lemma slice_all {A} (l : list A) : slice l 0 (length l) = l.
Proof. unfold slice. rewrite Nat.sub_0_r. simpl. by rewrite take_ge. Qed.

Section Steps.
Context {T : Type} `{EqDecision T}.
Variables (ref hyp : list T) (eps : T).
Hypothesis Href : eps ∉ ref.
Hypothesis Hhyp : eps ∉ hyp.

(** How [get_edit_type] classifies a one-step record, and the score the
    step contributes under the fixed scores. *)
Lemma step_edit_type r :
  aligned_step ref hyp eps r →
  ((ref_word_to_index r = ref_word_from_index r + 1
    ∧ hyp_word_to_index r = hyp_word_from_index r + 1)%nat
   ∧ (get_edit_type (ref_word r) (hyp_word r) eps = "cor"%string
      ∧ step_score match_or_mismatch (-1) (-1) r = 2
      ∨ get_edit_type (ref_word r) (hyp_word r) eps = "sub"%string
        ∧ step_score match_or_mismatch (-1) (-1) r = -1))
  ∨ ((ref_word_to_index r = ref_word_from_index r + 1
      ∧ hyp_word_to_index r = hyp_word_from_index r)%nat
     ∧ get_edit_type (ref_word r) (hyp_word r) eps = "del"%string
     ∧ step_score match_or_mismatch (-1) (-1) r = -1)
  ∨ ((ref_word_to_index r = ref_word_from_index r
      ∧ hyp_word_to_index r = hyp_word_from_index r + 1)%nat
     ∧ get_edit_type (ref_word r) (hyp_word r) eps = "ins"%string
     ∧ step_score match_or_mismatch (-1) (-1) r = -1).
Proof.
  destruct r as [rw hw pm pn m n].
  unfold aligned_step, step_score, get_edit_type, match_or_mismatch.
  cbn [ref_word hyp_word ref_word_from_index hyp_word_from_index
       ref_word_to_index hyp_word_to_index].
  intros [([-> ->] & Hr & Hh)|[([-> ->] & Hr & ->)|([-> ->] & -> & Hh)]].
  - left. split; [done|].
    apply list_elem_of_lookup_2 in Hr, Hh.
    assert (rw ≠ eps) by (by intros ->). assert (hw ≠ eps) by (by intros ->).
    repeat case_bool_decide; simpl; try done; auto.
  - right. left. split; [done|].
    apply list_elem_of_lookup_2 in Hr. assert (rw ≠ eps) by (by intros ->).
    repeat case_bool_decide; simpl; try done; try lia; auto.
  - right. right. split; [done|].
    apply list_elem_of_lookup_2 in Hh. assert (hw ≠ eps) by (by intros ->).
    repeat case_bool_decide; simpl; try done; try lia; auto; congruence.
Qed.

Variable P : AlignedPair T → Prop.
Hypothesis Pstep : ∀ r, P r → aligned_step ref hyp eps r.

Lemma aligned_chain_mono c1 l c2 :
  chain P c1 l c2 → (c1.1 ≤ c2.1)%nat ∧ (c1.2 ≤ c2.2)%nat.
Proof.
  apply chain_mono. intros r Hr. apply Pstep in Hr.
  unfold aligned_step in Hr. destruct Hr as [(? & _)|[(? & _)|(? & _)]]; lia.
Qed.

Lemma aligned_chain_tokens c1 l c2 :
  chain P c1 l c2 →
  filter (fun t => t ≠ eps) (ref_word <$> l) = slice ref c1.1 c2.1
  ∧ filter (fun t => t ≠ eps) (hyp_word <$> l) = slice hyp c1.2 c2.2.
Proof.
  induction 1 as [c|r l c HP Hc IH]; [by rewrite !slice_nil|].
  destruct IH as [IHr IHh]. apply aligned_chain_mono in Hc as [Hc1 Hc2].
  pose proof (Pstep r HP) as Hs. unfold cell_from, cell_to in *.
  cbn [fst snd fmap list_fmap] in *. rewrite !filter_cons.
  destruct Hs as [([E1 E2] & Hr & Hh)|[([E1 E2] & Hr & Hh)|([E1 E2] & Hr & Hh)]];
    rewrite E1, E2 in *.
  - assert (ref_word r ≠ eps)
      by (intros E; rewrite E in Hr; by apply list_elem_of_lookup_2 in Hr).
    assert (hyp_word r ≠ eps)
      by (intros E; rewrite E in Hh; by apply list_elem_of_lookup_2 in Hh).
    repeat case_decide; try done.
    rewrite IHr, IHh. split; symmetry; apply slice_cons; (done || lia).
  - assert (ref_word r ≠ eps)
      by (intros E; rewrite E in Hr; by apply list_elem_of_lookup_2 in Hr).
    repeat case_decide; try done.
    rewrite IHr, IHh. split; [|done]. symmetry; apply slice_cons; (done || lia).
  - assert (hyp_word r ≠ eps)
      by (intros E; rewrite E in Hh; by apply list_elem_of_lookup_2 in Hh).
    repeat case_decide; try done.
    rewrite IHr, IHh. split; [done|]. symmetry; apply slice_cons; (done || lia).
Qed.

Lemma aligned_chain_counts c1 l c2 :
  chain P c1 l c2 →
  let ets := (fun r => get_edit_type (ref_word r) (hyp_word r) eps) <$> l in
  (c1.2 + length (filter (fun e => e ≠ "del"%string) ets) = c2.2)%nat
  ∧ (c1.1 + length (filter (fun e => e ≠ "ins"%string) ets) = c2.1)%nat
  ∧ Forall (fun e => e ∈ ["cor"; "sub"; "ins"; "del"]%string) ets.
Proof.
  induction 1 as [c|r l c HP Hc IH]; [simpl; split_and!; [lia|lia|constructor]|].
  destruct IH as (IH1 & IH2 & IH3).
  pose proof (step_edit_type r (Pstep r HP)) as Hs. unfold cell_from, cell_to in *.
  cbn [fst snd fmap list_fmap] in *. rewrite !filter_cons.
  destruct Hs as [([E1 E2] & [[-> _]|[-> _]])|[([E1 E2] & -> & _)|([E1 E2] & -> & _)]];
    rewrite E1, E2 in *;
    (split_and!; [| |constructor; [set_solver|done]]);
    repeat case_decide; simpl; try done; lia.
Qed.

Variable Hm : matrix Z.
Hypothesis Pscore : ∀ r, P r →
  score_at Hm (ref_word_to_index r) (hyp_word_to_index r)
  = score_at Hm (ref_word_from_index r) (hyp_word_from_index r)
    + step_score match_or_mismatch (-1) (-1) r.

Lemma aligned_chain_score c1 l c2 :
  chain P c1 l c2 →
  let ets := (fun r => get_edit_type (ref_word r) (hyp_word r) eps) <$> l in
  score_at Hm c2.1 c2.2
  = score_at Hm c1.1 c1.2
    + 2 * Z.of_nat (length (filter (fun e => e = "cor"%string) ets))
    - Z.of_nat (length (filter (fun e => e ≠ "cor"%string) ets)).
Proof.
  induction 1 as [c|r l c HP Hc IH]; [simpl; lia|].
  pose proof (step_edit_type r (Pstep r HP)) as Hs.
  pose proof (Pscore r HP) as Hsc. unfold cell_from, cell_to in *.
  cbn [fst snd fmap list_fmap] in *. rewrite !filter_cons. rewrite IH, Hsc.
  destruct Hs as [(_ & [[-> ->]|[-> ->]])|[(_ & -> & ->)|(_ & -> & ->)]];
    repeat case_decide; simpl length; try done; lia.
Qed.

End Steps.

(** ** Padding records and sortedness *)
Lemma filter_all {A} (P : A → Prop) `{∀ x, Decision (P x)} (l : list A) :
  Forall P l → filter P l = l.
Proof.
  induction 1 as [|x l Hx _ IH]; [done|].
  rewrite filter_cons, decide_True by done. by rewrite IH.
Qed.

Lemma filter_none {A} (P : A → Prop) `{∀ x, Decision (P x)} (l : list A) :
  Forall (fun x => ¬ P x) l → filter P l = [].
Proof.
  induction 1 as [|x l Hx _ IH]; [done|].
  by rewrite filter_cons, decide_False.
Qed.

Lemma slice_elem_of {A} (l : list A) a b x : x ∈ slice l a b → x ∈ l.
Proof.
  unfold slice. intros Hx. apply elem_of_take in Hx as (i & Hx & _).
  rewrite lookup_drop in Hx. by apply list_elem_of_lookup_2 in Hx.
Qed.

(** The columns of a run of padding records. *)
Lemma padding_columns (ref_tok : list string) eps h a b :
  ref <$> padding ref_tok eps h a b = slice ref_tok a b
  ∧ Forall (fun p => hyp p = eps ∧ hypi_from p = h) (padding ref_tok eps h a b).
Proof.
  unfold padding, range, slice.
  generalize (b - a)%nat as k. intros k. revert a.
  induction k as [|k IH]; intros a; [done|].
  destruct (drop a ref_tok) as [|x l'] eqn:Hd; [done|].
  cbn [seq zip_with fmap list_fmap take].
  assert (drop (S a) ref_tok = l') as Hd'.
  { replace (S a) with (a + 1)%nat by lia. by rewrite <- drop_drop, Hd. }
  destruct (IH (S a)) as [IH1 IH2]. rewrite Hd' in IH1, IH2.
  split; [by rewrite <- IH1|]. by constructor.
Qed.

Section Sorted.
Context {T : Type}.
Variables (ref hyp : list T) (eps : T).
Variable P : AlignedPair T → Prop.
Hypothesis Pstep : ∀ r, P r → aligned_step ref hyp eps r.

Lemma aligned_chain_sorted c1 l c2 :
  chain P c1 l c2 →
  StronglySorted le (ref_word_from_index <$> l)
  ∧ StronglySorted le (hyp_word_from_index <$> l)
  ∧ Forall (fun r => (c1.1 ≤ ref_word_from_index r ≤ c2.1)%nat
                     ∧ (c1.2 ≤ hyp_word_from_index r ≤ c2.2)%nat) l.
Proof.
  induction 1 as [c|r l c HP Hc IH]; [by repeat constructor|].
  destruct IH as (IH1 & IH2 & IH3).
  pose proof (aligned_chain_mono ref hyp eps P Pstep _ _ _ Hc) as [Hm1 Hm2].
  pose proof (Pstep r HP) as Hs. unfold cell_from, cell_to in *.
  cbn [fst snd fmap list_fmap] in *.
  assert ((ref_word_from_index r ≤ ref_word_to_index r)%nat
          ∧ (hyp_word_from_index r ≤ hyp_word_to_index r)%nat) as [Hr Hh].
  { destruct Hs as [([? ?] & _)|[([? ?] & _)|([? ?] & _)]]; lia. }
  split_and!.
  - constructor; [done|]. apply Forall_fmap.
    eapply Forall_impl; [exact IH3|]. simpl. lia.
  - constructor; [done|]. apply Forall_fmap.
    eapply Forall_impl; [exact IH3|]. simpl. lia.
  - constructor; [lia|]. eapply Forall_impl; [exact IH3|]. simpl. lia.
Qed.

End Sorted.

(** ** The consumers on sequences free of the sentinel *)
(** X6.  For a non-empty reference and a non-empty hypothesis that do
    not contain the token "|", the score the aligner returns under the
    settings of [align_and_calc_edit_types] is twice the number of "cor"
    entries of the returned edit types minus the number of the other
    entries. *)
Theorem edit_types_account_for_the_score (ref_tok hyp_tok : list string) :
  ref_tok ≠ [] → hyp_tok ≠ [] →
  "|"%string ∉ ref_tok → "|"%string ∉ hyp_tok →
  ∃ out sc ets,
    smith_waterman_alignment ref_tok hyp_tok match_or_mismatch (-1) (-1)
      "|"%string true = Ok (out, Fin sc)
    ∧ align_and_calc_edit_types ref_tok hyp_tok = Ok ets
    ∧ sc = 2 * Z.of_nat (length (filter (fun e => e = "cor"%string) ets))
           - Z.of_nat (length (filter (fun e => e ≠ "cor"%string) ets)).
Proof.
  intros Href Hhyp Hr Hh.
  destruct (fixed_alignment_path ref_tok hyp_tok "|"%string Href Hhyp)
    as (st & out & m0 & mstar & Hrun & Hms & Hzero & Hchain & _).
  eexists out, _, _. split; [exact Hrun|].
  unfold align_and_calc_edit_types. rewrite Hrun. cbn [mbind result_bind].
  split; [reflexivity|].
  pose proof (aligned_chain_score ref_tok hyp_tok "|"%string Hr Hh _
                (fun r HP => proj1 HP) (fs_H st) (fun r HP => proj2 HP)
                _ _ _ Hchain) as Hsc.
  cbn [fst snd] in Hsc. rewrite Hzero in Hsc. exact Hsc.
Qed.

Lemma edit_types_account_for_the_score_witness :
  ∃ out sc ets,
    smith_waterman_alignment ["a"; "b"; "c"]%string ["a"; "x"]%string
      match_or_mismatch (-1) (-1) "|"%string true = Ok (out, Fin sc)
    ∧ align_and_calc_edit_types ["a"; "b"; "c"]%string ["a"; "x"]%string = Ok ets
    ∧ sc = 2 * Z.of_nat (length (filter (fun e => e = "cor"%string) ets))
           - Z.of_nat (length (filter (fun e => e ≠ "cor"%string) ets)).
Proof.
  apply (edit_types_account_for_the_score ["a"; "b"; "c"]%string ["a"; "x"]%string).
  - discriminate.
  - discriminate.
  - apply (bool_decide_unpack _). vm_compute. exact I.
  - apply (bool_decide_unpack _). vm_compute. exact I.
Defined.

(** X7.  For a non-empty reference and a non-empty hypothesis that do
    not contain the token "|", [align_and_calc_edit_types] returns edit
    types among "cor", "sub", "ins" and "del" of which exactly
    [len(hyp)] are not "del" (every hypothesis token is matched,
    substituted or inserted exactly once) and at most [len(ref)] are not
    "ins". *)
Theorem edit_types_count_the_tokens (ref_tok hyp_tok : list string) :
  ref_tok ≠ [] → hyp_tok ≠ [] →
  "|"%string ∉ ref_tok → "|"%string ∉ hyp_tok →
  ∃ ets,
    align_and_calc_edit_types ref_tok hyp_tok = Ok ets
    ∧ Forall (fun e => e ∈ ["cor"; "sub"; "ins"; "del"]%string) ets
    ∧ length (filter (fun e => e ≠ "del"%string) ets) = length hyp_tok
    ∧ (length (filter (fun e => e ≠ "ins"%string) ets) ≤ length ref_tok)%nat.
Proof.
  intros Href Hhyp Hr Hh.
  destruct (fixed_alignment_path ref_tok hyp_tok "|"%string Href Hhyp)
    as (st & out & m0 & mstar & Hrun & Hms & Hzero & Hchain & _).
  eexists. unfold align_and_calc_edit_types. rewrite Hrun.
  cbn [mbind result_bind]. split; [reflexivity|].
  pose proof (aligned_chain_counts ref_tok hyp_tok "|"%string Hr Hh _
                (fun r HP => proj1 HP) _ _ _ Hchain) as (Hc1 & Hc2 & Hc3).
  cbn [fst snd] in Hc1, Hc2.
  split; [exact Hc3|]. split; [exact Hc1|].
  change (map ?f out) with (f <$> out). lia.
Qed.

Lemma edit_types_count_the_tokens_witness :
  ∃ ets,
    align_and_calc_edit_types ["a"; "b"; "c"]%string ["a"; "x"]%string = Ok ets
    ∧ Forall (fun e => e ∈ ["cor"; "sub"; "ins"; "del"]%string) ets
    ∧ length (filter (fun e => e ≠ "del"%string) ets) = 2%nat
    ∧ (length (filter (fun e => e ≠ "ins"%string) ets) ≤ 3)%nat.
Proof.
  apply (edit_types_count_the_tokens ["a"; "b"; "c"]%string ["a"; "x"]%string).
  - discriminate.
  - discriminate.
  - apply (bool_decide_unpack _). vm_compute. exact I.
  - apply (bool_decide_unpack _). vm_compute. exact I.
Defined.

(** X8.  Under the scores of the two consumers, in full-hypothesis mode,
    for non-empty sequences that do not contain the sentinel: the
    hypothesis tokens of the returned records, the sentinel left out,
    are the hypothesis itself, and their reference tokens, the sentinel
    left out, are a contiguous stretch [ref[a:b]] of the reference. *)
Theorem alignment_reads_back_the_hypothesis {T} `{EqDecision T}
    (ref hyp : list T) (eps : T) :
  ref ≠ [] → hyp ≠ [] → eps ∉ ref → eps ∉ hyp →
  ∃ out sc a b,
    smith_waterman_alignment ref hyp match_or_mismatch (-1) (-1) eps true
    = Ok (out, sc)
    ∧ filter (fun t => t ≠ eps) (hyp_word <$> out) = hyp
    ∧ (a ≤ b ≤ length ref)%nat
    ∧ filter (fun t => t ≠ eps) (ref_word <$> out) = slice ref a b.
Proof.
  intros Href Hhyp Hr Hh.
  destruct (fixed_alignment_path ref hyp eps Href Hhyp)
    as (st & out & m0 & mstar & Hrun & Hms & Hzero & Hchain & _).
  exists out, (Fin (score_at (fs_H st) mstar (length hyp))), m0, mstar.
  split; [exact Hrun|].
  destruct (aligned_chain_tokens ref hyp eps Hr Hh _ (fun r HP => proj1 HP)
              _ _ _ Hchain) as [Htr Hth].
  cbn [fst snd] in Htr, Hth. rewrite slice_all in Hth. done.
Qed.

Lemma alignment_reads_back_the_hypothesis_witness :
  ∃ out sc a b,
    smith_waterman_alignment ["a"; "b"; "c"]%string ["b"; "x"]%string
      match_or_mismatch (-1) (-1) "|"%string true = Ok (out, sc)
    ∧ filter (fun t => t ≠ "|"%string) (hyp_word <$> out) = ["b"; "x"]%string
    ∧ (a ≤ b ≤ 3)%nat
    ∧ filter (fun t => t ≠ "|"%string) (ref_word <$> out)
      = slice ["a"; "b"; "c"]%string a b.
Proof.
  apply (alignment_reads_back_the_hypothesis
           ["a"; "b"; "c"]%string ["b"; "x"]%string "|"%string).
  - discriminate.
  - discriminate.
  - apply (bool_decide_unpack _). vm_compute. exact I.
  - apply (bool_decide_unpack _). vm_compute. exact I.
Defined.

(** The padded alignment in terms of the path of the aligner. *)
Lemma padded_alignments_path (ref_tok hyp_tok : list string) (eps : string) :
  ref_tok ≠ [] → hyp_tok ≠ [] →
  ∃ out m0 mstar,
    (m0 ≤ mstar ≤ length ref_tok)%nat
    ∧ chain (aligned_step ref_tok hyp_tok eps) (m0, 0%nat) out
        (mstar, length hyp_tok)
    ∧ padded_alignments ref_tok hyp_tok eps
      = Ok (padding ref_tok eps 0 0 m0
            ++ (Alignment_of <$> out)
            ++ padding ref_tok eps (length hyp_tok) mstar (length ref_tok)).
Proof.
  intros Href Hhyp.
  destruct (fixed_alignment_path ref_tok hyp_tok eps Href Hhyp)
    as (st & out & m0 & mstar & Hrun & Hms & Hzero & Hchain & Hlast & _).
  destruct (padded_alignments_spec ref_tok hyp_tok eps Href Hhyp)
    as (out' & sc' & first & final & Hrun' & Hfirst & Hfinal & _ & _ & _ & _ & Hpad).
  rewrite Hrun in Hrun'. injection Hrun' as <- _.
  exists out, m0, mstar. split; [done|]. split.
  { eapply chain_impl; [|exact Hchain]. by intros r [? _]. }
  rewrite Hpad.
  destruct out as [|r0 out0]; [done|]. injection Hfirst as ->.
  pose proof (chain_head _ _ _ _ _ Hchain) as (Hfrom & _ & _).
  unfold cell_from in Hfrom. injection Hfrom as -> _.
  pose proof (chain_last_to _ _ _ _ _ Hchain Hfinal) as Hto.
  unfold cell_to in Hto. injection Hto as Hto1 Hto2.
  assert (final ∈ first :: out0) as Hin by (by eapply last_Some_elem_of).
  pose proof (chain_Forall _ _ _ _ Hchain) as Hall.
  destruct (proj1 (Forall_forall _ _) Hall final Hin) as [Hstep _].
  do 3 f_equal.
  destruct (decide (ref_word_to_index final = ref_word_from_index final)) as [E|E].
  - specialize (Hlast final Hfinal E). subst mstar.
    unfold padding, range.
    replace (length ref_tok - (ref_word_from_index final + 1))%nat with 0%nat by lia.
    by replace (length ref_tok - length ref_tok)%nat with 0%nat by lia.
  - unfold aligned_step in Hstep.
    destruct Hstep as [([? ?] & _)|[([? ?] & _)|([? ?] & _)]]; try lia;
      by replace (ref_word_from_index final + 1)%nat with mstar by lia.
Qed.

(** X9.  For non-empty sequences that do not contain the sentinel, the
    list [padded_alignments] returns reads back both inputs: its [ref]
    fields, the sentinel left out, are the reference, and its [hyp]
    fields, the sentinel left out, are the hypothesis.  No token is
    lost, repeated or reordered by the alignment and the two paddings. *)
Theorem padded_alignments_read_back_both_sequences
    (ref_tok hyp_tok : list string) (eps : string) :
  ref_tok ≠ [] → hyp_tok ≠ [] → eps ∉ ref_tok → eps ∉ hyp_tok →
  ∃ al,
    padded_alignments ref_tok hyp_tok eps = Ok al
    ∧ filter (fun t => t ≠ eps) (ref <$> al) = ref_tok
    ∧ filter (fun t => t ≠ eps) (hyp <$> al) = hyp_tok.
Proof.
  intros Href Hhyp Hr Hh.
  destruct (padded_alignments_path ref_tok hyp_tok eps Href Hhyp)
    as (out & m0 & mstar & Hms & Hchain & Hpad).
  eexists. split; [exact Hpad|].
  destruct (aligned_chain_tokens ref_tok hyp_tok eps Hr Hh _ (fun r HP => HP)
              _ _ _ Hchain) as [Htr Hth].
  cbn [fst snd] in Htr, Hth. rewrite slice_all in Hth.
  destruct (padding_columns ref_tok eps 0 0 m0) as [Hl1 Hl2].
  destruct (padding_columns ref_tok eps (length hyp_tok) mstar (length ref_tok))
    as [Hr1 Hr2].
  rewrite !fmap_app, !filter_app, <- !list_fmap_compose.
  change (ref ∘ Alignment_of) with (@ref_word string).
  change (hyp ∘ Alignment_of) with (@hyp_word string).
  rewrite Htr, Hth, Hl1, Hr1. split.
  - rewrite !filter_all.
    + rewrite slice_app by lia. rewrite slice_app by lia. apply slice_all.
    + apply Forall_forall. intros x Hx ->. by apply slice_elem_of in Hx.
    + apply Forall_forall. intros x Hx ->. by apply slice_elem_of in Hx.
  - rewrite !filter_none.
    + by rewrite app_nil_r.
    + apply Forall_fmap. eapply Forall_impl; [exact Hr2|]. intros p [E _] Hne; by apply Hne.
    + apply Forall_fmap. eapply Forall_impl; [exact Hl2|]. intros p [E _] Hne; by apply Hne.
Qed.

Lemma padded_alignments_read_back_both_sequences_witness :
  ∃ al,
    padded_alignments ["a"; "b"; "c"]%string ["b"; "x"]%string "|" = Ok al
    ∧ filter (fun t => t ≠ "|"%string) (ref <$> al) = ["a"; "b"; "c"]%string
    ∧ filter (fun t => t ≠ "|"%string) (hyp <$> al) = ["b"; "x"]%string.
Proof.
  apply (padded_alignments_read_back_both_sequences
           ["a"; "b"; "c"]%string ["b"; "x"]%string "|"%string).
  - discriminate.
  - discriminate.
  - apply (bool_decide_unpack _). vm_compute. exact I.
  - apply (bool_decide_unpack _). vm_compute. exact I.
Defined.

Lemma seq_sorted a k : StronglySorted le (seq a k).
Proof.
  revert a. induction k as [|k IH]; intros a; [constructor|].
  simpl. constructor; [apply IH|].
  apply Forall_forall. intros y Hy. apply elem_of_seq in Hy. lia.
Qed.

Lemma const_sorted (l : list nat) h : Forall (fun x => x = h) l → StronglySorted le l.
Proof.
  induction 1 as [|x l -> Hl IH]; constructor; [done|].
  eapply Forall_impl; [exact Hl|]. simpl. lia.
Qed.

(** X10.  For non-empty sequences the list [padded_alignments] returns
    is sorted by [refi_from] and also by [hypi_from], and no
    [hypi_from] exceeds [len(hyp)]. *)
Theorem padded_alignments_sorted (ref_tok hyp_tok : list string) (eps : string) :
  ref_tok ≠ [] → hyp_tok ≠ [] →
  ∃ al,
    padded_alignments ref_tok hyp_tok eps = Ok al
    ∧ StronglySorted le (refi_from <$> al)
    ∧ StronglySorted le (hypi_from <$> al)
    ∧ Forall (fun p => (hypi_from p ≤ length hyp_tok)%nat) al.
Proof.
  intros Href Hhyp.
  destruct (padded_alignments_path ref_tok hyp_tok eps Href Hhyp)
    as (out & m0 & mstar & Hms & Hchain & Hpad).
  eexists. split; [exact Hpad|].
  destruct (aligned_chain_sorted ref_tok hyp_tok eps _ (fun r HP => HP)
              _ _ _ Hchain) as (Hs1 & Hs2 & Hb).
  cbn [fst snd] in Hb.
  destruct (padding_columns ref_tok eps 0 0 m0) as [_ Hl2].
  destruct (padding_columns ref_tok eps (length hyp_tok) mstar (length ref_tok))
    as [_ Hr2].
  pose proof (padding_refi_from ref_tok eps 0 0 m0 ltac:(lia)) as Hl1.
  pose proof (padding_refi_from ref_tok eps (length hyp_tok) mstar
                (length ref_tok) ltac:(lia)) as Hr1.
  rewrite Forall_forall in Hb. rewrite Forall_forall in Hl2.
  rewrite Forall_forall in Hr2.
  split_and!.
  - rewrite !fmap_app, <- list_fmap_compose, Hl1, Hr1.
    change (refi_from ∘ Alignment_of) with (@ref_word_from_index string).
    apply StronglySorted_app; split_and!.
    + intros x y Hx Hy. apply elem_of_seq in Hx.
      apply elem_of_app in Hy as [Hy|Hy].
      * apply list_elem_of_fmap in Hy as (r & -> & Hr).
        specialize (Hb r Hr). lia.
      * apply elem_of_seq in Hy. lia.
    + apply seq_sorted.
    + apply StronglySorted_app; split_and!; [|done|].
      * intros x y Hx Hy. apply list_elem_of_fmap in Hx as (r & -> & Hr).
        specialize (Hb r Hr). apply elem_of_seq in Hy. lia.
      * apply seq_sorted.
  - rewrite !fmap_app, <- list_fmap_compose.
    change (hypi_from ∘ Alignment_of) with (@hyp_word_from_index string).
    apply StronglySorted_app; split_and!.
    + intros x y Hx Hy. apply list_elem_of_fmap in Hx as (p & -> & Hp).
      destruct (Hl2 p Hp) as [_ ->]. lia.
    + apply (const_sorted _ 0%nat), Forall_fmap, Forall_forall.
      intros p Hp. simpl. by destruct (Hl2 p Hp) as [_ ->].
    + apply StronglySorted_app; split_and!; [|done|].
      * intros x y Hx Hy. apply list_elem_of_fmap in Hx as (r & -> & Hr).
        apply list_elem_of_fmap in Hy as (p & -> & Hp).
        destruct (Hr2 p Hp) as [_ ->]. specialize (Hb r Hr). lia.
      * apply (const_sorted _ (length hyp_tok)), Forall_fmap, Forall_forall.
        intros p Hp. simpl. by destruct (Hr2 p Hp) as [_ ->].
  - apply Forall_forall. intros p Hp.
    apply elem_of_app in Hp as [Hp|Hp]; [destruct (Hl2 p Hp) as [_ ->]; lia|].
    apply elem_of_app in Hp as [Hp|Hp]; [|destruct (Hr2 p Hp) as [_ ->]; lia].
    apply list_elem_of_fmap in Hp as (r & -> & Hr). specialize (Hb r Hr).
    simpl. lia.
Qed.

Lemma padded_alignments_sorted_witness :
  ∃ al,
    padded_alignments ["a"; "b"; "c"]%string ["b"; "x"]%string "|" = Ok al
    ∧ StronglySorted le (refi_from <$> al)
    ∧ StronglySorted le (hypi_from <$> al)
    ∧ Forall (fun p => (hypi_from p ≤ 2)%nat) al.
Proof.
  apply (padded_alignments_sorted ["a"; "b"; "c"]%string ["b"; "x"]%string "|"%string).
  - discriminate.
  - discriminate.
Defined.

(** ** Empty inputs, the grouping and the n-gram pairs *)
(** The generator's result for every order, in terms of the padded
    alignment. *)
Lemma calc_aligned_ngram_tuples_value (ref_tok hyp_tok : list string) :
  ref_tok ≠ [] → hyp_tok ≠ [] →
  ∃ al,
    padded_alignments ref_tok hyp_tok "|" = Ok al
    ∧ ∀ K, calc_aligned_ngram_tuples ref_tok hyp_tok K
           = Ok (concat ((fun o => aligned_window ref_tok hyp_tok al o
                                     <$> range 0 (length ref_tok - (o - 1)))
                         <$> range 1 (K + 1))).
Proof.
  intros Href Hhyp.
  destruct (padded_alignments_positions ref_tok hyp_tok "|" Href Hhyp)
    as (al & Hpad & Hcov & _).
  exists al. split; [done|].
  intros K. unfold calc_aligned_ngram_tuples. rewrite Hpad.
  cbn [mbind result_bind].
  rewrite bool_decide_true by apply group_nonempty.
  rewrite (for_each_nested _ _ (aligned_window ref_tok hyp_tok al)); [done|].
  intros o acc Ho. apply elem_of_seq in Ho.
  apply for_each_yield. intros k Hk. apply elem_of_seq in Hk.
  apply ngram_tuple_window; [lia|..]; apply bucket_nonempty, Hcov; lia.
Qed.

(** X11.  The three consumers on an empty input.  [padded_alignments]
    raises [IndexError] exactly when the reference or the hypothesis is
    empty and returns a list exactly when both are non-empty; so does
    the generator [calc_aligned_ngram_tuples] when run to exhaustion,
    for every order, so that its assertion never fails;
    [align_and_calc_edit_types] returns the empty list when either
    sequence is empty. *)
Theorem consumers_raise_exactly_on_empty_input (ref_tok hyp_tok : list string)
    (eps : string) (order : nat) :
  (padded_alignments ref_tok hyp_tok eps = Raise IndexError
   ↔ ref_tok = [] ∨ hyp_tok = [])
  ∧ ((∃ al, padded_alignments ref_tok hyp_tok eps = Ok al)
     ↔ ref_tok ≠ [] ∧ hyp_tok ≠ [])
  ∧ (calc_aligned_ngram_tuples ref_tok hyp_tok order = Raise IndexError
     ↔ ref_tok = [] ∨ hyp_tok = [])
  ∧ ((∃ ts, calc_aligned_ngram_tuples ref_tok hyp_tok order = Ok ts)
     ↔ ref_tok ≠ [] ∧ hyp_tok ≠ [])
  ∧ align_and_calc_edit_types ref_tok [] = Ok []
  ∧ align_and_calc_edit_types [] hyp_tok = Ok [].
Proof.
  assert (∀ e, ref_tok = [] ∨ hyp_tok = [] →
               padded_alignments ref_tok hyp_tok e = Raise IndexError) as Hempty.
  { intros e He. unfold padded_alignments.
    by rewrite (full_hyp_empty ref_tok hyp_tok _ _ _ _ He). }
  assert (ref_tok = [] ∨ hyp_tok = [] →
          calc_aligned_ngram_tuples ref_tok hyp_tok order = Raise IndexError)
    as Hempty'.
  { intros He. unfold calc_aligned_ngram_tuples. by rewrite (Hempty _ He). }
  assert (ref_tok ≠ [] → hyp_tok ≠ [] →
          ∃ al ts, padded_alignments ref_tok hyp_tok eps = Ok al
                   ∧ calc_aligned_ngram_tuples ref_tok hyp_tok order = Ok ts)
    as Hfull.
  { intros Hr Hh.
    destruct (padded_alignments_positions ref_tok hyp_tok eps Hr Hh)
      as (al & Hpad & _).
    destruct (calc_aligned_ngram_tuples_value ref_tok hyp_tok Hr Hh)
      as (al' & _ & Hcalc).
    exists al. eexists. split; [done|apply Hcalc]. }
  assert (ref_tok = [] ∨ hyp_tok = [] ∨ (ref_tok ≠ [] ∧ hyp_tok ≠ [])) as Hcases.
  { destruct ref_tok, hyp_tok; auto. }
  split_and!.
  - split; [|apply Hempty].
    intros Hraise. destruct Hcases as [?|[?|[Hr Hh]]]; [auto..|].
    destruct (Hfull Hr Hh) as (al & _ & Hpad & _). congruence.
  - split.
    + intros [al Hal]. destruct Hcases as [He|[He|?]]; [..|done];
        rewrite Hempty in Hal by auto; done.
    + intros [Hr Hh]. destruct (Hfull Hr Hh) as (al & _ & Hpad & _). by exists al.
  - split; [|apply Hempty'].
    intros Hraise. destruct Hcases as [?|[?|[Hr Hh]]]; [auto..|].
    destruct (Hfull Hr Hh) as (_ & ts & _ & Hcalc). congruence.
  - split.
    + intros [ts Hts]. destruct Hcases as [He|[He|?]]; [..|done];
        rewrite Hempty' in Hts by auto; done.
    + intros [Hr Hh]. destruct (Hfull Hr Hh) as (_ & ts & _ & Hcalc). by exists ts.
  - unfold align_and_calc_edit_types.
    by rewrite (full_hyp_empty ref_tok [] _ _ _ _ (or_intror eq_refl)).
  - unfold align_and_calc_edit_types.
    by rewrite (full_hyp_empty [] hyp_tok _ _ _ _ (or_introl eq_refl)).
Qed.

(** X12.  For non-empty sequences, the pairs [calc_aligned_ngram_tuples]
    yields for order [n+1] are those it yields for order [n] followed by
    [len(ref) - n] further pairs (none once [n] reaches [len(ref)]),
    whose reference n-grams have [n+1] tokens each. *)
Theorem ngram_orders_nest_and_saturate (ref_tok hyp_tok : list string)
    (order : nat) :
  ref_tok ≠ [] → hyp_tok ≠ [] →
  ∃ ts more,
    calc_aligned_ngram_tuples ref_tok hyp_tok order = Ok ts
    ∧ calc_aligned_ngram_tuples ref_tok hyp_tok (S order) = Ok (ts ++ more)
    ∧ length more = (length ref_tok - order)%nat
    ∧ Forall (fun t => length t.2 = S order) more.
Proof.
  intros Href Hhyp.
  destruct (calc_aligned_ngram_tuples_value ref_tok hyp_tok Href Hhyp)
    as (al & _ & Hcalc).
  eexists _, (aligned_window ref_tok hyp_tok al (S order)
              <$> range 0 (length ref_tok - order)).
  split; [apply Hcalc|]. split.
  - rewrite Hcalc. do 2 f_equal. unfold range.
    replace (S order + 1 - 1)%nat with (order + 1)%nat by lia.
    replace (order + 1 - 1)%nat with order by lia.
    rewrite seq_app, fmap_app, concat_app. f_equal.
    cbn [seq fmap list_fmap concat]. rewrite app_nil_r.
    by replace (1 + order)%nat with (S order) by lia;
       replace (S order - 1)%nat with order by lia.
  - split; [unfold range; by rewrite length_fmap, length_seq, Nat.sub_0_r|].
    apply Forall_fmap, Forall_forall. intros k Hk. apply elem_of_seq in Hk.
    unfold aligned_window, slice. cbn [snd compose].
    rewrite length_take, length_drop. lia.
Qed.

Lemma ngram_orders_nest_and_saturate_witness :
  ∃ ts more,
    calc_aligned_ngram_tuples ["a"; "b"]%string ["b"]%string 2 = Ok ts
    ∧ calc_aligned_ngram_tuples ["a"; "b"]%string ["b"]%string 3 = Ok (ts ++ more)
    ∧ length more = (2 - 2)%nat
    ∧ Forall (fun t => length t.2 = 3%nat) more.
Proof.
  apply (ngram_orders_nest_and_saturate ["a"; "b"]%string ["b"]%string 2).
  - discriminate.
  - discriminate.
Defined.

(** X13.  For non-empty sequences, every pair [calc_aligned_ngram_tuples]
    yields holds a reference n-gram [ref[k : k+o]] lying inside the
    reference, of exactly [o] tokens for some [1 <= o <= order], and a
    hypothesis n-gram that is a contiguous slice of the hypothesis; the
    number of pairs is the sum over [o = 1 .. order] of
    [len(ref) - (o - 1)], cut off at 0. *)
Theorem ngram_pairs_are_contiguous_windows (ref_tok hyp_tok : list string)
    (order : nat) :
  ref_tok ≠ [] → hyp_tok ≠ [] →
  ∃ ts,
    calc_aligned_ngram_tuples ref_tok hyp_tok order = Ok ts
    ∧ Forall (fun t =>
        ∃ o k a b,
          (1 ≤ o ≤ order)%nat ∧ (k + o ≤ length ref_tok)%nat
          ∧ t.2 = slice ref_tok k (k + o) ∧ length t.2 = o
          ∧ t.1 = slice hyp_tok a b) ts
    ∧ length ts
      = sum_list ((fun o => (length ref_tok - (o - 1))%nat) <$> range 1 (order + 1)).
Proof.
  intros Href Hhyp.
  destruct (calc_aligned_ngram_tuples_value ref_tok hyp_tok Href Hhyp)
    as (al & _ & Hcalc).
  eexists. split; [apply Hcalc|]. split.
  - apply Forall_concat, Forall_fmap, Forall_forall. intros o Ho.
    apply elem_of_seq in Ho.
    apply Forall_fmap, Forall_forall. intros k Hk. apply elem_of_seq in Hk.
    cbn [compose]. unfold aligned_window. cbn [fst snd].
    destruct (head (bucket al k)) as [first|],
             (last (bucket al (k + o - 1))) as [final|].
    1: exists o, k, (hypi_from first), (hypi_from final + 1)%nat.
    2-4: exists o, k, 0%nat, 0%nat; rewrite slice_nil.
    all: (split; [lia|]); (split; [lia|]); (split; [done|]); (split; [|done]);
         unfold slice; rewrite length_take, length_drop; lia.
  - generalize (range 1 (order + 1)). intros os.
    induction os as [|o os IH]; [done|].
    cbn [fmap list_fmap concat sum_list sum_list_with].
    rewrite length_app, length_fmap, IH.
    unfold range. rewrite length_seq. simpl. lia.
Qed.

Lemma ngram_pairs_are_contiguous_windows_witness :
  ∃ ts,
    calc_aligned_ngram_tuples ["a"; "b"]%string ["b"]%string 2 = Ok ts
    ∧ Forall (fun t =>
        ∃ o k a b,
          (1 ≤ o ≤ 2)%nat ∧ (k + o ≤ 2)%nat
          ∧ t.2 = slice ["a"; "b"]%string k (k + o) ∧ length t.2 = o
          ∧ t.1 = slice ["b"]%string a b) ts
    ∧ length ts
      = sum_list ((fun o => (2 - (o - 1))%nat) <$> range 1 (2 + 1)).
Proof.
  apply (ngram_pairs_are_contiguous_windows ["a"; "b"]%string ["b"]%string 2).
  - discriminate.
  - discriminate.
Defined.

(** X14.  The grouping of lines 262-266, for any list of records: the
    list stored under key [i] holds the records whose [refi_from] is
    [i], in their order in the input; the keys are the [refi_from]
    values that occur; and no stored list is empty, so the assertion of
    line 266 holds whatever the list. *)
Theorem grouping_keeps_every_record_under_its_position (al : list Alignment) :
  (∀ i, group_by_refi_from al !!! i = filter (fun a => refi_from a = i) al)
  ∧ (∀ i, is_Some (group_by_refi_from al !! i) ↔ i ∈ refi_from <$> al)
  ∧ map_Forall (fun _ v => (0 < length (v : list Alignment))%nat)
      (group_by_refi_from al).
Proof.
  split; [apply group_lookup|]. split; [|apply group_nonempty].
  intros i. pose proof (group_lookup al i) as Hi.
  rewrite lookup_total_alt in Hi. split.
  - intros [v Hv]. rewrite Hv in Hi. simpl in Hi.
    pose proof (group_nonempty al i v Hv) as Hlen. simpl in Hlen.
    destruct v as [|a v]; [simpl in Hlen; lia|].
    assert (a ∈ bucket al i) as Ha by (rewrite <- Hi; left).
    apply list_elem_of_filter in Ha as [<- Ha]. by apply list_elem_of_fmap_2.
  - intros Hin. pose proof (bucket_nonempty al i Hin) as Hb.
    destruct (group_by_refi_from al !! i) as [v|]; [done|]. by destruct Hb.
Qed.

(** ** The traceback in local mode *)
Section LocalPath.
Context {T : Type}.
Variables (ref hyp : list T) (sim : T → T → Z) (del ins : Z) (eps : T).
Variable st : fill_state.
Hypothesis Hfilled : filled ref hyp sim del ins false st.

(** In local mode a cell whose score is not 0, or whose backpointer is
    not the origin, took its score from the neighbour its backpointer
    names. *)
Lemma local_cell m n :
  (m ≤ length ref)%nat → (n ≤ length hyp)%nat →
  score_at (fs_H st) m n ≠ 0 ∨ bp_at (fs_bp st) m n ≠ (0%nat, 0%nat) →
  interior (length ref) (length hyp) m n
  ∧ 0 < score_at (fs_H st) m n
  ∧ (bp_at (fs_bp st) m n = ((m - 1)%nat, (n - 1)%nat)
     ∧ score_at (fs_H st) m n
       = score_at (fs_H st) (m - 1) (n - 1) + sim_at ref hyp sim m n
     ∨ bp_at (fs_bp st) m n = ((m - 1)%nat, n)
       ∧ score_at (fs_H st) m n = score_at (fs_H st) (m - 1) n + del
     ∨ bp_at (fs_bp st) m n = (m, (n - 1)%nat)
       ∧ score_at (fs_H st) m n = score_at (fs_H st) m (n - 1) + ins).
Proof.
  intros Hm Hn Hnz.
  destruct (decide (m = 0%nat ∨ n = 0%nat)) as [H0|H0].
  { destruct (local_boundary ref hyp sim del ins st Hfilled m n Hm Hn H0)
      as [Hs Hb]. by destruct Hnz. }
  assert (interior (length ref) (length hyp) m n) as Hint
    by (unfold interior; lia).
  split; [done|].
  pose proof (local_interior ref hyp sim del ins st Hfilled m n Hint) as Hi.
  revert Hi. relax_cases; intros [= Hs Hb]; (split; [try lia|auto]);
    by destruct Hnz.
Qed.

Lemma traceback_local_chain fuel m n out prev :
  (m ≤ length ref)%nat → (n ≤ length hyp)%nat → (m + n < fuel)%nat →
  ∃ st' l c0,
    traceback ref hyp eps false fuel (fs_H st) (fs_bp st)
      (mkTb m n (Fin (score_at (fs_H st) m n)) out prev) = Ok st'
    ∧ tb_output st' = out ++ l
    ∧ tb_score st' = Fin 0
    ∧ score_at (fs_H st) c0.1 c0.2 = 0
    ∧ chain (scored_step ref hyp sim del ins eps (fs_H st)) c0 (rev l) (m, n)
    ∧ (score_at (fs_H st) m n = 0 → l = []).
Proof.
  pose proof Hfilled as (HsH & Hsb & _).
  revert m n out prev.
  induction fuel as [|fuel IH]; intros m n out prev Hm Hn Hlt; [lia|].
  cbn [traceback tb_continue tb_ref_index tb_hyp_index tb_output tb_prev
       tb_score score_nonneg].
  pose proof (local_nonneg ref hyp sim del ins st Hfilled m n Hm Hn) as Hge.
  destruct (0 <=? score_at (fs_H st) m n) eqn:E; [|lia]. clear E.
  rewrite (mget_bp_at (length ref) (length hyp) _ m n) by done.
  destruct (bp_at (fs_bp st) m n) as [pm pn] eqn:Ebp.
  destruct (word_at_Some eps ref m) as (rw & Hrw & Hrw1 & _); [done|].
  destruct (word_at_Some eps hyp n) as (hw & Hhw & Hhw1 & _); [done|].
  destruct (decide ((pm, pn) = (0%nat, 0%nat)
                    ∧ score_at (fs_H st) m n = 0)) as [[[= -> ->] Hz]|Hnz].
  { rewrite (tb_try_origin_zero ref hyp eps (fs_H st) m n out);
      [|by rewrite (mget_score_at (length ref) (length hyp)), Hz].
    exists (mkTb m n (Fin 0) out (Some (0%nat, 0%nat))), [], (m, n).
    split_and!; [done|by rewrite app_nil_r|done|done|constructor|done]. }
  destruct (local_cell m n Hm Hn) as ([Hm1 Hn1] & Hpos & Hcell).
  { rewrite Ebp. destruct (decide (score_at (fs_H st) m n = 0)); [|by left].
    right. intros E. apply Hnz. done. }
  rewrite Ebp in Hcell.
  assert (sim_at ref hyp sim m n = sim rw hw) as Hsim.
  { unfold sim_at. by rewrite Hrw1, Hhw1 by lia. }
  assert (∀ r : AlignedPair T,
            r = mkAlignedPair rw hw (m - 1) (n - 1) m n
            ∧ score_at (fs_H st) m n
              = score_at (fs_H st) (m - 1) (n - 1) + sim_at ref hyp sim m n
            ∨ r = mkAlignedPair rw eps (m - 1) n m n
              ∧ score_at (fs_H st) m n = score_at (fs_H st) (m - 1) n + del
            ∨ r = mkAlignedPair eps hw m (n - 1) m n
              ∧ score_at (fs_H st) m n = score_at (fs_H st) m (n - 1) + ins →
            scored_step ref hyp sim del ins eps (fs_H st) r) as Hstep.
  { intros r [[-> Hs]|[[-> Hs]|[-> Hs]]];
      unfold scored_step, aligned_step, step_score;
      cbn [ref_word hyp_word ref_word_from_index hyp_word_from_index
           ref_word_to_index hyp_word_to_index].
    - split.
      + left. split; [lia|]. split; [apply Hrw1|apply Hhw1]; lia.
      + rewrite !bool_decide_true by lia. by rewrite Hs, Hsim.
    - split.
      + right. left. split; [lia|]. split; [apply Hrw1; lia|done].
      + rewrite bool_decide_true by lia. rewrite bool_decide_false by lia. done.
    - split.
      + right. right. split; [lia|]. split; [done|apply Hhw1; lia].
      + rewrite bool_decide_false by lia. done. }
  destruct (decide ((pm, pn) = (0%nat, 0%nat))) as [E0|Hne].
  - injection E0 as -> ->.
    assert (score_at (fs_H st) m n ≠ 0) as Hsnz by (intros E; by apply Hnz).
    assert (m = 1%nat ∧ n = 1%nat) as [-> ->].
    { destruct Hcell as [[E _]|[[E _]|[E _]]]; injection E as ? ?; lia. }
    rewrite (tb_try_origin ref hyp eps (fs_H st) 1 1 out
               (score_at (fs_H st) 1 1) rw hw (score_at (fs_H st) 0 0));
      [|by eapply mget_score_at|done|done|done
       |eapply mget_score_at; [done|lia|lia]].
    destruct (local_boundary ref hyp sim del ins st Hfilled 0 0) as [Hz0 _];
      [lia|lia|by left|].
    eexists _, [_], (0%nat, 0%nat). rewrite Hz0.
    split_and!; [done|done|done|done| |lia].
    simpl. apply (chain_cons _ (mkAlignedPair rw hw 0 0 1 1)); [|constructor].
    apply Hstep. left. split; [done|].
    destruct Hcell as [[_ Hs]|[[E _]|[E _]]]; [done|by injection E..].
  - destruct Hcell as [[E Hs]|[[E Hs]|[E Hs]]]; injection E as -> ->.
    + rewrite (tb_try_diag ref hyp eps (fs_H st) m n out (m - 1) (n - 1) rw hw
                 (score_at (fs_H st) (m - 1) (n - 1)));
        [|done|lia|lia|done|done|eapply mget_score_at; [done|lia|lia]].
      destruct (IH (m - 1)%nat (n - 1)%nat
                  (out ++ [mkAlignedPair rw hw (m - 1) (n - 1) m n])
                  (Some ((m - 1)%nat, (n - 1)%nat)))
        as (st' & l & c0 & Hrun & Hout & Hsc & Hz & Hchain & _); [lia..|].
      exists st', (mkAlignedPair rw hw (m - 1) (n - 1) m n :: l), c0.
      split_and!; [done|by rewrite Hout, <- app_assoc|done|done| |lia].
      simpl. apply (chain_snoc _ _ _ (mkAlignedPair rw hw (m - 1) (n - 1) m n));
        [done|]. apply Hstep. by left.
    + rewrite (tb_try_del ref hyp eps (fs_H st) m n out (m - 1) rw
                 (score_at (fs_H st) (m - 1) n));
        [|done|lia|done|eapply mget_score_at; [done|lia|lia]].
      destruct (IH (m - 1)%nat n
                  (out ++ [mkAlignedPair rw eps (m - 1) n m n])
                  (Some ((m - 1)%nat, n)))
        as (st' & l & c0 & Hrun & Hout & Hsc & Hz & Hchain & _); [lia..|].
      exists st', (mkAlignedPair rw eps (m - 1) n m n :: l), c0.
      split_and!; [done|by rewrite Hout, <- app_assoc|done|done| |lia].
      simpl. apply (chain_snoc _ _ _ (mkAlignedPair rw eps (m - 1) n m n));
        [done|]. apply Hstep. right. by left.
    + rewrite (tb_try_ins ref hyp eps (fs_H st) m n out (n - 1) hw
                 (score_at (fs_H st) m (n - 1)));
        [|done|lia|done|eapply mget_score_at; [done|lia|lia]].
      destruct (IH m (n - 1)%nat
                  (out ++ [mkAlignedPair eps hw m (n - 1) m n])
                  (Some (m, (n - 1)%nat)))
        as (st' & l & c0 & Hrun & Hout & Hsc & Hz & Hchain & _); [lia..|].
      exists st', (mkAlignedPair eps hw m (n - 1) m n :: l), c0.
      split_and!; [done|by rewrite Hout, <- app_assoc|done|done| |lia].
      simpl. apply (chain_snoc _ _ _ (mkAlignedPair eps hw m (n - 1) m n));
        [done|]. apply Hstep. right. by right.
Qed.

End LocalPath.


Lemma scored_chain_sum {T} (ref hyp : list T) (sim : T → T → Z) (del ins : Z)
    (eps : T) (H : matrix Z) c1 l c2 :
  chain (scored_step ref hyp sim del ins eps H) c1 l c2 →
  score_at H c2.1 c2.2 = score_at H c1.1 c1.2 + path_score sim del ins l.
Proof.
  unfold path_score.
  induction 1 as [c|r l c [_ Hs] Hc IH]; [simpl; lia|].
  unfold cell_from, cell_to in *. cbn [fst snd fmap list_fmap foldr] in *.
  rewrite IH, Hs. lia.
Qed.

(** ** Upper bounds on the scores of paths *)
Section Bound.
Context {T : Type}.
Variables (ref hyp : list T) (sim : T → T → Z) (del ins : Z) (eps : T).
Variable full : bool.
Variable st : fill_state.
Hypothesis Hfilled : filled ref hyp sim del ins full st.
Hypothesis Hdel : del ≤ 0.
Hypothesis Hins : full = false → ins ≤ 0.

(** No step into a cell scores more than the cell kept. *)
Lemma step_upper r :
  aligned_step ref hyp eps r →
  (ref_word_to_index r ≤ length ref)%nat →
  (hyp_word_to_index r ≤ length hyp)%nat →
  score_at (fs_H st) (ref_word_from_index r) (hyp_word_from_index r)
  + step_score sim del ins r
  ≤ score_at (fs_H st) (ref_word_to_index r) (hyp_word_to_index r).
Proof.
  destruct r as [rw hw pm pn m n].
  unfold aligned_step, step_score.
  cbn [ref_word hyp_word ref_word_from_index hyp_word_from_index
       ref_word_to_index hyp_word_to_index].
  intros Hstep Hm Hn.
  destruct Hfilled as (_ & _ & Hb & Hi & _).
  assert (∀ i j, (i ≤ length ref)%nat → (j ≤ length hyp)%nat →
                 i = 0%nat ∨ j = 0%nat →
                 score_at (fs_H st) i j = H_init full (length hyp) ins i j) as Hb'.
  { intros i j ? ? ?. by destruct (Hb i j) as [-> _]. }
  assert (interior (length ref) (length hyp) m n →
          score_at (fs_H st) (m - 1) (n - 1) + sim_at ref hyp sim m n
          ≤ score_at (fs_H st) m n
          ∧ score_at (fs_H st) (m - 1) n + del ≤ score_at (fs_H st) m n
          ∧ score_at (fs_H st) m (n - 1) + ins ≤ score_at (fs_H st) m n) as Hint.
  { intros Hmn. specialize (Hi m n Hmn). destruct Hmn as [? ?].
    apply (f_equal fst) in Hi. cbn [fst] in Hi. rewrite Hi. unfold H_init.
    destruct full; [rewrite !decide_False by lia|]; relax_cases; lia. }
  destruct Hstep as [([E1 E2] & Hr & Hh)|[([E1 E2] & Hr & ->)|([E1 E2] & -> & Hh)]];
    subst m n.
  - rewrite !bool_decide_true by done.
    destruct Hint as (Hd & _ & _); [unfold interior; lia|].
    unfold sim_at in Hd.
    replace (pm + 1 - 1)%nat with pm in Hd by lia.
    replace (pn + 1 - 1)%nat with pn in Hd by lia.
    by rewrite Hr, Hh in Hd.
  - rewrite bool_decide_true by done. rewrite bool_decide_false by lia.
    destruct (decide (pn = 0%nat)) as [->|Hpn].
    + rewrite !Hb' by (lia || auto). unfold H_init.
      destruct full; [rewrite !decide_True by done|]; lia.
    + destruct Hint as (_ & Hu & _); [unfold interior; lia|].
      by replace (pm + 1 - 1)%nat with pm in Hu by lia.
  - rewrite bool_decide_false by lia.
    destruct (decide (pm = 0%nat)) as [->|Hpm].
    + rewrite !Hb' by (lia || auto). unfold H_init.
      destruct full.
      * rewrite (decide_False (P:=(pn + 1)%nat = 0%nat)) by lia.
        rewrite !(decide_True (P:=0%nat = 0%nat)) by done.
        destruct (decide (pn = 0%nat)); lia.
      * specialize (Hins eq_refl). lia.
    + destruct Hint as (_ & _ & Hl); [unfold interior; lia|].
      by replace (pn + 1 - 1)%nat with pn in Hl by lia.
Qed.

Lemma chain_upper c0 l c1 :
  chain (aligned_step ref hyp eps) c0 l c1 →
  (c1.1 ≤ length ref)%nat → (c1.2 ≤ length hyp)%nat →
  score_at (fs_H st) c0.1 c0.2 + path_score sim del ins l
  ≤ score_at (fs_H st) c1.1 c1.2.
Proof.
  unfold path_score.
  induction 1 as [c|r l c HP Hc IH]; intros H1 H2; [simpl; lia|].
  pose proof (aligned_chain_mono ref hyp eps _ (fun r H => H) _ _ _ Hc)
    as [Hm1 Hm2].
  specialize (IH H1 H2).
  unfold cell_from, cell_to in *. cbn [fst snd fmap list_fmap foldr] in *.
  pose proof (step_upper r HP ltac:(lia) ltac:(lia)). lia.
Qed.

End Bound.

(** ** The returned score and the best path *)
(** The local alignment in terms of the filled matrices: a path of
    scored steps from a cell of score 0 to the best cell. *)
Lemma swa_local_path {T} (ref hyp : list T) (sim : T → T → Z)
    (del ins : Z) (eps : T) :
  ref ≠ [] → hyp ≠ [] →
  ∃ st out c0 m n,
    filled ref hyp sim del ins false st
    ∧ smith_waterman_alignment ref hyp sim del ins eps false
      = Ok (out, Fin (score_at (fs_H st) m n))
    ∧ interior (length ref) (length hyp) m n
    ∧ (∀ i j, interior (length ref) (length hyp) i j →
         score_at (fs_H st) i j ≤ score_at (fs_H st) m n)
    ∧ score_at (fs_H st) c0.1 c0.2 = 0
    ∧ chain (scored_step ref hyp sim del ins eps (fs_H st)) c0 out (m, n)
    ∧ (score_at (fs_H st) m n = 0 → out = []).
Proof.
  intros Href Hhyp.
  assert (1 ≤ length ref)%nat as HR by (destruct ref; [done|simpl; lia]).
  assert (1 ≤ length hyp)%nat as HN by (destruct hyp; [done|simpl; lia]).
  destruct (matrices_spec ref hyp sim del ins false)
    as (H0 & bp0 & st & Hinit & Hfill & Hfilled).
  pose proof Hfilled as (_ & _ & _ & _ & Htr). unfold tracked in Htr.
  destruct (fs_max_score_element st) as [m n] eqn:Hel.
  destruct (fs_max_score st) as [|z] eqn:Hmx.
  { destruct Htr as [_ Hno]. destruct (Hno 1%nat 1%nat).
    - split; [|done]. unfold interior. lia.
    - unfold before. lia. }
  destruct Htr as ([Hint _] & _ & -> & Hall). cbn [fst snd] in *.
  pose proof Hint as [? ?].
  destruct (traceback_local_chain ref hyp sim del ins eps st Hfilled
              (S (m + n)) m n [] None)
    as (tb & l & c0 & Hrun & Hout & Hsc & Hz & Hchain & Hempty); [lia..|].
  simpl in Hout.
  exists st, (rev l), c0, m, n. split; [done|]. split.
  { unfold smith_waterman_alignment. rewrite Hinit. cbn [mbind result_bind].
    rewrite Hfill. cbn [mbind result_bind]. rewrite Hel, Hmx, Hrun.
    cbn [mbind result_bind]. by rewrite Hsc, Hout. }
  split; [done|]. split.
  { intros i j Hij. apply Hall; [by split|]. destruct Hij as [? ?].
    unfold before. lia. }
  split; [done|]. split; [done|].
  intros Hzero. by rewrite (Hempty Hzero).
Qed.

(** The full-hypothesis result in terms of the filled matrices: the
    score is the best score of the last column. *)
Lemma swa_full_returns {T} (ref hyp : list T) (sim : T → T → Z)
    (del ins : Z) (eps : T) :
  ref ≠ [] → hyp ≠ [] →
  ∃ st out mstar,
    filled ref hyp sim del ins true st
    ∧ smith_waterman_alignment ref hyp sim del ins eps true
      = Ok (out, Fin (score_at (fs_H st) mstar (length hyp)))
    ∧ (1 ≤ mstar ≤ length ref)%nat
    ∧ ∀ i, (1 ≤ i ≤ length ref)%nat →
        score_at (fs_H st) i (length hyp)
        ≤ score_at (fs_H st) mstar (length hyp).
Proof.
  intros Href Hhyp.
  assert (1 ≤ length ref)%nat as HR by (destruct ref; [done|simpl; lia]).
  assert (1 ≤ length hyp)%nat as HN by (destruct hyp; [done|simpl; lia]).
  destruct (matrices_spec ref hyp sim del ins true)
    as (H0 & bp0 & st & Hinit & Hfill & Hfilled).
  pose proof Hfilled as (HsH & Hsb & _).
  destruct (full_terminal ref hyp sim del ins st Hfilled HR HN)
    as (mstar & Hms & Hel & Hmx & Hbest).
  destruct (traceback_full_ok ref hyp eps (fs_H st) (fs_bp st) HsH Hsb
              (full_bp_ok ref hyp sim del ins st Hfilled)
              (S (mstar + length hyp)) mstar (length hyp) (fs_max_score st)
              [] None) as [tb Hrun]; [lia|done|lia|].
  exists st, (rev (tb_output tb)), mstar. split; [done|]. split.
  { unfold smith_waterman_alignment. rewrite Hinit. cbn [mbind result_bind].
    rewrite Hfill. cbn [mbind result_bind]. rewrite Hel, Hrun.
    cbn [mbind result_bind orb]. by rewrite Hmx. }
  split; [done|]. intros i Hi. by apply Hbest.
Qed.

(** X15.  Local mode ([align_full_hyp = False]), non-empty inputs, any
    scores: the aligner returns a path of one-step records, each
    carrying the tokens it consumes, that ends in a cell inside the
    matrix; the returned score is the sum of the scores of its steps, is
    never negative, and is 0 exactly when no record is returned. *)
Theorem local_alignment_is_a_scored_path {T} (ref hyp : list T)
    (sim : T → T → Z) (del ins : Z) (eps : T) :
  ref ≠ [] → hyp ≠ [] →
  ∃ out sc c0 c1,
    smith_waterman_alignment ref hyp sim del ins eps false = Ok (out, Fin sc)
    ∧ chain (aligned_step ref hyp eps) c0 out c1
    ∧ (1 ≤ c1.1 ≤ length ref)%nat ∧ (1 ≤ c1.2 ≤ length hyp)%nat
    ∧ sc = path_score sim del ins out
    ∧ 0 ≤ sc
    ∧ (sc = 0 ↔ out = []).
Proof.
  intros Href Hhyp.
  destruct (swa_local_path ref hyp sim del ins eps Href Hhyp)
    as (st & out & c0 & m & n & Hfilled & Hrun & [Hm Hn] & _ & Hz & Hchain
        & Hempty).
  exists out, (score_at (fs_H st) m n), c0, (m, n).
  pose proof (scored_chain_sum _ _ _ _ _ _ _ _ _ _ Hchain) as Hsum.
  cbn [fst snd] in Hsum. rewrite Hz in Hsum.
  split; [done|]. split.
  { eapply chain_impl; [|exact Hchain]. by intros r [? _]. }
  split; [done|]. split; [done|]. split; [lia|]. split.
  { apply (local_nonneg ref hyp sim del ins st Hfilled); lia. }
  split; [done|].
  intros El. rewrite El in Hsum. unfold path_score in Hsum. simpl in Hsum. lia.
Qed.

Lemma local_alignment_is_a_scored_path_witness :
  ∃ out sc c0 c1,
    smith_waterman_alignment ["a"; "b"; "c"]%string ["x"; "b"]%string
      match_or_mismatch (-1) (-1) "|"%string false = Ok (out, Fin sc)
    ∧ chain (aligned_step ["a"; "b"; "c"]%string ["x"; "b"]%string "|"%string)
        c0 out c1
    ∧ (1 ≤ c1.1 ≤ 3)%nat ∧ (1 ≤ c1.2 ≤ 2)%nat
    ∧ sc = path_score match_or_mismatch (-1) (-1) out
    ∧ 0 ≤ sc
    ∧ (sc = 0 ↔ out = []).
Proof.
  apply (local_alignment_is_a_scored_path ["a"; "b"; "c"]%string
           ["x"; "b"]%string match_or_mismatch (-1) (-1) "|"%string).
  - discriminate.
  - discriminate.
Defined.

(** X16.  Local mode, non-empty inputs, deletion and insertion scores
    not above 0: the returned score is at least the score of every path
    of one-step records through the matrix, between any two cells. *)
Theorem local_score_is_optimal {T} (ref hyp : list T)
    (sim : T → T → Z) (del ins : Z) (eps : T) :
  ref ≠ [] → hyp ≠ [] → del ≤ 0 → ins ≤ 0 →
  ∃ out sc,
    smith_waterman_alignment ref hyp sim del ins eps false = Ok (out, Fin sc)
    ∧ ∀ c0 l c1,
        chain (aligned_step ref hyp eps) c0 l c1 →
        (c1.1 ≤ length ref)%nat → (c1.2 ≤ length hyp)%nat →
        path_score sim del ins l ≤ sc.
Proof.
  intros Href Hhyp Hdel Hins.
  destruct (swa_local_path ref hyp sim del ins eps Href Hhyp)
    as (st & out & c & m & n & Hfilled & Hrun & [Hm Hn] & Hbest & _).
  exists out, (score_at (fs_H st) m n). split; [done|].
  intros c0 l c1 Hchain H1 H2.
  pose proof (chain_upper ref hyp sim del ins eps false st Hfilled Hdel
                (fun _ => Hins) c0 l c1 Hchain H1 H2) as Hup.
  pose proof (aligned_chain_mono ref hyp eps _ (fun r H => H) _ _ _ Hchain)
    as [Hm1 Hm2].
  pose proof (local_nonneg ref hyp sim del ins st Hfilled c0.1 c0.2
                ltac:(lia) ltac:(lia)) as H0.
  destruct (decide (c1.1 = 0%nat ∨ c1.2 = 0%nat)) as [Hb|Hb].
  - destruct (local_boundary ref hyp sim del ins st Hfilled c1.1 c1.2 H1 H2 Hb)
      as [Hz _].
    pose proof (local_nonneg ref hyp sim del ins st Hfilled m n
                  ltac:(lia) ltac:(lia)). lia.
  - pose proof (Hbest c1.1 c1.2 ltac:(unfold interior; lia)). lia.
Qed.

Lemma local_score_is_optimal_witness :
  ∃ out sc,
    smith_waterman_alignment ["a"; "b"; "c"]%string ["x"; "b"]%string
      match_or_mismatch (-1) (-1) "|"%string false = Ok (out, Fin sc)
    ∧ ∀ c0 l c1,
        chain (aligned_step ["a"; "b"; "c"]%string ["x"; "b"]%string "|"%string)
          c0 l c1 →
        (c1.1 ≤ 3)%nat → (c1.2 ≤ 2)%nat →
        path_score match_or_mismatch (-1) (-1) l ≤ sc.
Proof.
  apply (local_score_is_optimal ["a"; "b"; "c"]%string ["x"; "b"]%string
           match_or_mismatch (-1) (-1) "|"%string).
  - discriminate.
  - discriminate.
  - lia.
  - lia.
Defined.

(** X17.  Full-hypothesis mode, non-empty inputs, any similarity and any
    insertion score, deletion score not above 0: the returned score is
    at least the score of every path of one-step records that starts in
    column 0 and ends in the last column at a row from 1 on, that is, of
    every alignment of the whole hypothesis with a stretch of the
    reference. *)
Theorem full_hyp_score_is_an_upper_bound {T} (ref hyp : list T)
    (sim : T → T → Z) (del ins : Z) (eps : T) :
  ref ≠ [] → hyp ≠ [] → del ≤ 0 →
  ∃ out sc,
    smith_waterman_alignment ref hyp sim del ins eps true = Ok (out, Fin sc)
    ∧ ∀ a b l,
        chain (aligned_step ref hyp eps) (a, 0%nat) l (b, length hyp) →
        (1 ≤ b ≤ length ref)%nat →
        path_score sim del ins l ≤ sc.
Proof.
  intros Href Hhyp Hdel.
  destruct (swa_full_returns ref hyp sim del ins eps Href Hhyp)
    as (st & out & mstar & Hfilled & Hrun & Hms & Hbest).
  exists out, (score_at (fs_H st) mstar (length hyp)). split; [done|].
  intros a b l Hchain Hb.
  pose proof (chain_upper ref hyp sim del ins eps true st Hfilled Hdel
                ltac:(done) _ l _ Hchain ltac:(simpl; lia) ltac:(simpl; lia))
    as Hup.
  pose proof (aligned_chain_mono ref hyp eps _ (fun r H => H) _ _ _ Hchain)
    as [Hm1 _].
  cbn [fst snd] in *.
  rewrite (full_left_col ref hyp _ _ _ st Hfilled) in Hup by lia.
  specialize (Hbest b Hb). lia.
Qed.

Lemma full_hyp_score_is_an_upper_bound_witness :
  ∃ out sc,
    smith_waterman_alignment ["a"; "b"; "c"]%string ["x"; "b"]%string
      match_or_mismatch (-1) (-1) "|"%string true = Ok (out, Fin sc)
    ∧ ∀ a b l,
        chain (aligned_step ["a"; "b"; "c"]%string ["x"; "b"]%string "|"%string)
          (a, 0%nat) l (b, 2%nat) →
        (1 ≤ b ≤ 3)%nat →
        path_score match_or_mismatch (-1) (-1) l ≤ sc.
Proof.
  apply (full_hyp_score_is_an_upper_bound ["a"; "b"; "c"]%string
           ["x"; "b"]%string match_or_mismatch (-1) (-1) "|"%string).
  - discriminate.
  - discriminate.
  - lia.
Defined.

(** X18.  Full-hypothesis mode under the scores of the two consumers
    (2 for equal tokens, -1 otherwise, -1 for a deletion or an
    insertion), non-empty inputs: the returned alignment is a path of
    one-step records from column 0 to the last column, and the returned
    score is the sum of the scores of its steps. *)
Theorem fixed_alignment_attains_its_score {T} `{EqDecision T}
    (ref hyp : list T) (eps : T) :
  ref ≠ [] → hyp ≠ [] →
  ∃ out sc m0 mstar,
    smith_waterman_alignment ref hyp match_or_mismatch (-1) (-1) eps true
    = Ok (out, Fin sc)
    ∧ (m0 ≤ mstar ≤ length ref)%nat ∧ (1 ≤ mstar)%nat
    ∧ chain (aligned_step ref hyp eps) (m0, 0%nat) out (mstar, length hyp)
    ∧ sc = path_score match_or_mismatch (-1) (-1) out.
Proof.
  intros Href Hhyp.
  destruct (fixed_alignment_path ref hyp eps Href Hhyp)
    as (st & out & m0 & mstar & Hrun & Hms & Hzero & Hchain & _ & Hpos).
  exists out, (score_at (fs_H st) mstar (length hyp)), m0, mstar.
  split; [done|]. split; [done|]. split; [done|]. split.
  { eapply chain_impl; [|exact Hchain]. by intros r [? _]. }
  pose proof (scored_chain_sum _ _ _ _ _ _ _ _ _ _ Hchain) as Hsum.
  cbn [fst snd] in Hsum. rewrite Hzero in Hsum. lia.
Qed.

Lemma fixed_alignment_attains_its_score_witness :
  ∃ out sc m0 mstar,
    smith_waterman_alignment ["a"; "b"; "c"]%string ["x"; "b"]%string
      match_or_mismatch (-1) (-1) "|"%string true = Ok (out, Fin sc)
    ∧ (m0 ≤ mstar ≤ 3)%nat ∧ (1 ≤ mstar)%nat
    ∧ chain (aligned_step ["a"; "b"; "c"]%string ["x"; "b"]%string "|"%string)
        (m0, 0%nat) out (mstar, 2%nat)
    ∧ sc = path_score match_or_mismatch (-1) (-1) out.
Proof.
  apply (fixed_alignment_attains_its_score ["a"; "b"; "c"]%string
           ["x"; "b"]%string "|"%string).
  - discriminate.
  - discriminate.
Defined.

(** ** The perfect score *)
Section Perfect.
Context {T : Type} `{EqDecision T}.
Variables (ref hyp : list T) (eps : T).

(** Under the fixed scores a path scores at most 2 for each hypothesis
    token it consumes, and exactly that only if every step pairs two
    equal tokens. *)
Lemma chain_perfect c0 l c1 :
  chain (aligned_step ref hyp eps) c0 l c1 →
  path_score match_or_mismatch (-1) (-1) l
  ≤ 2 * (Z.of_nat c1.2 - Z.of_nat c0.2)
  ∧ (path_score match_or_mismatch (-1) (-1) l
     = 2 * (Z.of_nat c1.2 - Z.of_nat c0.2) →
     Forall (fun r => ref_word r = hyp_word r) l
     ∧ length l = (c1.2 - c0.2)%nat
     ∧ c1.1 = (c0.1 + (c1.2 - c0.2))%nat
     ∧ slice ref c0.1 c1.1 = slice hyp c0.2 c1.2).
Proof.
  unfold path_score.
  induction 1 as [c|r l c HP Hc IH].
  { simpl. split; [lia|]. intros _. rewrite !slice_nil.
    split_and!; [constructor|lia|lia|done]. }
  pose proof (aligned_chain_mono ref hyp eps _ (fun r H => H) _ _ _ Hc)
    as [Hm1 Hm2].
  destruct IH as [IHle IHeq].
  destruct r as [rw hw pm pn m n].
  unfold cell_from, cell_to, aligned_step, step_score, match_or_mismatch in *.
  cbn [ref_word hyp_word ref_word_from_index hyp_word_from_index
       ref_word_to_index hyp_word_to_index fst snd fmap list_fmap foldr
       length] in *.
  destruct HP as [([E1 E2] & Hr & Hh)|[([E1 E2] & Hr & Hh)|([E1 E2] & Hr & Hh)]];
    subst m n.
  - rewrite !bool_decide_true by done.
    case_bool_decide as Heq; [|split; lia].
    split; [lia|]. intros Hsum.
    destruct IHeq as (Hall & Hlen & Hc1 & Hsl); [lia|].
    split_and!; [by constructor|lia|lia|].
    rewrite (slice_cons ref pm _ rw), (slice_cons hyp pn _ hw) by (done || lia).
    by rewrite Heq, Hsl.
  - rewrite bool_decide_true by done. rewrite bool_decide_false by lia.
    split; lia.
  - rewrite bool_decide_false by lia. split; lia.
Qed.

(** Where the hypothesis occurs in the reference there is a path of
    matches only. *)
Lemma diag_chain a k j :
  (j + k = length hyp)%nat →
  (∀ i, (j ≤ i < length hyp)%nat →
     ∃ t, ref !! (a + i)%nat = Some t ∧ hyp !! i = Some t) →
  ∃ l, chain (aligned_step ref hyp eps) ((a + j)%nat, j) l
         ((a + length hyp)%nat, length hyp)
       ∧ path_score match_or_mismatch (-1) (-1) l = 2 * Z.of_nat k.
Proof.
  revert j. induction k as [|k IH]; intros j Hjk Hocc.
  { exists []. replace j with (length hyp) by lia. split; [constructor|done]. }
  destruct (Hocc j ltac:(lia)) as (t & Hr & Hh).
  destruct (IH (S j) ltac:(lia)) as (l & Hchain & Hsum).
  { intros i Hi. apply Hocc. lia. }
  exists (mkAlignedPair t t (a + j) j (a + S j) (S j) :: l). split.
  - apply (chain_cons _ (mkAlignedPair t t (a + j) j (a + S j) (S j))); [|done].
    left. cbn. split; [lia|done].
  - unfold path_score in *. cbn [fmap list_fmap foldr]. rewrite Hsum.
    unfold step_score, match_or_mismatch. cbn.
    rewrite !bool_decide_true by (done || lia). lia.
Qed.

End Perfect.

(** The full-hypothesis result under the fixed scores against the
    perfect score [2 * len(hyp)]. *)
Lemma fixed_perfect {T} `{EqDecision T} (ref hyp : list T) (eps : T) :
  ref ≠ [] → hyp ≠ [] →
  ∃ out sc m0,
    smith_waterman_alignment ref hyp match_or_mismatch (-1) (-1) eps true
    = Ok (out, Fin sc)
    ∧ sc ≤ 2 * Z.of_nat (length hyp)
    ∧ ((∃ a, slice ref a (a + length hyp) = hyp) →
       sc = 2 * Z.of_nat (length hyp))
    ∧ (sc = 2 * Z.of_nat (length hyp) →
       Forall (fun r => ref_word r = hyp_word r) out
       ∧ length out = length hyp
       ∧ slice ref m0 (m0 + length hyp) = hyp).
Proof.
  intros Href Hhyp.
  assert (1 ≤ length hyp)%nat as HN by (destruct hyp; [done|simpl; lia]).
  destruct (fixed_alignment_path ref hyp eps Href Hhyp)
    as (st & out & m0 & mstar & Hrun & Hms & Hzero & Hchain & _).
  destruct (swa_full_returns ref hyp match_or_mismatch (-1) (-1) eps Href Hhyp)
    as (st' & out' & mstar' & Hfilled' & Hrun' & Hms' & Hbest').
  rewrite Hrun in Hrun'. injection Hrun' as _ Hsc.
  pose proof (scored_chain_sum _ _ _ _ _ _ _ _ _ _ Hchain) as Hsum.
  cbn [fst snd] in Hsum. rewrite Hzero in Hsum.
  assert (chain (aligned_step ref hyp eps) (m0, 0%nat) out (mstar, length hyp))
    as Hchain'.
  { eapply chain_impl; [|exact Hchain]. by intros r [? _]. }
  destruct (chain_perfect ref hyp eps _ _ _ Hchain') as [Hle Heq].
  cbn [fst snd] in Hle, Heq.
  exists out, (score_at (fs_H st) mstar (length hyp)), m0.
  split; [done|]. split; [lia|]. split.
  - intros [a Hocc].
    assert (a + length hyp ≤ length ref)%nat as Ha.
    { apply (f_equal length) in Hocc. unfold slice in Hocc.
      rewrite length_take, length_drop in Hocc. lia. }
    destruct (diag_chain ref hyp eps a (length hyp) 0) as (l & Hl & Hlsum);
      [lia| |].
    { intros i Hi. destruct (lookup_lt_is_Some_2 hyp i) as [t Ht]; [lia|].
      exists t. split; [|done]. rewrite <- Hocc in Ht. unfold slice in Ht.
      rewrite lookup_take_lt in Ht by lia. by rewrite lookup_drop in Ht. }
    replace (a + 0)%nat with a in Hl by lia.
    pose proof (chain_upper ref hyp match_or_mismatch (-1) (-1) eps true st'
                  Hfilled' ltac:(lia) ltac:(done) _ l _ Hl
                  ltac:(simpl; lia) ltac:(simpl; lia)) as Hup.
    cbn [fst snd] in Hup.
    rewrite (full_left_col ref hyp _ _ _ st' Hfilled') in Hup by lia.
    specialize (Hbest' (a + length hyp)%nat ltac:(lia)). lia.
  - intros Hperfect.
    destruct Heq as (Hall & Hlen & Hto & Hsl); [lia|].
    rewrite Nat.sub_0_r in *. rewrite slice_all in Hsl.
    split; [done|]. split; [done|]. by rewrite <- Hto.
Qed.

(** X20.  Full-hypothesis mode under the scores of the two consumers,
    non-empty inputs: the returned score never exceeds [2 * len(hyp)],
    and it equals [2 * len(hyp)] exactly when the hypothesis occurs in
    the reference as a contiguous stretch [ref[a : a+len(hyp)]]. *)
Theorem perfect_score_iff_hypothesis_occurs_in_reference {T} `{EqDecision T}
    (ref hyp : list T) (eps : T) :
  ref ≠ [] → hyp ≠ [] →
  ∃ out sc,
    smith_waterman_alignment ref hyp match_or_mismatch (-1) (-1) eps true
    = Ok (out, Fin sc)
    ∧ sc ≤ 2 * Z.of_nat (length hyp)
    ∧ (sc = 2 * Z.of_nat (length hyp)
       ↔ ∃ a, slice ref a (a + length hyp) = hyp).
Proof.
  intros Href Hhyp.
  destruct (fixed_perfect ref hyp eps Href Hhyp)
    as (out & sc & m0 & Hrun & Hle & Hocc & Hperfect).
  exists out, sc. split; [done|]. split; [done|]. split.
  - intros Hsc. exists m0. by destruct (Hperfect Hsc) as (_ & _ & ?).
  - exact Hocc.
Qed.

Lemma perfect_score_iff_hypothesis_occurs_in_reference_witness :
  ∃ out sc,
    smith_waterman_alignment ["a"; "b"; "c"]%string ["b"; "c"]%string
      match_or_mismatch (-1) (-1) "|"%string true = Ok (out, Fin sc)
    ∧ sc ≤ 2 * Z.of_nat 2
    ∧ (sc = 2 * Z.of_nat 2
       ↔ ∃ a, slice ["a"; "b"; "c"]%string a (a + 2) = ["b"; "c"]%string).
Proof.
  apply (perfect_score_iff_hypothesis_occurs_in_reference
           ["a"; "b"; "c"]%string ["b"; "c"]%string "|"%string).
  - discriminate.
  - discriminate.
Defined.

(** X21.  For a non-empty reference and a non-empty hypothesis: if the
    hypothesis occurs in the reference as a contiguous stretch,
    [align_and_calc_edit_types] returns [len(hyp)] times "cor"; and if
    neither sequence contains the token "|", it returns [len(hyp)] times
    "cor" only in that case. *)
Theorem all_correct_iff_hypothesis_occurs_in_reference
    (ref_tok hyp_tok : list string) :
  ref_tok ≠ [] → hyp_tok ≠ [] →
  ((∃ a, slice ref_tok a (a + length hyp_tok) = hyp_tok) →
   align_and_calc_edit_types ref_tok hyp_tok
   = Ok (replicate (length hyp_tok) "cor"%string))
  ∧ ("|"%string ∉ ref_tok → "|"%string ∉ hyp_tok →
     align_and_calc_edit_types ref_tok hyp_tok
     = Ok (replicate (length hyp_tok) "cor"%string) →
     ∃ a, slice ref_tok a (a + length hyp_tok) = hyp_tok).
Proof.
  intros Href Hhyp.
  destruct (fixed_perfect ref_tok hyp_tok "|"%string Href Hhyp)
    as (out & sc & m0 & Hrun & Hle & Hocc & Hperfect).
  unfold align_and_calc_edit_types. rewrite Hrun. cbn [mbind result_bind].
  split.
  - intros Ha. destruct (Hperfect (Hocc Ha)) as (Hall & Hlen & _).
    f_equal. rewrite <- Hlen. clear -Hall.
    induction Hall as [|r l Hr _ IH]; [done|].
    cbn [map length replicate]. rewrite IH. f_equal.
    unfold get_edit_type. rewrite Hr.
    by rewrite (bool_decide_false (hyp_word r ≠ hyp_word r)) by (by intros ?).
  - intros Hr Hh [= Hets]. exists m0.
    destruct (fixed_alignment_path ref_tok hyp_tok "|"%string Href Hhyp)
      as (st & out' & m0' & mstar & Hrun' & Hms & Hzero & Hchain & _).
    rewrite Hrun in Hrun'. injection Hrun' as <- ->.
    pose proof (aligned_chain_score ref_tok hyp_tok "|"%string Hr Hh _
                  (fun r HP => proj1 HP) (fs_H st) (fun r HP => proj2 HP)
                  _ _ _ Hchain) as Hsc.
    cbn [fst snd] in Hsc. rewrite Hzero in Hsc.
    change (map ?f out) with (f <$> out) in Hets. rewrite Hets in Hsc.
    rewrite filter_all in Hsc by (apply Forall_forall; by intros ? ->%elem_of_replicate_inv).
    rewrite filter_none in Hsc
      by (apply Forall_forall; intros ? ->%elem_of_replicate_inv; by intros ?).
    rewrite length_replicate in Hsc. simpl in Hsc.
    apply Hperfect. lia.
Qed.

Lemma all_correct_iff_hypothesis_occurs_in_reference_witness :
  align_and_calc_edit_types ["a"; "b"; "c"]%string ["b"; "c"]%string
  = Ok (replicate 2 "cor"%string)
  ∧ ∃ a, slice ["a"; "b"; "c"]%string a (a + 2) = ["b"; "c"]%string.
Proof.
  destruct (all_correct_iff_hypothesis_occurs_in_reference
              ["a"; "b"; "c"]%string ["b"; "c"]%string) as [Hif Honly].
  - discriminate.
  - discriminate.
  - split.
    + apply Hif. exists 1%nat. reflexivity.
    + apply Honly.
      * apply (bool_decide_unpack _). vm_compute. exact I.
      * apply (bool_decide_unpack _). vm_compute. exact I.
      * vm_compute. reflexivity.
Defined.

(** ** Coverage of the hypothesis in full-hypothesis mode *)

Section InsBound.
Context {T : Type}.
Variables (ref hyp : list T) (sim : T → T → Z) (del ins : Z).
Variable st : fill_state.
Hypothesis Hfilled : filled ref hyp sim del ins true st.
Hypothesis Hins : -1 ≤ ins.

(** With an insertion score of at least -1 no cell scores below minus
    its column: the insertion candidate alone guarantees that much.  So
    every interior cell scores above its initial [-(len(hyp)+2)], and
    its backpointer names one of its three neighbours. *)
Lemma ins_lower m n :
  (m ≤ length ref)%nat → (n ≤ length hyp)%nat →
  - Z.of_nat n ≤ score_at (fs_H st) m n.
Proof.
  intros Hm. induction n as [|n IH]; intros Hn.
  - rewrite (full_left_col ref hyp _ _ _ st Hfilled) by done. lia.
  - destruct m as [|m].
    + rewrite (full_top_row ref hyp _ _ _ st Hfilled) by done. nia.
    + pose proof (full_interior ref hyp _ _ _ st Hfilled (S m) (S n)) as Hi.
      eapply (f_equal fst) in Hi; [|unfold interior; lia].
      cbn [fst] in Hi. rewrite Hi. clear Hi.
      replace (S n - 1)%nat with n by lia.
      specialize (IH ltac:(lia)).
      relax_cases; lia.
Qed.

Lemma ins_bp_unit m n :
  interior (length ref) (length hyp) m n →
  bp_at (fs_bp st) m n = ((m - 1)%nat, (n - 1)%nat)
  ∨ bp_at (fs_bp st) m n = ((m - 1)%nat, n)
  ∨ bp_at (fs_bp st) m n = (m, (n - 1)%nat).
Proof.
  intros Hint. pose proof (full_interior ref hyp _ _ _ st Hfilled m n Hint) as Hi.
  apply (f_equal snd) in Hi. cbn [snd] in Hi. rewrite Hi. clear Hi.
  destruct Hint as [? ?].
  pose proof (ins_lower m (n - 1) ltac:(lia) ltac:(lia)).
  relax_cases; auto; lia.
Qed.

Lemma ins_edge_unit r :
  edge ref hyp (fs_bp st) r → unit_step r.
Proof.
  intros (Hn & Hm & HnN & Hbp & _ & _ & _). unfold unit_step, cell_from in *.
  destruct (decide (ref_word_to_index r = 0%nat)) as [E|E].
  - rewrite E in Hbp.
    rewrite (full_top_row_bp ref hyp _ _ _ st Hfilled) in Hbp by lia.
    injection Hbp as ? ?. lia.
  - destruct (ins_bp_unit (ref_word_to_index r) (hyp_word_to_index r))
      as [E'|[E'|E']]; [unfold interior; lia|..];
      rewrite E' in Hbp; injection Hbp as ? ?; lia.
Qed.

End InsBound.

(** Under the three conditions on the scores the full-hypothesis
    alignment is a path of one-step records from column 0 to the last
    column. *)
Lemma full_alignment_steps {T} (ref hyp : list T) (sim : T → T → Z)
    (del ins : Z) (eps : T) :
  ref ≠ [] → hyp ≠ [] → -1 ≤ ins → ins ≠ 0 → sim_at ref hyp sim 1 1 ≠ 0 →
  ∃ out sc m0 mstar,
    smith_waterman_alignment ref hyp sim del ins eps true = Ok (out, sc)
    ∧ chain (aligned_step ref hyp eps) (m0, 0%nat) out (mstar, length hyp).
Proof.
  intros Href Hhyp Hlow Hins Hsim.
  destruct (swa_full_chain ref hyp sim del ins eps Href Hhyp Hins Hsim)
    as (st & out & m0 & mstar & Hfilled & Hrun & _ & _ & Hchain).
  pose proof (swa_word_rule _ _ _ _ _ _ _ _ _ Hrun) as Hwords.
  pose proof (chain_Forall _ _ _ _ Hchain) as Hedges.
  exists out, (Fin (score_at (fs_H st) mstar (length hyp))), m0, mstar.
  split; [done|].
  eapply chain_impl; [|apply (chain_and _ _ _ _ _ Hchain Hwords)].
  intros r [He Hw]. apply word_rule_unit; [done| |by destruct He].
  by apply (ins_edge_unit ref hyp sim del ins st Hfilled Hlow).
Qed.

(** Along a path of one-step records every hypothesis index between its
    two ends is consumed by exactly one record, which carries the
    hypothesis token at that index. *)
Lemma aligned_chain_cover {T} (ref hyp : list T) (eps : T) c1 l c2 j :
  chain (aligned_step ref hyp eps) c1 l c2 →
  (c1.2 ≤ j < c2.2)%nat →
  ∃ r, filter (covers j) l = [r] ∧ hyp !! j = Some (hyp_word r).
Proof.
  induction 1 as [c|r l c HP Hc IH]; intros Hj; [lia|].
  pose proof (aligned_chain_mono ref hyp eps _ (fun r H => H) _ _ _ Hc)
    as [_ Hm2].
  assert (∀ c', chain (aligned_step ref hyp eps) c' l c → (j < c'.2)%nat →
                filter (covers j) l = []) as Hnone.
  { clear. intros c' Hc. induction Hc as [c|r l c HP Hc IH]; intros Hj; [done|].
    pose proof HP as Hs. rewrite filter_cons.
    unfold cell_from, cell_to, covers, aligned_step in *. cbn [fst snd] in *.
    rewrite decide_False by lia. apply IH.
    destruct Hs as [([? ?] & _)|[([? ?] & _)|([? ?] & _)]]; lia. }
  rewrite filter_cons.
  unfold cell_from, cell_to, covers in *. cbn [fst snd] in *.
  destruct (decide (hyp_word_from_index r = j ∧ hyp_word_to_index r = S j))
    as [[E1 E2]|Hno].
  - exists r. rewrite (Hnone _ Hc) by (cbn [snd]; lia). split; [done|].
    unfold aligned_step in HP.
    destruct HP as [(_ & _ & Hh)|[([? ?] & _)|(_ & _ & Hh)]];
      [by rewrite <- E1|lia|by rewrite <- E1].
  - apply IH. unfold aligned_step in HP.
    destruct HP as [([? ?] & _)|[([? ?] & _)|([? ?] & _)]]; lia.
Qed.

(** C1 (amended).  In full-hypothesis mode, for a non-empty reference
    and a non-empty hypothesis, whenever [ins_score] is at least -1 and
    not 0 and the similarity of the two first tokens is not 0, the
    aligner returns a list of records in which every hypothesis index
    [j] in [0 .. len(hyp)-1] is consumed by exactly one record (the
    record runs from [j] to [j+1] in the hypothesis and carries
    [hyp[j]]), every record consumes at most one hypothesis token, and
    the reference from-indices, read in output order, never decrease. *)
Theorem full_hyp_alignment_covers_hypothesis {T} (ref hyp : list T)
    (sim : T → T → Z) (del ins : Z) (eps : T) :
  ref ≠ [] → hyp ≠ [] → -1 ≤ ins → ins ≠ 0 →
  (∀ r h, head ref = Some r → head hyp = Some h → sim r h ≠ 0) →
  ∃ out sc,
    smith_waterman_alignment ref hyp sim del ins eps true = Ok (out, sc)
    ∧ (∀ j, (j < length hyp)%nat →
         ∃ r, filter (covers j) out = [r] ∧ hyp !! j = Some (hyp_word r))
    ∧ Forall (fun r => (hyp_word_from_index r ≤ hyp_word_to_index r
                        ≤ hyp_word_from_index r + 1)%nat) out
    ∧ (∀ i j a b, (i ≤ j)%nat → out !! i = Some a → out !! j = Some b →
         (ref_word_from_index a ≤ ref_word_from_index b)%nat).
Proof.
  intros Href Hhyp Hlow Hins Hsim.
  destruct (full_alignment_steps ref hyp sim del ins eps Href Hhyp Hlow Hins)
    as (out & sc & m0 & mstar & Hrun & Hchain).
  { destruct ref as [|r ?], hyp as [|h ?]; try done.
    rewrite (sim_at_head _ _ _ r h) by done. by apply Hsim. }
  assert (∀ r, aligned_step ref hyp eps r →
               (ref_word_from_index r ≤ ref_word_to_index r)%nat
               ∧ (hyp_word_from_index r ≤ hyp_word_to_index r)%nat) as Hmono.
  { intros r [([? ?] & _)|[([? ?] & _)|([? ?] & _)]]; lia. }
  exists out, sc. split; [done|]. split; [|split].
  - intros j Hj. apply (aligned_chain_cover ref hyp eps _ _ _ j Hchain).
    simpl. lia.
  - eapply Forall_impl; [exact (chain_Forall _ _ _ _ Hchain)|].
    intros r [([? ?] & _)|[([? ?] & _)|([? ?] & _)]]; lia.
  - intros i j a b. apply (chain_sorted _ Hmono _ _ _ _ _ _ _ Hchain).
Qed.

Lemma full_hyp_alignment_covers_hypothesis_witness :
  ∃ out sc,
    smith_waterman_alignment ["a"; "b"; "c"]%string ["a"; "x"; "c"]%string
      match_or_mismatch (-1) (-1) "|"%string true = Ok (out, sc)
    ∧ (∀ j, (j < 3)%nat →
         ∃ r, filter (covers j) out = [r]
              ∧ ["a"; "x"; "c"]%string !! j = Some (hyp_word r))
    ∧ Forall (fun r => (hyp_word_from_index r ≤ hyp_word_to_index r
                        ≤ hyp_word_from_index r + 1)%nat) out
    ∧ (∀ i j a b, (i ≤ j)%nat → out !! i = Some a → out !! j = Some b →
         (ref_word_from_index a ≤ ref_word_from_index b)%nat).
Proof.
  apply (full_hyp_alignment_covers_hypothesis
           ["a"; "b"; "c"]%string ["a"; "x"; "c"]%string
           match_or_mismatch (-1) (-1) "|"%string).
  - discriminate.
  - discriminate.
  - lia.
  - discriminate.
  - intros r h [= <-] [= <-]. discriminate.
Defined.

(** C1 as stated fails, in two ways.  With the scores match 1, mismatch
    0, deletion and insertion -1, reference [a] and hypothesis [b], the
    base case of the traceback finds the score 0 in cell (1,1) and
    emits nothing.  With the scores match 2, everything else -5,
    reference [a, b, c] and hypothesis [x, y, c], cell (2,2) keeps its
    initial score and the backpointer (0, 0), and the traceback ends
    with one record from (0, 0) to (2, 2) that carries [b] and [y]: the
    hypothesis token [x] at index 0 is in no record. *)
Lemma full_hyp_alignment_drops_hypothesis_tokens :
  (smith_waterman_alignment ["a"]%string ["b"]%string
     (fun x y => if bool_decide (x = y) then 1 else 0) (-1) (-1)
     "<eps>"%string true = Ok ([], Fin 0)
   ∧ filter (covers 0) ([] : list (AlignedPair string)) = [])
  ∧ (smith_waterman_alignment ["a"; "b"; "c"]%string ["x"; "y"; "c"]%string
       (fun x y => if bool_decide (x = y) then 2 else -5) (-5) (-5)
       "<eps>"%string true
     = Ok ([mkAlignedPair "b" "y" 0 0 2 2; mkAlignedPair "c" "c" 2 2 3 3]%string,
           Fin (-3))
     ∧ filter (covers 0)
         [mkAlignedPair "b" "y" 0 0 2 2; mkAlignedPair "c" "c" 2 2 3 3]%string
       = []
     ∧ ¬ Forall (fun r => (hyp_word_to_index r
                           ≤ hyp_word_from_index r + 1)%nat)
           [mkAlignedPair "b" "y" 0 0 2 2; mkAlignedPair "c" "c" 2 2 3 3]%string).
Proof.
  split; [split; [vm_compute; reflexivity|done]|].
  split; [vm_compute; reflexivity|]. split; [done|].
  intros HF. apply Forall_cons in HF as [HF _]. simpl in HF. lia.
Qed.
